(** * git-chglog: commit parser, commit filter and commit extractor

    A shallow embedding of the commit pipeline of git-chglog
    (commit parser, [commit_filter.go], [commit_extractor.go]) and the
    properties of its specification.

    Conventions of the embedding:
    - a Go [string] is a [string] of bytes; the library functions of
      [strings] and [regexp] are modelled on bytes, which agrees with Go on
      ASCII text (Go decodes UTF-8 runes for [\p{L}], case folding and
      Unicode white space);
    - a Go pointer that may be [nil] is an [option]; a slice is a [list];
      a Go [map] is a [gmap];
    - a run-time panic is an outcome of its own, distinct from a returned
      [error];
    - the external collaborators (git client, Jira client, logger,
      post-processor) act on an explicit world state. *)

From Stdlib Require Import ZArith Ascii String List Lia Bool Permutation Sorted.
From Stdlib Require Import OrderedTypeEx.
From stdpp Require Import base option list gmap strings sorting.

Set Warnings "-register-all".
Local Open Scope string_scope.
Local Open Scope list_scope.

(** ** Go's [strings] package, on byte strings *)

Module strings.

Fixpoint HasPrefix (s prefix : string) : bool :=
  match prefix, s with
  | EmptyString, _ => true
  | String a p', String b s' => if Ascii.eqb a b then HasPrefix s' p' else false
  | String _ _, EmptyString => false
  end.

(** [Index s sub]: byte offset of the first occurrence of [sub] in [s],
    or [-1]. *)
Fixpoint Index (s sub : string) : Z :=
  if HasPrefix s sub then 0%Z
  else match s with
       | EmptyString => (-1)%Z
       | String _ s' =>
           let i := Index s' sub in
           if (i <? 0)%Z then (-1)%Z else (i + 1)%Z
       end.

Fixpoint rev_to_string (acc : list ascii) (tail : string) : string :=
  match acc with
  | [] => tail
  | c :: acc' => rev_to_string acc' (String c tail)
  end.

(** The scanning loop of [Split] for a non-empty separator: [skip] bytes
    of a separator just found are still to be passed over, [cur] holds the
    current piece in reverse. *)
Fixpoint split_go (sep : string) (skip : nat) (cur : list ascii)
         (s : string) : list string :=
  match skip with
  | S k =>
      match s with
      | EmptyString => [rev_to_string cur ""]
      | String _ s' => split_go sep k cur s'
      end
  | O =>
      match s with
      | EmptyString => [rev_to_string cur ""]
      | String c s' =>
          if HasPrefix s sep
          then rev_to_string cur "" :: split_go sep (String.length sep - 1) [] s'
          else split_go sep 0 (c :: cur) s'
      end
  end.

Fixpoint explode (s : string) : list string :=
  match s with
  | EmptyString => []
  | String c s' => String c "" :: explode s'
  end.

(** [Split s sep]; an empty separator splits after each byte. *)
Definition Split (s sep : string) : list string :=
  match sep with
  | EmptyString => explode s
  | _ => split_go sep 0 [] s
  end.

Fixpoint Join (elems : list string) (sep : string) : string :=
  match elems with
  | [] => ""
  | [x] => x
  | x :: rest => x +:+ sep +:+ Join rest sep
  end.

(** White space of [TrimSpace] in the ASCII range:
    ['\t'], ['\n'], ['\v'], ['\f'], ['\r'], [' ']. *)
Definition isSpace (c : ascii) : bool :=
  let n := nat_of_ascii c in
  (Nat.leb 9 n && Nat.leb n 13) || Nat.eqb n 32.

Fixpoint trimLeft (s : string) : string :=
  match s with
  | EmptyString => ""
  | String c s' => if isSpace c then trimLeft s' else s
  end.

Fixpoint trimRight (s : string) : string :=
  match s with
  | EmptyString => ""
  | String c s' =>
      match trimRight s' with
      | EmptyString => if isSpace c then "" else String c ""
      | t => String c t
      end
  end.

Definition TrimSpace (s : string) : string := trimRight (trimLeft s).

Definition lowerByte (c : ascii) : ascii :=
  let n := nat_of_ascii c in
  if Nat.leb 65 n && Nat.leb n 90 then ascii_of_nat (n + 32) else c.

Fixpoint ToLower (s : string) : string :=
  match s with
  | EmptyString => ""
  | String c s' => String (lowerByte c) (ToLower s')
  end.

Definition upperByte (c : ascii) : ascii :=
  let n := nat_of_ascii c in
  if Nat.leb 97 n && Nat.leb n 122 then ascii_of_nat (n - 32) else c.

(** Bytes that do not separate words for [Title]: letters, digits and
    the underscore. *)
Definition isWordByte (c : ascii) : bool :=
  let n := nat_of_ascii c in
  (Nat.leb 48 n && Nat.leb n 57) || (Nat.leb 65 n && Nat.leb n 90)
  || (Nat.leb 97 n && Nat.leb n 122) || Nat.eqb n 95.

Fixpoint title_go (prevWord : bool) (s : string) : string :=
  match s with
  | EmptyString => ""
  | String c s' =>
      String (if prevWord then c else upperByte c) (title_go (isWordByte c) s')
  end.

(** [Title s]: the first letter of every word in upper case. *)
Definition Title (s : string) : string := title_go false s.

(** [s[n:]] for [n <= len(s)]. *)
Fixpoint drop (n : nat) (s : string) : string :=
  match n, s with
  | O, _ => s
  | S k, String _ s' => drop k s'
  | S _, EmptyString => ""
  end.

(** [s[:n]] for [n <= len(s)]. *)
Fixpoint take (n : nat) (s : string) : string :=
  match n, s with
  | O, _ => ""
  | S k, String c s' => String c (take k s')
  | S _, EmptyString => ""
  end.

End strings.

(** ** Go's [regexp] package: compiled patterns and leftmost-first matching

    A compiled pattern is a syntax tree; [exec] is a backtracking matcher
    whose first success is the match Go's leftmost-first semantics selects.
    The pattern compiler itself ([regexp.MustCompile]) is not modelled: the
    patterns of the parser are written as trees, next to the pattern text
    they stand for. *)

Module regexp.

Inductive Regexp : Type :=
| Empty                                (* the empty pattern *)
| Class (p : ascii -> bool)            (* one byte of a class *)
| Lit (fold : bool) (s : string)       (* literal text; [fold] is (?i) *)
| Cat (r1 r2 : Regexp)
| Alt (r1 r2 : Regexp)                 (* r1|r2, r1 preferred *)
| Star (r : Regexp)                    (* r*, greedy *)
| Plus (r : Regexp)                    (* r+, greedy *)
| Quest (r : Regexp)                   (* r?, greedy *)
| Cap (i : nat) (r : Regexp)           (* capture group number i >= 1 *)
| BeginText                            (* ^ without (?m) *)
| EndText.                             (* $ without (?m) *)

(** Capture registers: group number to captured text, latest first. *)
Definition caps := list (nat * string).

Fixpoint capGet (i : nat) (c : caps) : string :=
  match c with
  | [] => ""
  | (j, v) :: c' => if Nat.eqb i j then v else capGet i c'
  end.

Fixpoint NumSubexp (r : Regexp) : nat :=
  match r with
  | Empty | Class _ | Lit _ _ | BeginText | EndText => 0
  | Cat r1 r2 | Alt r1 r2 => Nat.max (NumSubexp r1) (NumSubexp r2)
  | Star r | Plus r | Quest r => NumSubexp r
  | Cap i r => Nat.max i (NumSubexp r)
  end.

Definition K := string -> caps -> option (string * caps).

Fixpoint litMatch (fold : bool) (l s : string) : option string :=
  match l, s with
  | EmptyString, _ => Some s
  | String a l', String b s' =>
      if (if fold
          then Ascii.eqb (strings.lowerByte a) (strings.lowerByte b)
          else Ascii.eqb a b)
      then litMatch fold l' s' else None
  | String _ _, EmptyString => None
  end.

(** Greedy iteration; every round has to consume input, so the number of
    rounds never exceeds the length of the input that [fuel] starts from. *)
Fixpoint star (body : string -> caps -> K -> option (string * caps))
         (fuel : nat) (s : string) (c : caps) (k : K)
  : option (string * caps) :=
  match fuel with
  | O => k s c
  | S f =>
      match body s c (fun s' c' =>
               if Nat.ltb (String.length s') (String.length s)
               then star body f s' c' k else None) with
      | Some m => Some m
      | None => k s c
      end
  end.

(** [exec total r s c k]: match [r] at the suffix [s] of a text of
    [total] bytes, then continue with [k]. *)
Fixpoint exec (total : nat) (r : Regexp) (s : string) (c : caps) (k : K)
  : option (string * caps) :=
  match r with
  | Empty => k s c
  | Class p =>
      match s with
      | String a s' => if p a then k s' c else None
      | EmptyString => None
      end
  | Lit fold l =>
      match litMatch fold l s with
      | Some s' => k s' c
      | None => None
      end
  | Cat r1 r2 => exec total r1 s c (fun s' c' => exec total r2 s' c' k)
  | Alt r1 r2 =>
      match exec total r1 s c k with
      | Some m => Some m
      | None => exec total r2 s c k
      end
  | Star r1 => star (exec total r1) (String.length s) s c k
  | Plus r1 =>
      exec total r1 s c (fun s' c' =>
        star (exec total r1) (String.length s') s' c' k)
  | Quest r1 =>
      match exec total r1 s c k with
      | Some m => Some m
      | None => k s c
      end
  | Cap i r1 =>
      exec total r1 s c (fun s' c' =>
        k s' ((i, strings.take (String.length s - String.length s') s) :: c'))
  | BeginText => if Nat.eqb (String.length s) total then k s c else None
  | EndText => match s with EmptyString => k s c | _ => None end
  end.

(** A match anchored at the suffix [s]: the unconsumed rest and the
    submatches [text; group 1; ...; group n]. *)
Definition matchAt (r : Regexp) (total : nat) (s : string)
  : option (string * list string) :=
  match exec total r s [] (fun s' c' => Some (s', c')) with
  | Some (s', c') =>
      Some (s', strings.take (String.length s - String.length s') s
                :: map (fun i => capGet i c') (seq 1 (NumSubexp r)))
  | None => None
  end.

(** The loop of [allMatches]: [skip] bytes of the last match are still to
    be passed over; [prevEnd] is the length of the suffix at which the
    previous match ended. *)
Fixpoint allMatches (r : Regexp) (total : nat) (skip : nat)
         (prevEnd : option nat) (s : string) : list (list string) :=
  match skip with
  | S k =>
      match s with
      | EmptyString => []
      | String _ s' => allMatches r total k prevEnd s'
      end
  | O =>
      let here := String.length s in
      match matchAt r total s with
      | None =>
          match s with
          | EmptyString => []
          | String _ s' => allMatches r total 0 prevEnd s'
          end
      | Some (s', m) =>
          let width := here - String.length s' in
          match width with
          | O =>
              let rest :=
                match s with
                | EmptyString => []
                | String _ t => allMatches r total 0 (Some here) t
                end in
              if bool_decide (prevEnd = Some here) then rest else m :: rest
          | S w =>
              m :: match s with
                   | EmptyString => []
                   | String _ t =>
                       allMatches r total w (Some (String.length s')) t
                   end
          end
      end
  end.

(** [re.FindAllStringSubmatch(s, -1)] *)
Definition FindAllStringSubmatch (r : Regexp) (s : string)
  : list (list string) :=
  allMatches r (String.length s) 0 None s.

(** [re.FindStringSubmatch(s)]: the first match, [[]] (nil) when none. *)
Fixpoint firstMatch (r : Regexp) (total : nat) (s : string) : list string :=
  match matchAt r total s with
  | Some (_, m) => m
  | None =>
      match s with
      | EmptyString => []
      | String _ s' => firstMatch r total s'
      end
  end.

Definition FindStringSubmatch (r : Regexp) (s : string) : list string :=
  firstMatch r (String.length s) s.

(** The loop of [ReplaceAllString] with an empty replacement: matched
    text is dropped, everything else is copied. *)
Fixpoint deleteAll (r : Regexp) (total : nat) (skip : nat) (s : string)
  : string :=
  match skip with
  | S k =>
      match s with
      | EmptyString => ""
      | String _ s' => deleteAll r total k s'
      end
  | O =>
      match matchAt r total s with
      | Some (s', _) =>
          match String.length s - String.length s' with
          | S w =>
              match s with
              | EmptyString => ""
              | String _ t => deleteAll r total w t
              end
          | O =>
              match s with
              | EmptyString => ""
              | String a t => String a (deleteAll r total 0 t)
              end
          end
      | None =>
          match s with
          | EmptyString => ""
          | String a t => String a (deleteAll r total 0 t)
          end
      end
  end.

(** [re.ReplaceAllString(src, "")] *)
Definition ReplaceAllString_empty (r : Regexp) (src : string) : string :=
  deleteAll r (String.length src) 0 src.

(** Character classes of the parser's patterns (RE2's Perl classes are
    ASCII-only; [\p{L}] is restricted to its ASCII letters). *)
Definition between (lo hi : nat) (c : ascii) : bool :=
  let n := nat_of_ascii c in Nat.leb lo n && Nat.leb n hi.
Definition byte (x : string) (c : ascii) : bool :=
  match x with
  | String a EmptyString => Ascii.eqb a c
  | _ => false
  end.
Definition digit : ascii -> bool := between 48 57.
Definition letter (c : ascii) : bool := between 65 90 c || between 97 122 c.
Definition word (c : ascii) : bool := digit c || letter c || byte "_" c.
Definition space (c : ascii) : bool :=
  between 9 10 c || between 12 13 c || byte " " c.
Definition anyCharNotNL (c : ascii) : bool := negb (between 10 10 c).

(** [joinAndQuoteMeta list "|"] as a pattern: the alternation of the
    quoted literals; an empty list gives the empty pattern. *)
Fixpoint alternation (fold : bool) (l : list string) : Regexp :=
  match l with
  | [] => Empty
  | [x] => Lit fold x
  | x :: rest => Alt (Lit fold x) (alternation fold rest)
  end.

End regexp.

Import regexp.

(** ** Outcomes and effects *)

(** A Go [error] value, identified by its message. *)
Definition error := string.

(** Run-time panics the pipeline can raise. *)
Inductive panic : Type :=
| IndexOutOfRange     (* slice bounds or index out of range *)
| NilDereference.     (* invalid memory address or nil pointer dereference *)

Inductive Outcome (A : Type) : Type :=
| Ok (a : A)
| Err (e : error)
| Panic (p : panic).
Arguments Ok {A} a.
Arguments Err {A} e.
Arguments Panic {A} p.

Definition obind {A B} (o : Outcome A) (f : A -> Outcome B) : Outcome B :=
  match o with
  | Ok a => f a
  | Err e => Err e
  | Panic p => Panic p
  end.

(** A value returned together with an [error]. *)
Definition result (A : Type) : Type := A + error.

(** ** Data model *)

(** Modelled from the spec: the records of the missing data-model file
    (section 3 of the specification), with the fields the parser writes. *)
Record Hash := { Hash_Long : string; Hash_Short : string }.
Record Author := { Author_Name : string; Author_Email : string; Author_Date : Z }.
Record Committer :=
  { Committer_Name : string; Committer_Email : string; Committer_Date : Z }.
Record Ref := { Ref_Action : string; Ref_Source : string; Ref_Ref : string }.
Record Note := { Note_Title : string; Note_Body : string }.
Record Contact := { Contact_Name : string; Contact_Email : string }.
Record JiraIssue :=
  { JiraIssue_Type : string; JiraIssue_Summary : string;
    JiraIssue_Description : string; JiraIssue_Labels : list string }.

(** Modelled from the spec: the [Merge] record of the missing data-model
    file, "optional dynamically-bound records populated from independent
    pattern matches against the header"; it holds the bound fields by
    name. *)
Record Merge := { Merge_bound : gmap string string }.

(** Modelled from the spec: the [Revert] record of the missing data-model
    file, as for [Merge]. *)
Record Revert := { Revert_bound : gmap string string }.

(** Modelled from the spec: the [Commit] struct of the missing data-model
    file (section 3 of the specification), with the fields the parser,
    filter and extractor read and write.  Pointer fields that are [nil] in
    the zero value are options. *)
Module Commit.
Inductive t : Type := mk {
  Hash : option Hash;
  Author : option Author;
  Committer : option Committer;
  Merge : option Merge;
  Revert : option Revert;
  Refs : list Ref;
  Notes : list Note;
  Mentions : list string;
  CoAuthors : list Contact;
  Signers : list Contact;
  JiraIssue : option JiraIssue;
  Header : string;
  Type_ : string;
  Scope : string;
  Subject : string;
  JiraIssueID : string;
  Body : string;
  TrimmedBody : string;
  ChangedFiles : list string;
  SubCommits : list t
}.

(** [&Commit{}] *)
Definition zero : t :=
  mk None None None None None [] [] [] [] [] None "" "" "" "" "" "" "" [] [].

Definition with_Hash v c :=
  let 'mk _ a2 a3 a4 a5 a6 a7 a8 a9 a10 a11 a12 a13 a14 a15 a16 a17 a18 a19 a20 := c in
  mk v a2 a3 a4 a5 a6 a7 a8 a9 a10 a11 a12 a13 a14 a15 a16 a17 a18 a19 a20.
Definition with_Author v c :=
  let 'mk a1 _ a3 a4 a5 a6 a7 a8 a9 a10 a11 a12 a13 a14 a15 a16 a17 a18 a19 a20 := c in
  mk a1 v a3 a4 a5 a6 a7 a8 a9 a10 a11 a12 a13 a14 a15 a16 a17 a18 a19 a20.
Definition with_Committer v c :=
  let 'mk a1 a2 _ a4 a5 a6 a7 a8 a9 a10 a11 a12 a13 a14 a15 a16 a17 a18 a19 a20 := c in
  mk a1 a2 v a4 a5 a6 a7 a8 a9 a10 a11 a12 a13 a14 a15 a16 a17 a18 a19 a20.
Definition with_Merge v c :=
  let 'mk a1 a2 a3 _ a5 a6 a7 a8 a9 a10 a11 a12 a13 a14 a15 a16 a17 a18 a19 a20 := c in
  mk a1 a2 a3 v a5 a6 a7 a8 a9 a10 a11 a12 a13 a14 a15 a16 a17 a18 a19 a20.
Definition with_Revert v c :=
  let 'mk a1 a2 a3 a4 _ a6 a7 a8 a9 a10 a11 a12 a13 a14 a15 a16 a17 a18 a19 a20 := c in
  mk a1 a2 a3 a4 v a6 a7 a8 a9 a10 a11 a12 a13 a14 a15 a16 a17 a18 a19 a20.
Definition with_Refs v c :=
  let 'mk a1 a2 a3 a4 a5 _ a7 a8 a9 a10 a11 a12 a13 a14 a15 a16 a17 a18 a19 a20 := c in
  mk a1 a2 a3 a4 a5 v a7 a8 a9 a10 a11 a12 a13 a14 a15 a16 a17 a18 a19 a20.
Definition with_Notes v c :=
  let 'mk a1 a2 a3 a4 a5 a6 _ a8 a9 a10 a11 a12 a13 a14 a15 a16 a17 a18 a19 a20 := c in
  mk a1 a2 a3 a4 a5 a6 v a8 a9 a10 a11 a12 a13 a14 a15 a16 a17 a18 a19 a20.
Definition with_Mentions v c :=
  let 'mk a1 a2 a3 a4 a5 a6 a7 _ a9 a10 a11 a12 a13 a14 a15 a16 a17 a18 a19 a20 := c in
  mk a1 a2 a3 a4 a5 a6 a7 v a9 a10 a11 a12 a13 a14 a15 a16 a17 a18 a19 a20.
Definition with_CoAuthors v c :=
  let 'mk a1 a2 a3 a4 a5 a6 a7 a8 _ a10 a11 a12 a13 a14 a15 a16 a17 a18 a19 a20 := c in
  mk a1 a2 a3 a4 a5 a6 a7 a8 v a10 a11 a12 a13 a14 a15 a16 a17 a18 a19 a20.
Definition with_Signers v c :=
  let 'mk a1 a2 a3 a4 a5 a6 a7 a8 a9 _ a11 a12 a13 a14 a15 a16 a17 a18 a19 a20 := c in
  mk a1 a2 a3 a4 a5 a6 a7 a8 a9 v a11 a12 a13 a14 a15 a16 a17 a18 a19 a20.
Definition with_JiraIssue v c :=
  let 'mk a1 a2 a3 a4 a5 a6 a7 a8 a9 a10 _ a12 a13 a14 a15 a16 a17 a18 a19 a20 := c in
  mk a1 a2 a3 a4 a5 a6 a7 a8 a9 a10 v a12 a13 a14 a15 a16 a17 a18 a19 a20.
Definition with_Header v c :=
  let 'mk a1 a2 a3 a4 a5 a6 a7 a8 a9 a10 a11 _ a13 a14 a15 a16 a17 a18 a19 a20 := c in
  mk a1 a2 a3 a4 a5 a6 a7 a8 a9 a10 a11 v a13 a14 a15 a16 a17 a18 a19 a20.
Definition with_Type v c :=
  let 'mk a1 a2 a3 a4 a5 a6 a7 a8 a9 a10 a11 a12 _ a14 a15 a16 a17 a18 a19 a20 := c in
  mk a1 a2 a3 a4 a5 a6 a7 a8 a9 a10 a11 a12 v a14 a15 a16 a17 a18 a19 a20.
Definition with_Scope v c :=
  let 'mk a1 a2 a3 a4 a5 a6 a7 a8 a9 a10 a11 a12 a13 _ a15 a16 a17 a18 a19 a20 := c in
  mk a1 a2 a3 a4 a5 a6 a7 a8 a9 a10 a11 a12 a13 v a15 a16 a17 a18 a19 a20.
Definition with_Subject v c :=
  let 'mk a1 a2 a3 a4 a5 a6 a7 a8 a9 a10 a11 a12 a13 a14 _ a16 a17 a18 a19 a20 := c in
  mk a1 a2 a3 a4 a5 a6 a7 a8 a9 a10 a11 a12 a13 a14 v a16 a17 a18 a19 a20.
Definition with_JiraIssueID v c :=
  let 'mk a1 a2 a3 a4 a5 a6 a7 a8 a9 a10 a11 a12 a13 a14 a15 _ a17 a18 a19 a20 := c in
  mk a1 a2 a3 a4 a5 a6 a7 a8 a9 a10 a11 a12 a13 a14 a15 v a17 a18 a19 a20.
Definition with_Body v c :=
  let 'mk a1 a2 a3 a4 a5 a6 a7 a8 a9 a10 a11 a12 a13 a14 a15 a16 _ a18 a19 a20 := c in
  mk a1 a2 a3 a4 a5 a6 a7 a8 a9 a10 a11 a12 a13 a14 a15 a16 v a18 a19 a20.
Definition with_TrimmedBody v c :=
  let 'mk a1 a2 a3 a4 a5 a6 a7 a8 a9 a10 a11 a12 a13 a14 a15 a16 a17 _ a19 a20 := c in
  mk a1 a2 a3 a4 a5 a6 a7 a8 a9 a10 a11 a12 a13 a14 a15 a16 a17 v a19 a20.
Definition with_ChangedFiles v c :=
  let 'mk a1 a2 a3 a4 a5 a6 a7 a8 a9 a10 a11 a12 a13 a14 a15 a16 a17 a18 _ a20 := c in
  mk a1 a2 a3 a4 a5 a6 a7 a8 a9 a10 a11 a12 a13 a14 a15 a16 a17 a18 v a20.
Definition with_SubCommits v c :=
  let 'mk a1 a2 a3 a4 a5 a6 a7 a8 a9 a10 a11 a12 a13 a14 a15 a16 a17 a18 a19 _ := c in
  mk a1 a2 a3 a4 a5 a6 a7 a8 a9 a10 a11 a12 a13 a14 a15 a16 a17 a18 a19 v.
End Commit.

(** The issue returned by the Jira client, with the fields the parser
    reads ([Fields.Type.Name], [Fields.Summary], [Fields.Description],
    [Fields.Labels]). *)
Record jira_Issue :=
  { Fields_Type_Name : string; Fields_Summary : string;
    Fields_Description : string; Fields_Labels : list string }.

(** Modelled from the spec: [assignDynamicValues] of the missing utility
    file, "bind capture groups positionally to configured field names (an
    ordered list maps capture index -> field name)".  [SetString] is the
    reflective assignment to the string field of that name; a name that is
    no string field of the target leaves it unchanged, and so does a field
    name without a capture group at its position. *)
Class Dynamic (T : Type) := SetString : string -> string -> T -> T.

Fixpoint assignDynamicValues {T} `{Dynamic T} (target : T)
         (attrs values : list string) : T :=
  match attrs, values with
  | field :: attrs', v :: values' =>
      assignDynamicValues (SetString field v target) attrs' values'
  | _, _ => target
  end.

#[global] Instance Commit_Dynamic : Dynamic Commit.t := fun field v c =>
  if String.eqb field "Header" then Commit.with_Header v c
  else if String.eqb field "Type" then Commit.with_Type v c
  else if String.eqb field "Scope" then Commit.with_Scope v c
  else if String.eqb field "Subject" then Commit.with_Subject v c
  else if String.eqb field "JiraIssueID" then Commit.with_JiraIssueID v c
  else if String.eqb field "Body" then Commit.with_Body v c
  else if String.eqb field "TrimmedBody" then Commit.with_TrimmedBody v c
  else c.

#[global] Instance Merge_Dynamic : Dynamic Merge := fun field v m =>
  {| Merge_bound := <[field := v]> (Merge_bound m) |}.

#[global] Instance Revert_Dynamic : Dynamic Revert := fun field v m =>
  {| Revert_bound := <[field := v]> (Revert_bound m) |}.

(** Modelled from the spec: [convNewline] of the missing utility file,
    "normalize line endings": every ["\r\n"] and every lone ["\r"] becomes
    [nlcode], and so does every ["\n"]. *)
Fixpoint convNewline (str nlcode : string) : string :=
  match str with
  | EmptyString => ""
  | String c rest =>
      if Ascii.eqb c "013"%char then
        match rest with
        | String d rest' =>
            if Ascii.eqb d "010"%char
            then String.append nlcode (convNewline rest' nlcode)
            else String.append nlcode (convNewline rest nlcode)
        | EmptyString => nlcode
        end
      else if Ascii.eqb c "010"%char
      then String.append nlcode (convNewline rest nlcode)
      else String c (convNewline rest nlcode)
  end.

(** [strconv.Atoi]: an optional sign and decimal digits, within the range
    of a 64-bit [int]. *)
Module strconv.
Definition digitVal (c : ascii) : option Z :=
  if regexp.digit c then Some (Z.of_nat (nat_of_ascii c) - 48)%Z else None.

Fixpoint digits (acc : Z) (s : string) : option Z :=
  match s with
  | EmptyString => Some acc
  | String c s' =>
      match digitVal c with
      | Some d => digits (acc * 10 + d)%Z s'
      | None => None
      end
  end.

Definition inInt (z : Z) : bool :=
  ((- 2 ^ 63 <=? z) && (z <=? 2 ^ 63 - 1))%Z.

Definition Atoi (s : string) : option Z :=
  let signed (neg : bool) (body : string) :=
    match body with
    | EmptyString => None
    | _ =>
        match digits 0 body with
        | Some n => let z := if neg then (- n)%Z else n in
                    if inInt z then Some z else None
        | None => None
        end
    end in
  match s with
  | String "+" body => signed false body
  | String "-" body => signed true body
  | _ => signed false s
  end.
End strconv.

(** ** The commit parser *)

Definition separator := "@@__CHGLOG__@@".
Definition delimiter := "@@__CHGLOG_DELIMITER__@@".

Definition hashField := "HASH".
Definition authorField := "AUTHOR".
Definition committerField := "COMMITTER".
Definition subjectField := "SUBJECT".
Definition bodyField := "BODY".

Definition TAB : string := String "009"%char "".
Definition NL : string := String "010"%char "".

Definition hashFormat := hashField +:+ ":%H" +:+ TAB +:+ "%h".
Definition authorFormat := authorField +:+ ":%an" +:+ TAB +:+ "%ae" +:+ TAB +:+ "%at".
Definition committerFormat :=
  committerField +:+ ":%cn" +:+ TAB +:+ "%ce" +:+ TAB +:+ "%ct".
Definition subjectFormat := subjectField +:+ ":%s".
Definition bodyFormat := bodyField +:+ ":%b".

Definition logFormat : string :=
  separator +:+ strings.Join
    [hashFormat; authorFormat; committerFormat; subjectFormat; bodyFormat]
    delimiter.

Section Pipeline.

(** The state of everything outside the pipeline: the repository the git
    client reads, the issue tracker, the log sink. *)
Context {W : Type}.

(** State passing for code that cannot fail, and state passing with an
    outcome for code that can. *)
Definition St (A : Type) : Type := W -> A * W.
Definition M (A : Type) : Type := W -> Outcome A * W.

Definition sret {A} (a : A) : St A := fun w => (a, w).
Definition sbind {A B} (m : St A) (f : A -> St B) : St B :=
  fun w => let (a, w') := m w in f a w'.

Definition ret {A} (a : A) : M A := fun w => (Ok a, w).
Definition bind {A B} (m : M A) (f : A -> M B) : M B :=
  fun w => match m w with
           | (Ok a, w') => f a w'
           | (Err e, w') => (Err e, w')
           | (Panic p, w') => (Panic p, w')
           end.
Definition lift {A} (m : St A) : M A :=
  fun w => let (a, w') := m w in (Ok a, w').
Definition pure {A} (o : Outcome A) : M A := fun w => (o, w).

(** The collaborators, by the one method the pipeline calls on each:
    the git client ([Exec(subcommand, args...)]), the Jira client, the
    logger and the optional post-processor of the configuration. *)
Record gitcmd_Client := { Exec : string -> list string -> W -> result string * W }.
Record JiraClient := { GetJiraIssue : string -> W -> result jira_Issue * W }.
Record Logger := { Logger_Error : string -> W -> W }.
Record Processor := { ProcessCommit : Commit.t -> W -> option Commit.t * W }.

(** Modelled from the spec: the [Options] of the missing configuration
    file, with the fields the pipeline reads (the configuration surface of
    section 6).  A pattern is held compiled. *)
Record Options := {
  Paths : list string;
  Processor_ : option Processor;
  HeaderPattern : Regexp;
  HeaderPatternMaps : list string;
  MergePattern : Regexp;
  MergePatternMaps : list string;
  RevertPattern : Regexp;
  RevertPatternMaps : list string;
  RefActions : list string;
  IssuePrefix : list string;
  NoteKeywords : list string;
  MultilineCommit : bool;
  JiraTypeMaps : gmap string string;
  (** [None] stands for the empty pattern text *)
  JiraIssueDescriptionPattern : option Regexp;
  CommitFilters : gmap string (list string);
  NoCaseSensitive : bool;
  CommitGroupBy : string;
  CommitGroupSortBy : string;
  CommitGroupTitleOrder : list string;
  CommitGroupTitleMaps : gmap string string;
  CommitSortBy : string
}.

Record commitParser := {
  logger : Logger;
  client : gitcmd_Client;
  jiraClient : JiraClient;
  config : Options;
  reHeader : Regexp;
  reMerge : Regexp;
  reRevert : Regexp;
  reRef : Regexp;
  reIssue : Regexp;
  reNotes : Regexp;
  reMention : Regexp;
  reSignOff : Regexp;
  reCoAuthor : Regexp;
  reJiraIssueDescription : Regexp
}.

Definition oneOf (l : string) (c : ascii) : bool :=
  existsb (Ascii.eqb c) (list_ascii_of_string l).

(** "[\w/\.\-]" *)
Definition sourceByte (c : ascii) : bool := regexp.word c || oneOf "/.-" c.
(** "[\w-]" *)
Definition mentionByte (c : ascii) : bool := regexp.word c || oneOf "-" c.
(** "[\p{L}\s\-\[\]]" *)
Definition nameByte (c : ascii) : bool :=
  regexp.letter c || regexp.space c || oneOf "-[]" c.
(** "[\w+\-\[\].@]" *)
Definition emailByte (c : ascii) : bool := regexp.word c || oneOf "+-[].@" c.
(** "[:\s]" *)
Definition noteSepByte (c : ascii) : bool := oneOf ":" c || regexp.space c.

(** The sign-off and co-author patterns,
    "trailer:\s+([\p{L}\s\-\[\]]+)\s+<([\w+\-\[\].@]+)>". *)
Definition trailerPattern (trailer : string) : Regexp :=
  Cat (Lit false trailer)
    (Cat (Plus (Class regexp.space))
      (Cat (Cap 1 (Plus (Class nameByte)))
        (Cat (Plus (Class regexp.space))
          (Cat (Lit false "<")
            (Cat (Cap 2 (Plus (Class emailByte))) (Lit false ">")))))).

Definition newCommitParser (logger : Logger) (client : gitcmd_Client)
           (jiraClient : JiraClient) (config : Options) : commitParser :=
  let opts := config in
  let joinedRefActions := alternation true (RefActions opts) in
  {| logger := logger;
     client := client;
     jiraClient := jiraClient;
     config := config;
     reHeader := HeaderPattern opts;
     reMerge := MergePattern opts;
     reRevert := RevertPattern opts;
     (* "(?i)(" + joinedRefActions + ")\s?([\w/\.\-]+)?(?:" + joinedIssuePrefix + ")(\d+)" *)
     reRef :=
       Cat (Cap 1 joinedRefActions)
         (Cat (Quest (Class regexp.space))
           (Cat (Quest (Cap 2 (Plus (Class sourceByte))))
             (Cat (alternation true (IssuePrefix opts))
                  (Cap 3 (Plus (Class regexp.digit))))));
     (* "(?:" + joinedIssuePrefix + ")(\d+)" *)
     reIssue :=
       Cat (alternation false (IssuePrefix opts))
           (Cap 1 (Plus (Class regexp.digit)));
     (* "^(?i)\s*(" + joinedNoteKeywords + ")[:\s]+" and a last group
        of ".*" *)
     reNotes :=
       Cat BeginText
         (Cat (Star (Class regexp.space))
           (Cat (Cap 1 (alternation true (NoteKeywords opts)))
             (Cat (Plus (Class noteSepByte))
                  (Cap 2 (Star (Class regexp.anyCharNotNL))))));
     (* "@([\w-]+)" *)
     reMention := Cat (Lit false "@") (Cap 1 (Plus (Class mentionByte)));
     reSignOff := trailerPattern "Signed-off-by:";
     reCoAuthor := trailerPattern "Co-authored-by:";
     reJiraIssueDescription :=
       match JiraIssueDescriptionPattern opts with
       | Some r => r
       | None => Empty
       end |}.

(** [r[i]] on a submatch list; in range for every group of the pattern
    (see [FindAllStringSubmatch_length]). *)
Definition sub (r : list string) (i : nat) : string := nth i r "".

Definition parseHash (input : string) : Outcome Hash :=
  let arr := strings.Split input TAB in
  match arr !! 0, arr !! 1 with
  | Some long, Some short => Ok {| Hash_Long := long; Hash_Short := short |}
  | _, _ => Panic IndexOutOfRange
  end.

Definition parseAuthor (input : string) : Outcome Author :=
  let arr := strings.Split input TAB in
  match arr !! 2 with
  | None => Panic IndexOutOfRange
  | Some at_ =>
      let ts := match strconv.Atoi at_ with Some n => n | None => 0%Z end in
      match arr !! 0, arr !! 1 with
      | Some name, Some email =>
          Ok {| Author_Name := name; Author_Email := email; Author_Date := ts |}
      | _, _ => Panic IndexOutOfRange
      end
  end.

Definition parseCommitter (input : string) : Outcome Committer :=
  obind (parseAuthor input) (fun author =>
    Ok {| Committer_Name := Author_Name author;
          Committer_Email := Author_Email author;
          Committer_Date := Author_Date author |}).

Definition parseRefs (p : commitParser) (input : string) : list Ref :=
  (* references *)
  let refs :=
    map (fun r => {| Ref_Action := sub r 1; Ref_Source := sub r 2;
                     Ref_Ref := sub r 3 |})
        (FindAllStringSubmatch (reRef p) input) in
  (* issues *)
  fold_left (fun refs r =>
      let duplicate := existsb (fun ref => String.eqb (Ref_Ref ref) (sub r 1)) refs in
      if negb duplicate
      then refs ++ [{| Ref_Action := ""; Ref_Source := ""; Ref_Ref := sub r 1 |}]
      else refs)
    (FindAllStringSubmatch (reIssue p) input) refs.

Definition parseSigners (p : commitParser) (input : string) : list Contact :=
  map (fun r => {| Contact_Name := sub r 1; Contact_Email := sub r 2 |})
      (FindAllStringSubmatch (reSignOff p) input).

Definition parseCoAuthors (p : commitParser) (input : string) : list Contact :=
  map (fun r => {| Contact_Name := sub r 1; Contact_Email := sub r 2 |})
      (FindAllStringSubmatch (reCoAuthor p) input).

Definition parseMentions (p : commitParser) (input : string) : list string :=
  map (fun r => sub r 1) (FindAllStringSubmatch (reMention p) input).

Definition uniqRefs (refs : list Ref) : list Ref :=
  fold_left (fun arr ref =>
      let exist := existsb (fun r =>
          String.eqb (Ref_Ref ref) (Ref_Ref r)
          && String.eqb (Ref_Action ref) (Ref_Action r)
          && String.eqb (Ref_Source ref) (Ref_Source r)) arr in
      if negb exist then arr ++ [ref] else arr)
    refs [].

Definition uniqMentions (mentions : list string) : list string :=
  fold_left (fun arr mention =>
      let exist := existsb (fun m => String.eqb mention m) arr in
      if negb exist then arr ++ [mention] else arr)
    mentions [].

Definition processJiraIssue (p : commitParser) (commit : Commit.t)
           (issueID : string) : St Commit.t := fun w =>
  match GetJiraIssue (jiraClient p) (Commit.JiraIssueID commit) w with
  | (inr err, w') =>
      (commit,
       Logger_Error (logger p)
         ("Failed to parse Jira story " +:+ issueID +:+ ": " +:+ err +:+ NL) w')
  | (inl issue, w') =>
      let commit :=
        Commit.with_Type
          (default "" (JiraTypeMaps (config p) !! Fields_Type_Name issue)) commit in
      let description :=
        match JiraIssueDescriptionPattern (config p) with
        | Some _ =>
            let res := FindStringSubmatch (reJiraIssueDescription p)
                         (Fields_Description issue) in
            if Nat.ltb 1 (length res) then sub res 1
            else Fields_Description issue
        | None => Fields_Description issue
        end in
      (Commit.with_JiraIssue
         (Some {| JiraIssue_Type := Fields_Type_Name issue;
                  JiraIssue_Summary := Fields_Summary issue;
                  JiraIssue_Description := description;
                  JiraIssue_Labels := Fields_Labels issue |}) commit, w')
  end.

(** [if commit.JiraIssueID != "" { p.processJiraIssue(...) }] *)
Definition enrich (p : commitParser) (commit : Commit.t) : St Commit.t :=
  if String.eqb (Commit.JiraIssueID commit) "" then sret commit
  else processJiraIssue p commit (Commit.JiraIssueID commit).

Definition processHeader (p : commitParser) (commit : Commit.t)
           (input : string) : St Commit.t :=
  let opts := config p in
  (* header (raw) *)
  let commit := Commit.with_Header input commit in
  (* Type, Scope, Subject etc ... *)
  let commit :=
    match FindAllStringSubmatch (reHeader p) input with
    | res0 :: _ => assignDynamicValues commit (HeaderPatternMaps opts) (tail res0)
    | [] => commit
    end in
  (* Merge *)
  let commit :=
    match FindAllStringSubmatch (reMerge p) input with
    | res0 :: _ =>
        Commit.with_Merge
          (Some (assignDynamicValues {| Merge_bound := ∅ |}
                   (MergePatternMaps opts) (tail res0))) commit
    | [] => commit
    end in
  (* Revert *)
  let commit :=
    match FindAllStringSubmatch (reRevert p) input with
    | res0 :: _ =>
        Commit.with_Revert
          (Some (assignDynamicValues {| Revert_bound := ∅ |}
                   (RevertPatternMaps opts) (tail res0))) commit
    | [] => commit
    end in
  (* refs & mentions *)
  let commit := Commit.with_Refs (parseRefs p input) commit in
  let commit := Commit.with_Mentions (parseMentions p input) commit in
  (* Jira *)
  enrich p commit.

Definition extractLineMetadata (p : commitParser) (commit : Commit.t)
           (line : string) : bool * Commit.t :=
  let meta := false in
  let refs := parseRefs p line in
  let '(meta, commit) :=
    if Nat.ltb 0 (length refs)
    then (true, Commit.with_Refs (Commit.Refs commit ++ refs) commit)
    else (meta, commit) in
  let mentions := parseMentions p line in
  let '(meta, commit) :=
    if Nat.ltb 0 (length mentions)
    then (true, Commit.with_Mentions (Commit.Mentions commit ++ mentions) commit)
    else (meta, commit) in
  let coAuthors := parseCoAuthors p line in
  let '(meta, commit) :=
    if Nat.ltb 0 (length coAuthors)
    then (true, Commit.with_CoAuthors (Commit.CoAuthors commit ++ coAuthors) commit)
    else (meta, commit) in
  let signers := parseSigners p line in
  let '(meta, commit) :=
    if Nat.ltb 0 (length signers)
    then (true, Commit.with_Signers (Commit.Signers commit ++ signers) commit)
    else (meta, commit) in
  (meta, commit).

(** *** The fence detector *)

Definition fenceTypes : list string := ["```"; "~~~"; "    "; TAB].

Record mdFenceDetector := { fence : Z }.

Definition newMdFenceDetector : mdFenceDetector := {| fence := -1 |}.

Definition InCodeblock (d : mdFenceDetector) : bool := (-1 <? fence d)%Z.

(** The loop of [Update] from fence type number [i] on. *)
Fixpoint updateFrom (d : mdFenceDetector) (input : string) (i : Z)
         (types : list string) : mdFenceDetector :=
  match types with
  | [] => d
  | s :: rest =>
      if (fence d <? 0)%Z then
        if (strings.Index input s =? 0)%Z then {| fence := i |}
        else updateFrom d input (i + 1) rest
      else
        if (strings.Index input s =? 0)%Z && (i =? fence d)%Z
        then {| fence := -1 |}
        else updateFrom d input (i + 1) rest
  end.

Definition Update (d : mdFenceDetector) (input : string) : mdFenceDetector :=
  updateFrom d input 0 fenceTypes.

(** *** Body processing *)

(** One round of the sub-commit loop of [processBody]. *)
Definition subCommitOf (p : commitParser) (commit : Commit.t) (i : string)
  : St (option Commit.t) :=
  let opts := config p in
  let subCommit := Commit.zero in
  (* Type, Scope, Subject etc ... *)
  match FindAllStringSubmatch (reHeader p) i with
  | [] => sret None
  | res0 :: _ =>
      let subCommit := Commit.with_Header i subCommit in
      let subCommit := Commit.with_Hash (Commit.Hash commit) subCommit in
      let subCommit := Commit.with_Author (Commit.Author commit) subCommit in
      let subCommit := Commit.with_Committer (Commit.Committer commit) subCommit in
      let subCommit :=
        Commit.with_ChangedFiles (Commit.ChangedFiles commit) subCommit in
      let subCommit :=
        assignDynamicValues subCommit (HeaderPatternMaps opts) (tail res0) in
      (* refs & mentions *)
      let refs := parseRefs p i in
      let subCommit :=
        if Nat.ltb 0 (length refs) then Commit.with_Refs refs subCommit
        else subCommit in
      let mentions := parseMentions p i in
      let subCommit :=
        if Nat.ltb 0 (length mentions)
        then Commit.with_Mentions (parseMentions p i) subCommit
        else subCommit in
      (* Jira *)
      sbind (enrich p subCommit) (fun subCommit => sret (Some subCommit))
  end.

Fixpoint subCommitLoop (p : commitParser) (commit : Commit.t)
         (inputs : list string) : St Commit.t :=
  match inputs with
  | [] => sret commit
  | i :: rest =>
      sbind (subCommitOf p commit i) (fun sc =>
        match sc with
        | None => subCommitLoop p commit rest
        | Some subCommit =>
            subCommitLoop p
              (Commit.with_SubCommits (Commit.SubCommits commit ++ [subCommit])
                 commit) rest
        end)
  end.

(** The variables of the line loop of [processBody]. *)
Record bodyState := {
  bs_commit : Commit.t;
  bs_inNote : bool;
  bs_trim : bool;
  bs_fenceDetector : mdFenceDetector;
  bs_trimmedBody : list string
}.

(** [last := commit.Notes[len(commit.Notes)-1]; last.Body = last.Body +
    "
" + line] *)
Definition appendToLastNote (notes : list Note) (line : string)
  : Outcome (list Note) :=
  match last notes with
  | None => Panic IndexOutOfRange
  | Some l =>
      Ok (<[length notes - 1 :=
             {| Note_Title := Note_Title l;
                Note_Body := Note_Body l +:+ NL +:+ line |}]> notes)
  end.

(** One round of the line loop of [processBody]. *)
Definition bodyLine (p : commitParser) (st : bodyState) (line : string)
  : Outcome bodyState :=
  let commit := bs_commit st in
  let inNote := bs_inNote st in
  let trim := if negb inNote then false else bs_trim st in
  let fenceDetector := Update (bs_fenceDetector st) line in
  let '(commit, trim, inNote) :=
    if negb (InCodeblock fenceDetector) then
      let '(meta, commit') := extractLineMetadata p commit line in
      if meta then (commit', true, false) else (commit', trim, inNote)
    else (commit, trim, inNote) in
  let res := FindAllStringSubmatch (reNotes p) line in
  obind
    (if Nat.ltb 0 (length res) then
       Ok (Commit.with_Notes
             (Commit.Notes commit ++
                map (fun r => {| Note_Title := sub r 1; Note_Body := sub r 2 |}) res)
             commit, true, true)
     else if inNote then
       obind (appendToLastNote (Commit.Notes commit) line) (fun notes =>
         Ok (Commit.with_Notes notes commit, trim, inNote))
     else Ok (commit, trim, inNote))
    (fun '(commit, trim, inNote) =>
       Ok {| bs_commit := commit;
             bs_inNote := inNote;
             bs_trim := trim;
             bs_fenceDetector := fenceDetector;
             bs_trimmedBody :=
               if negb trim then bs_trimmedBody st ++ [line]
               else bs_trimmedBody st |}).

Fixpoint bodyLines (p : commitParser) (st : bodyState) (lines : list string)
  : Outcome bodyState :=
  match lines with
  | [] => Ok st
  | line :: rest => obind (bodyLine p st line) (fun st' => bodyLines p st' rest)
  end.

Definition trimSpaceInNotes (commit : Commit.t) : Commit.t :=
  Commit.with_Notes
    (map (fun note => {| Note_Title := Note_Title note;
                         Note_Body := strings.TrimSpace (Note_Body note) |})
         (Commit.Notes commit)) commit.

(** The second half of [processBody]: notes, refs and mentions, and the
    body without them. *)
Definition processBodyLines (p : commitParser) (commit : Commit.t)
           (input : string) : Outcome Commit.t :=
  let commit := Commit.with_Notes [] commit in
  let lines := strings.Split input NL in
  obind (bodyLines p {| bs_commit := commit; bs_inNote := false;
                        bs_trim := false;
                        bs_fenceDetector := newMdFenceDetector;
                        bs_trimmedBody := [] |} lines)
    (fun st =>
       Ok (trimSpaceInNotes
             (Commit.with_TrimmedBody
                (strings.TrimSpace (strings.Join (bs_trimmedBody st) NL))
                (bs_commit st)))).

Definition processBody (p : commitParser) (commit : Commit.t)
           (input : string) : M Commit.t :=
  let input := convNewline input NL in
  (* body *)
  let commit := Commit.with_Body input commit in
  let opts := config p in
  bind (lift
          (if MultilineCommit opts then
             (* additional headers in body *)
             let body := ReplaceAllString_empty (reNotes p) input in
             subCommitLoop p commit (strings.Split body NL)
           else sret commit))
    (fun commit => pure (processBodyLines p commit input)).

(** *** Records *)

(** One round of the token loop of [parseCommit]. *)
Definition parseToken (p : commitParser) (commit : Commit.t) (token : string)
  : M Commit.t :=
  let firstSep := strings.Index token ":" in
  if (firstSep <? 0)%Z then pure (Panic IndexOutOfRange)
  else
    let field := strings.take (Z.to_nat firstSep) token in
    let value :=
      strings.TrimSpace (strings.drop (Z.to_nat (firstSep + 1)) token) in
    if String.eqb field hashField then
      pure (obind (parseHash value) (fun h =>
              Ok (Commit.with_Hash (Some h) commit)))
    else if String.eqb field authorField then
      pure (obind (parseAuthor value) (fun a =>
              Ok (Commit.with_Author (Some a) commit)))
    else if String.eqb field committerField then
      pure (obind (parseCommitter value) (fun c =>
              Ok (Commit.with_Committer (Some c) commit)))
    else if String.eqb field subjectField then
      lift (processHeader p commit value)
    else if String.eqb field bodyField then
      processBody p commit value
    else ret commit.

Fixpoint parseTokens (p : commitParser) (commit : Commit.t)
         (tokens : list string) : M Commit.t :=
  match tokens with
  | [] => ret commit
  | token :: rest =>
      bind (parseToken p commit token) (fun commit => parseTokens p commit rest)
  end.

(** The arguments of the changed-files query of [parseCommit]. *)
Definition diffTreeArgs (hash : Hash) : list string :=
  ["--no-commit-id"; "--name-only"; "-r"; Hash_Short hash].

Definition parseCommit (p : commitParser) (input : string) : M Commit.t :=
  let commit := Commit.zero in
  let tokens := strings.Split input delimiter in
  bind (parseTokens p commit tokens) (fun commit =>
    let commit := Commit.with_Refs (uniqRefs (Commit.Refs commit)) commit in
    let commit :=
      Commit.with_Mentions (uniqMentions (Commit.Mentions commit)) commit in
    match Commit.Hash commit with
    | None => pure (Panic NilDereference)
    | Some hash =>
        let args := ["--no-commit-id"; "--name-only"; "-r"; Hash_Short hash] in
        fun w =>
          match Exec (client p) "diff-tree" args w with
          | (inr err, w') => (Err err, w')
          | (inl out, w') =>
              (Ok (if Nat.ltb 0 (String.length out)
                   then Commit.with_ChangedFiles (strings.Split out NL) commit
                   else commit), w')
          end
    end).

(** The record loop of [Parse]; [commits] is the slice allocated with
    one slot per record, [i] the index of the next record. *)
Fixpoint parseLoop (p : commitParser) (i : nat) (lines : list string)
         (commits : list (option Commit.t)) : M (list (option Commit.t)) :=
  match lines with
  | [] => ret commits
  | line :: rest =>
      bind (parseCommit p line) (fun commit =>
        match Processor_ (config p) with
        | Some processor =>
            bind (lift (ProcessCommit processor commit)) (fun commit =>
              match commit with
              | None => parseLoop p (S i) rest commits
              | Some commit =>
                  parseLoop p (S i) rest (<[i := Some commit]> commits)
              end)
        | None => parseLoop p (S i) rest (<[i := Some commit]> commits)
        end)
  end.

(** The arguments of the log query of [Parse]. *)
Definition logArgs (p : commitParser) (rev : string) : list string :=
  let paths := Paths (config p) in
  let args := [rev; "--no-decorate"; "--pretty=" +:+ logFormat] in
  if Nat.ltb 0 (length paths) then (args ++ ["--"]) ++ paths else args.

Definition Parse (p : commitParser) (rev : string)
  : M (list (option Commit.t)) :=
  let args := logArgs p rev in
  fun w =>
    match Exec (client p) "log" args w with
    | (inr err, w') => (Err err, w')
    | (inl out, w') =>
        match strings.Split out separator with
        | [] => (Panic IndexOutOfRange, w')
        | _ :: lines =>
            parseLoop p 0 lines (replicate (length lines) None) w'
        end
    end.

End Pipeline.

(** ** The commit filter and the commit extractor *)

(** A value behind Go's [interface{}], as the field accessor returns it. *)
Inductive any : Type :=
| any_string (s : string)
| any_int (z : Z)
| any_time (t : Z)
| any_other.

(** Modelled from the spec: [CommitGroup] and [NoteGroup] of the missing
    data-model file. *)
Record CommitGroup := {
  CommitGroup_RawTitle : string;
  CommitGroup_Title : string;
  CommitGroup_Commits : list Commit.t
}.

Record NoteGroup := {
  NoteGroup_Title : string;
  NoteGroup_Notes : list Note
}.

(** What [sort.Slice] promises for a [less] that is a strict weak ordering
    (irreflexive, transitive, with a transitive incomparability). *)
Definition strictWeakOrder {A} (less : A -> A -> bool) : Prop :=
  (forall a, less a a = false)
  /\ (forall a b c, less a b = true -> less b c = true -> less a c = true)
  /\ (forall a b c, less a b = false -> less b a = false ->
                    less b c = false -> less c b = false ->
                    less a c = false /\ less c a = false).

Definition sortedBy {A} (less : A -> A -> bool) (l : list A) : Prop :=
  forall i j a b, i < j -> l !! i = Some a -> l !! j = Some b -> less b a = false.

Section Extractor.

Context {W : Type}.

(** The dynamic field accessor [dotGet] of the missing utility file, on a
    commit and on a commit group, and the comparator [compare]: parameters
    of the filter and of the extractor. *)
Variable dotGetCommit : Commit.t -> string -> option any.
Variable dotGetGroup : CommitGroup -> string -> option any.
Variable compare : any -> string -> any -> result bool.

(** [sort.Slice] and [sort.SliceStable] of Go's library. *)
Variable sort_Slice : forall A : Type, (A -> A -> bool) -> list A -> list A.
Variable sort_SliceStable : forall A : Type, (A -> A -> bool) -> list A -> list A.

(** *** commitFilter *)

(** The first loop: expand squashed entries. *)
Fixpoint expandCommits (commits : list (option Commit.t))
         (expandedCommits : list Commit.t) : Outcome (list Commit.t) :=
  match commits with
  | [] => Ok expandedCommits
  | None :: _ => Panic NilDereference
  | Some commit :: rest =>
      let expandedCommits := expandedCommits ++ [commit] in
      expandCommits rest
        (if Nat.ltb 0 (length (Commit.SubCommits commit))
         then expandedCommits ++ Commit.SubCommits commit
         else expandedCommits)
  end.

(** The loop over the filter map, in the order [kvs] in which the
    run-time system enumerates the map. *)
Fixpoint filterPairs (noCaseSensitive : bool) (commit : Commit.t)
         (kvs : list (string * list string)) (include : bool) : bool :=
  match kvs with
  | [] => include
  | (key, values) :: rest =>
      match dotGetCommit commit key with
      | None => false
      | Some (any_string str) =>
          let str := if noCaseSensitive then strings.ToLower str else str in
          let exist :=
            existsb (fun val =>
                String.eqb str
                  (if noCaseSensitive then strings.ToLower val else val))
              values in
          if negb exist then false
          else filterPairs noCaseSensitive commit rest true
      | Some _ => false
      end
  end.

Definition included (filters : gmap string (list string))
           (noCaseSensitive : bool) (commit : Commit.t) : bool :=
  filterPairs noCaseSensitive commit (map_to_list filters)
    (Nat.eqb (size filters) 0).

Definition commitFilter (commits : list (option Commit.t))
           (filters : gmap string (list string)) (noCaseSensitive : bool)
  : Outcome (list Commit.t) :=
  obind (expandCommits commits []) (fun expandedCommits =>
    Ok (fold_left (fun res commit =>
          if included filters noCaseSensitive commit then res ++ [commit]
          else res) expandedCommits [])).

(** *** commitExtractor *)

Record commitExtractor := { opts : @Options W }.

Definition newCommitExtractor (opts : @Options W) : commitExtractor :=
  {| opts := opts |}.

Definition commitGroupTitle (e : commitExtractor) (commit : Commit.t)
  : string * string :=
  match dotGetCommit commit (CommitGroupBy (opts e)) with
  | Some (any_string v) =>
      (v, match CommitGroupTitleMaps (opts e) !! v with
          | Some t => t
          | None => strings.Title v
          end)
  | _ => ("", "")
  end.

(** The search loop of [processCommitGroups]: the index of the last group
    whose raw title equals [raw]. *)
Fixpoint findGroup (noCaseSensitive : bool) (raw : string)
         (groups : list CommitGroup) (i : nat) (group : option nat)
  : option nat :=
  match groups with
  | [] => group
  | g :: rest =>
      let rawTitleTmp :=
        if noCaseSensitive then strings.ToLower (CommitGroup_RawTitle g)
        else CommitGroup_RawTitle g in
      let rawTmp := if noCaseSensitive then strings.ToLower raw else raw in
      findGroup noCaseSensitive raw rest (S i)
        (if String.eqb rawTitleTmp rawTmp then Some i else group)
  end.

Definition processCommitGroups (e : commitExtractor)
           (groups : list CommitGroup) (commit : Commit.t)
           (noCaseSensitive : bool) : list CommitGroup :=
  let '(raw, ttl) := commitGroupTitle e commit in
  match findGroup noCaseSensitive raw groups 0 None with
  | Some i =>
      alter (fun group =>
               {| CommitGroup_RawTitle := CommitGroup_RawTitle group;
                  CommitGroup_Title := CommitGroup_Title group;
                  CommitGroup_Commits := CommitGroup_Commits group ++ [commit] |})
            i groups
  | None =>
      if negb (String.eqb raw "")
      then groups ++ [{| CommitGroup_RawTitle := raw;
                         CommitGroup_Title := ttl;
                         CommitGroup_Commits := [commit] |}]
      else groups
  end.

Definition appendNoteToNoteGroups (groups : list NoteGroup) (note : Note)
  : list NoteGroup :=
  let exist :=
    existsb (fun g => String.eqb (NoteGroup_Title g) (Note_Title note)) groups in
  let groups :=
    map (fun g =>
           if String.eqb (NoteGroup_Title g) (Note_Title note)
           then {| NoteGroup_Title := NoteGroup_Title g;
                   NoteGroup_Notes := NoteGroup_Notes g ++ [note] |}
           else g) groups in
  if negb exist
  then groups ++ [{| NoteGroup_Title := Note_Title note;
                     NoteGroup_Notes := [note] |}]
  else groups.

Definition processNoteGroups (groups : list NoteGroup) (commit : Commit.t)
  : list NoteGroup :=
  fold_left appendNoteToNoteGroups (Commit.Notes commit) groups.

(** The map [order] of [sortCommitGroups]: title to position, a later
    position replacing an earlier one of the same title. *)
Fixpoint buildOrder (i : Z) (titles : list string) (order : gmap string Z)
  : gmap string Z :=
  match titles with
  | [] => order
  | t :: rest => buildOrder (i + 1) rest (<[t := i]> order)
  end.

Definition orderOf (e : commitExtractor) : gmap string Z :=
  if String.eqb (CommitGroupSortBy (opts e)) "Custom"
  then buildOrder 0 (CommitGroupTitleOrder (opts e)) ∅
  else ∅.

(** [order[title]], zero for a missing key. *)
Definition orderIndex (order : gmap string Z) (title : string) : Z :=
  default 0%Z (order !! title).

(** The comparison by a field path shared by the group sort and the
    commit sort. *)
Definition lessBy {A} (get : A -> string -> option any) (path : string)
           (x y : A) : bool :=
  match get x path with
  | None => false
  | Some a =>
      match get y path with
      | None => false
      | Some b =>
          match compare a "<" b with
          | inl res => res
          | inr _ => false
          end
      end
  end.

Definition lessGroup (e : commitExtractor) (gi gj : CommitGroup) : bool :=
  if String.eqb (CommitGroupSortBy (opts e)) "Custom"
  then (orderIndex (orderOf e) (CommitGroup_RawTitle gi)
        <? orderIndex (orderOf e) (CommitGroup_RawTitle gj))%Z
  else lessBy dotGetGroup (CommitGroupSortBy (opts e)) gi gj.

Definition sortCommitGroups (e : commitExtractor) (groups : list CommitGroup)
  : list CommitGroup :=
  (* groups *)
  let groups := sort_Slice _ (lessGroup e) groups in
  (* commits *)
  map (fun group =>
         {| CommitGroup_RawTitle := CommitGroup_RawTitle group;
            CommitGroup_Title := CommitGroup_Title group;
            CommitGroup_Commits :=
              sort_SliceStable _ (lessBy dotGetCommit (CommitSortBy (opts e)))
                (CommitGroup_Commits group) |})
      groups.

Definition sortNoteGroups (groups : list NoteGroup) : list NoteGroup :=
  (* groups *)
  let groups :=
    sort_Slice _ (fun gi gj =>
        String.ltb (strings.ToLower (NoteGroup_Title gi))
                   (strings.ToLower (NoteGroup_Title gj))) groups in
  (* notes *)
  map (fun group =>
         {| NoteGroup_Title := NoteGroup_Title group;
            NoteGroup_Notes :=
              sort_Slice _ (fun ni nj =>
                  String.ltb (strings.ToLower (Note_Title ni))
                             (strings.ToLower (Note_Title nj)))
                (NoteGroup_Notes group) |})
      groups.

(** The bucketing loop of [Extract] over the unfiltered input. *)
Fixpoint bucket (commits : list (option Commit.t))
         (mergeCommits revertCommits : list Commit.t)
  : Outcome (list Commit.t * list Commit.t) :=
  match commits with
  | [] => Ok (mergeCommits, revertCommits)
  | None :: _ => Panic NilDereference
  | Some commit :: rest =>
      match Commit.Merge commit with
      | Some _ => bucket rest (mergeCommits ++ [commit]) revertCommits
      | None =>
          match Commit.Revert commit with
          | Some _ => bucket rest mergeCommits (revertCommits ++ [commit])
          | None => bucket rest mergeCommits revertCommits
          end
      end
  end.

(** The grouping loop of [Extract] over the filtered commits. *)
Definition groupStep (e : commitExtractor)
           (acc : list CommitGroup * list NoteGroup) (commit : Commit.t)
  : list CommitGroup * list NoteGroup :=
  let '(commitGroups, noteGroups) := acc in
  let commitGroups :=
    match Commit.Merge commit, Commit.Revert commit with
    | None, None =>
        processCommitGroups e commitGroups commit (NoCaseSensitive (opts e))
    | _, _ => commitGroups
    end in
  (commitGroups, processNoteGroups noteGroups commit).

Definition Extract (e : commitExtractor) (commits : list (option Commit.t))
  : Outcome (list CommitGroup * list Commit.t * list Commit.t * list NoteGroup) :=
  obind (commitFilter commits (CommitFilters (opts e)) (NoCaseSensitive (opts e)))
    (fun filteredCommits =>
  obind (bucket commits [] [])
    (fun '(mergeCommits, revertCommits) =>
       let '(commitGroups, noteGroups) :=
         fold_left (groupStep e) filteredCommits ([], []) in
       Ok (sortCommitGroups e commitGroups, mergeCommits, revertCommits,
           sortNoteGroups noteGroups))).

End Extractor.

(** ** Models of the missing accessor and comparator, and a sample setup *)

(** Modelled from the spec: [dotGet] of the missing utility file on a
    commit, "splits path on . and walks nested fields/maps by name,
    case-sensitive; returns the resolved value and a found/not-found flag.
    Fails (not-found) on absent fields, nil intermediates, or unsupported
    types". *)
Definition dotGetCommitModel (commit : Commit.t) (path : string) : option any :=
  match strings.Split path "." with
  | [field] =>
      if String.eqb field "Header" then Some (any_string (Commit.Header commit))
      else if String.eqb field "Type" then Some (any_string (Commit.Type_ commit))
      else if String.eqb field "Scope" then Some (any_string (Commit.Scope commit))
      else if String.eqb field "Subject" then Some (any_string (Commit.Subject commit))
      else if String.eqb field "JiraIssueID"
      then Some (any_string (Commit.JiraIssueID commit))
      else if String.eqb field "Body" then Some (any_string (Commit.Body commit))
      else if String.eqb field "TrimmedBody"
      then Some (any_string (Commit.TrimmedBody commit))
      else if existsb (String.eqb field)
                ["Hash"; "Author"; "Committer"; "Merge"; "Revert"; "Refs"; "Notes";
                 "Mentions"; "CoAuthors"; "Signers"; "JiraIssue"; "ChangedFiles";
                 "SubCommits"]
      then Some any_other
      else None
  | [outer; inner] =>
      if String.eqb outer "Hash" then
        h ← Commit.Hash commit;
        if String.eqb inner "Long" then Some (any_string (Hash_Long h))
        else if String.eqb inner "Short" then Some (any_string (Hash_Short h))
        else None
      else if String.eqb outer "Author" then
        a ← Commit.Author commit;
        if String.eqb inner "Name" then Some (any_string (Author_Name a))
        else if String.eqb inner "Email" then Some (any_string (Author_Email a))
        else if String.eqb inner "Date" then Some (any_time (Author_Date a))
        else None
      else if String.eqb outer "Committer" then
        a ← Commit.Committer commit;
        if String.eqb inner "Name" then Some (any_string (Committer_Name a))
        else if String.eqb inner "Email" then Some (any_string (Committer_Email a))
        else if String.eqb inner "Date" then Some (any_time (Committer_Date a))
        else None
      else None
  | _ => None
  end.

(** Modelled from the spec: [dotGet] of the missing utility file on a
    commit group. *)
Definition dotGetGroupModel (group : CommitGroup) (path : string) : option any :=
  if String.eqb path "RawTitle" then Some (any_string (CommitGroup_RawTitle group))
  else if String.eqb path "Title" then Some (any_string (CommitGroup_Title group))
  else if String.eqb path "Commits" then Some any_other
  else None.

(** Modelled from the spec: [compare] of the missing utility file,
    "supports < over values of matching comparable kinds (strings
    lexicographically, numbers numerically, times chronologically); fails
    with a type-mismatch error if kinds differ or are unsupported". *)
Definition compareModel (a : any) (operator : string) (b : any) : result bool :=
  if String.eqb operator "<" then
    match a, b with
    | any_string x, any_string y => inl (String.ltb x y)
    | any_int x, any_int y => inl (x <? y)%Z
    | any_time x, any_time y => inl (x <? y)%Z
    | _, _ => inr "type mismatch"
    end
  else inr "unsupported operator".

(** A sort that meets what [sort.Slice] and [sort.SliceStable] promise:
    merge sort by "not greater". *)
Definition sortModel (A : Type) (less : A -> A -> bool) (l : list A) : list A :=
  merge_sort (fun x y => Is_true (negb (less y x))) l.

Module Sample.

(** The world of the samples: the lines written to the log. *)
Definition World : Type := list string.

(** The header pattern: "^", a group of "\w*", "\:\s", a group of ".*"
    and "$". *)
Definition headerPattern : Regexp :=
  Cat BeginText
    (Cat (Cap 1 (Star (Class regexp.word)))
      (Cat (Lit false ":")
        (Cat (Class regexp.space)
          (Cat (Cap 2 (Star (Class regexp.anyCharNotNL))) EndText)))).

(** The pattern "^Merge " with a group of ".*" up to "$". *)
Definition mergePattern : Regexp :=
  Cat BeginText
    (Cat (Lit false "Merge ") (Cat (Cap 1 (Star (Class regexp.anyCharNotNL))) EndText)).

(** The pattern "^Revert " with a group of ".*" up to "$". *)
Definition revertPattern : Regexp :=
  Cat BeginText
    (Cat (Lit false "Revert ") (Cat (Cap 1 (Star (Class regexp.anyCharNotNL))) EndText)).

Definition options (multiline : bool) (processor : option (@Processor World))
           (filters : gmap string (list string)) : @Options World :=
  {| Paths := [];
     Processor_ := processor;
     HeaderPattern := headerPattern;
     HeaderPatternMaps := ["Type"; "Subject"];
     MergePattern := mergePattern;
     MergePatternMaps := ["Source"];
     RevertPattern := revertPattern;
     RevertPatternMaps := ["Header"];
     RefActions := ["Closes"; "Fixes"];
     IssuePrefix := ["#"];
     NoteKeywords := ["BREAKING CHANGE"];
     MultilineCommit := multiline;
     JiraTypeMaps := ∅;
     JiraIssueDescriptionPattern := None;
     CommitFilters := filters;
     NoCaseSensitive := false;
     CommitGroupBy := "Type";
     CommitGroupSortBy := "Custom";
     CommitGroupTitleOrder := ["fix"; "feat"];
     CommitGroupTitleMaps := ∅;
     CommitSortBy := "Scope" |}.

(** The fields of one record of the log output, as the log format lays
    them out. *)
Definition fields (hash subject body : string) : string :=
  "HASH:" +:+ hash +:+ hash +:+ TAB +:+ hash +:+ delimiter
  +:+ "AUTHOR:dev" +:+ TAB +:+ "dev@example.com" +:+ TAB +:+ "1700000000" +:+ delimiter
  +:+ "COMMITTER:dev" +:+ TAB +:+ "dev@example.com" +:+ TAB +:+ "1700000000"
  +:+ delimiter
  +:+ "SUBJECT:" +:+ subject +:+ delimiter
  +:+ "BODY:" +:+ body +:+ NL.

(** One record of the log output. *)
Definition record (hash subject body : string) : string :=
  separator +:+ fields hash subject body.

(** A git client answering the log query with [log] and every changed-files
    query with two paths. *)
Definition gitClient (log : string) : @gitcmd_Client World :=
  {| Exec := fun cmd args w =>
       if String.eqb cmd "log" then (inl log, w)
       else (inl ("a.go" +:+ NL +:+ "b.go"), w) |}.

(** A git client whose changed-files query fails for the short hash
    [bad]. *)
Definition failingDiffClient (log bad : string) : @gitcmd_Client World :=
  {| Exec := fun cmd args w =>
       if String.eqb cmd "log" then (inl log, w)
       else if String.eqb (List.last args "") bad then (inr "diff-tree failed", w)
       else (inl "a.go", w) |}.

(** An issue tracker that is down. *)
Definition jiraDown : @JiraClient World :=
  {| GetJiraIssue := fun id w => (inr "jira unreachable", w) |}.

Definition logSink : @Logger World :=
  {| Logger_Error := fun msg w => w ++ [msg] |}.

(** A post-processor that drops the commits of type chore. *)
Definition dropChores : @Processor World :=
  {| ProcessCommit := fun commit w =>
       (if String.eqb (Commit.Type_ commit) "chore" then None else Some commit, w) |}.

Definition parser (multiline : bool) (processor : option (@Processor World))
           (log : string) : @commitParser World :=
  newCommitParser logSink (gitClient log) jiraDown (options multiline processor ∅).

Definition group (raw : string) (commits : list Commit.t) : CommitGroup :=
  {| CommitGroup_RawTitle := raw;
     CommitGroup_Title := strings.Title raw;
     CommitGroup_Commits := commits |}.

Definition commitOfType (type : string) : Commit.t :=
  Commit.with_Type type Commit.zero.

(** Two filter maps, the second with one more predicate pair. *)
Definition typeFilter : gmap string (list string) :=
  {[ "Type" := ["feat"; "fix"] ]}.
Definition typeSubjectFilter : gmap string (list string) :=
  <[ "Subject" := ["x"] ]> typeFilter.

Definition extractor : @commitExtractor World :=
  newCommitExtractor (options false None ∅).

(** A commit of a type with one note. *)
Definition notedCommit (type title : string) : Commit.t :=
  Commit.with_Notes [{| Note_Title := title; Note_Body := "text" |}]
    (commitOfType type).

Definition history : list Commit.t :=
  [notedCommit "feat" "BREAKING CHANGE"; commitOfType "fix";
   notedCommit "feat" "Deprecated"].


End Sample.

(** ** Reference definitions for the statements *)


(** A field block of a record is well formed: it has a colon, and the
    value of a HASH block, with the white space around it trimmed as
    [parseCommit] trims it, has two tab-separated components, that of an
    AUTHOR or COMMITTER block three. *)
Definition tokenWellFormed (token : string) : bool :=
  let firstSep := strings.Index token ":" in
  let field := strings.take (Z.to_nat firstSep) token in
  let value := strings.TrimSpace (strings.drop (Z.to_nat (firstSep + 1)) token) in
  (0 <=? firstSep)%Z
  && (if String.eqb field hashField
      then Nat.leb 2 (length (strings.Split value TAB))
      else if String.eqb field authorField || String.eqb field committerField
      then Nat.leb 3 (length (strings.Split value TAB))
      else true).

Definition recordWellFormed (input : string) : bool :=
  forallb tokenWellFormed (strings.Split input delimiter).




(** The expansion the filter starts with, as the specification words it:
    every commit, immediately followed by its sub-commits. *)
Definition expand (commits : list Commit.t) : list Commit.t :=
  flat_map (fun commit => commit :: Commit.SubCommits commit) commits.

(** Case normalization of the filter, applied to both sides. *)
Definition normalize (noCaseSensitive : bool) (s : string) : string :=
  if noCaseSensitive then strings.ToLower s else s.

(** A predicate pair of the filter is satisfied by a commit: the path
    resolves to a string equal, after normalization, to an allowed value. *)
Definition satisfies (dotGetCommit : Commit.t -> string -> option any)
           (noCaseSensitive : bool) (commit : Commit.t)
           (path : string) (allowedValues : list string) : Prop :=
  exists str, dotGetCommit commit path = Some (any_string str)
    /\ exists val, val ∈ allowedValues
         /\ normalize noCaseSensitive str = normalize noCaseSensitive val.

Definition hasMerge (commit : Commit.t) : bool :=
  match Commit.Merge commit with Some _ => true | None => false end.

Definition hasRevert (commit : Commit.t) : bool :=
  match Commit.Revert commit with Some _ => true | None => false end.


(** Equality of references as [uniqRefs] tests it. *)
Definition sameRef (ref r : Ref) : bool :=
  String.eqb (Ref_Ref ref) (Ref_Ref r)
  && String.eqb (Ref_Action ref) (Ref_Action r)
  && String.eqb (Ref_Source ref) (Ref_Source r).


(** A bare issue reference. *)
Definition bareRef (n : string) : Ref :=
  {| Ref_Action := ""; Ref_Source := ""; Ref_Ref := n |}.


(** The body of the scenario of the specification: a reference line, a
    note line and a continuation line. *)
Definition scenarioBody : string :=
  "Fixes #42" +:+ NL +:+ "BREAKING CHANGE: old API removed" +:+ NL +:+ "more detail".


(** The metadata lists of a commit that the line loop extracts into. *)
Definition metadataOf (commit : Commit.t)
  : list Ref * list string * list Contact * list Contact :=
  (Commit.Refs commit, Commit.Mentions commit, Commit.CoAuthors commit,
   Commit.Signers commit).

(** An open note has a note to continue. *)
Definition noteOpenOk (st : bodyState) : Prop :=
  bs_inNote st = true -> Commit.Notes (bs_commit st) ≠ [].

(** What a sub-commit takes from its parent and from its own line. *)
Definition carried (commit : Commit.t)
  : option Hash * option Author * option Committer * list string
    * list Ref * list string :=
  (Commit.Hash commit, Commit.Author commit, Commit.Committer commit,
   Commit.ChangedFiles commit, Commit.Refs commit, Commit.Mentions commit).

(** The part of a commit that only the sub-commit loop and the
    changed-files query write. *)
Definition frame (commit : Commit.t) : list string * list Commit.t :=
  (Commit.ChangedFiles commit, Commit.SubCommits commit).

(** While the fields of a record are parsed, neither the commit nor any of
    its sub-commits has changed files. *)
Definition noChangedFiles (commit : Commit.t) : Prop :=
  Commit.ChangedFiles commit = []
  /\ Forall (fun sub => Commit.ChangedFiles sub = []) (Commit.SubCommits commit).

(** The loop shared by [uniqRefs] and [uniqMentions], from the slice [arr]
    collected so far. *)
Definition uniqLoop {A} (same : A -> A -> bool) (arr l : list A) : list A :=
  fold_left (fun arr x => if negb (existsb (same x) arr) then arr ++ [x] else arr)
            l arr.

(** The notes of a list that carry the title [title]. *)
Definition notesOf (title : string) (notes : list Note) : list Note :=
  List.filter (fun n => String.eqb (Note_Title n) title) notes.

(** What the note groups are after the notes [notes] have been appended
    one by one: one group per title, holding the notes of that title in
    the order given. *)
Definition notesInv (notes : list Note) (groups : list NoteGroup) : Prop :=
  NoDup (NoteGroup_Title <$> groups)
  /\ Forall (fun g => NoteGroup_Notes g = notesOf (NoteGroup_Title g) notes
                      /\ NoteGroup_Notes g ≠ []) groups
  /\ Forall (fun n => Note_Title n ∈ NoteGroup_Title <$> groups) notes.

(** The comparison of [sortNoteGroups], on titles. *)
Definition lowerTitleLess (a b : string) : bool :=
  String.ltb (strings.ToLower a) (strings.ToLower b).

(** The raw group title of a commit, as the group search compares it. *)
Definition groupKey {W} (dotGetCommit : Commit.t -> string -> option any)
           (e : @commitExtractor W) (commit : Commit.t) : string :=
  normalize (NoCaseSensitive (opts e)) (fst (commitGroupTitle dotGetCommit e commit)).

(** A commit that the grouping loop puts in a group: no merge, no revert,
    a non-empty raw group title. *)
Definition grouped {W} (dotGetCommit : Commit.t -> string -> option any)
           (e : @commitExtractor W) (commit : Commit.t) : bool :=
  negb (hasMerge commit) && negb (hasRevert commit)
  && negb (String.eqb (fst (commitGroupTitle dotGetCommit e commit)) "").

(** The commits of a list that belong to the group of raw title [raw]. *)
Definition membersOf {W} (dotGetCommit : Commit.t -> string -> option any)
           (e : @commitExtractor W) (raw : string) (commits : list Commit.t)
  : list Commit.t :=
  List.filter (fun c =>
      grouped dotGetCommit e c
      && String.eqb (groupKey dotGetCommit e c)
                    (normalize (NoCaseSensitive (opts e)) raw))
    commits.

(** The raw title of a group, as the group search compares it. *)
Definition titleKey {W} (e : @commitExtractor W) (g : CommitGroup) : string :=
  normalize (NoCaseSensitive (opts e)) (CommitGroup_RawTitle g).

(** What the commit groups are after the commits [commits] have gone
    through the grouping loop. *)
Definition groupsInv {W} (dotGetCommit : Commit.t -> string -> option any)
           (e : @commitExtractor W) (commits : list Commit.t)
           (groups : list CommitGroup) : Prop :=
  NoDup (titleKey e <$> groups)
  /\ Forall (fun g =>
        CommitGroup_RawTitle g ≠ ""
        /\ CommitGroup_Commits g
           = membersOf dotGetCommit e (CommitGroup_RawTitle g) commits
        /\ exists first rest,
             CommitGroup_Commits g = first :: rest
             /\ commitGroupTitle dotGetCommit e first
                = (CommitGroup_RawTitle g, CommitGroup_Title g)) groups
  /\ Forall (fun c => grouped dotGetCommit e c = true ->
                      groupKey dotGetCommit e c ∈ titleKey e <$> groups) commits.

(** The part of a commit that [processBody] leaves as it is. *)
Definition outsideBody (commit : Commit.t) :=
  (Commit.Hash commit, Commit.Author commit, Commit.Committer commit,
   Commit.Merge commit, Commit.Revert commit, Commit.JiraIssue commit,
   Commit.Header commit, Commit.Type_ commit, Commit.Scope commit,
   Commit.Subject commit, Commit.JiraIssueID commit, Commit.ChangedFiles commit).

(** From [c] to [c'] the line loop of [processBody] has only added to the
    metadata lists, at their end, and written notes and trimmed body. *)
Definition grows (c c' : Commit.t) : Prop :=
  outsideBody c' = outsideBody c
  /\ Commit.Body c' = Commit.Body c
  /\ Commit.SubCommits c' = Commit.SubCommits c
  /\ Commit.Refs c `prefix_of` Commit.Refs c'
  /\ Commit.Mentions c `prefix_of` Commit.Mentions c'
  /\ Commit.CoAuthors c `prefix_of` Commit.CoAuthors c'
  /\ Commit.Signers c `prefix_of` Commit.Signers c'.

(** A field block of a record whose field name is HASH. *)
Definition isHashBlock (token : string) : bool :=
  String.eqb (strings.take (Z.to_nat (strings.Index token ":")) token) hashField.

Definition hasHash (commit : Commit.t) : bool :=
  match Commit.Hash commit with Some _ => true | None => false end.

(** What [Parse] stores for a record: the commit parsed from it, or what
    the post-processor makes of that commit. *)
Definition entryOf {W} (p : @commitParser W) (line : string)
           (entry : option Commit.t) : Prop :=
  exists commit w1 w2,
    parseCommit p line w1 = (Ok commit, w2)
    /\ match Processor_ (config p) with
       | None => entry = Some commit
       | Some processor => exists w3, ProcessCommit processor commit w2 = (entry, w3)
       end.

(** What a sub-commit never has: sub-commits of its own, notes, a merge,
    a revert, co-authors, signers. *)
Definition flat (sub : Commit.t) : Prop :=
  Commit.SubCommits sub = [] /\ Commit.Notes sub = []
  /\ Commit.Merge sub = None /\ Commit.Revert sub = None
  /\ Commit.CoAuthors sub = [] /\ Commit.Signers sub = [].

Definition shape (commit : Commit.t) :=
  (Commit.SubCommits commit, Commit.Notes commit, Commit.Merge commit,
   Commit.Revert commit, Commit.CoAuthors commit, Commit.Signers commit).

(** The note keywords matched on the lines of a body, line by line. *)
Definition noteTitles {W} (p : @commitParser W) (lines : list string) : list string :=
  flat_map (fun line => (fun r => sub r 1) <$> FindAllStringSubmatch (reNotes p) line)
           lines.

(** The fields of a commit that are no strings: what the positional
    binding of capture groups cannot write. *)
Definition nonStrings (commit : Commit.t) :=
  (Commit.Hash commit, Commit.Author commit, Commit.Committer commit,
   Commit.Merge commit, Commit.Revert commit, Commit.Refs commit,
   Commit.Notes commit, Commit.Mentions commit, Commit.CoAuthors commit,
   Commit.Signers commit, Commit.JiraIssue commit, Commit.ChangedFiles commit,
   Commit.SubCommits commit).

(** The part of a commit that [processHeader] leaves as it is. *)
Definition outsideHeader (commit : Commit.t) :=
  (Commit.Hash commit, Commit.Author commit, Commit.Committer commit,
   Commit.Notes commit, Commit.CoAuthors commit, Commit.Signers commit,
   Commit.ChangedFiles commit, Commit.SubCommits commit).

(** ** The commit filter *)

Section FilterProperties.

Variable dotGetCommit : Commit.t -> string -> option any.

Lemma expandCommits_Some (commits : list Commit.t) (acc : list Commit.t) :
  expandCommits (Some <$> commits) acc = Ok (acc ++ expand commits).
Proof.
  revert acc. induction commits as [|c cs IH]; intros acc; simpl.
  - by rewrite app_nil_r.
  - destruct (Nat.ltb 0 (length (Commit.SubCommits c))) eqn:E.
    + rewrite IH. by rewrite <- !app_assoc.
    + apply Nat.ltb_ge in E.
      assert (Commit.SubCommits c = []) as ->
          by (destruct (Commit.SubCommits c); [done | simpl in E; lia]).
      rewrite IH. simpl. by rewrite <- app_assoc.
Qed.

Lemma expandCommits_nil_entry (pre : list Commit.t) post acc :
  expandCommits ((Some <$> pre) ++ None :: post) acc = Panic NilDereference.
Proof.
  revert acc. induction pre as [|c cs IH]; intros acc; simpl; [done|].
  destruct (Nat.ltb 0 (length (Commit.SubCommits c))); apply IH.
Qed.

Lemma fold_left_keep {A} (f : A -> bool) (l acc : list A) :
  fold_left (fun res x => if f x then res ++ [x] else res) l acc
  = acc ++ List.filter f l.
Proof.
  revert acc. induction l as [|x l IH]; intros acc; simpl.
  - by rewrite app_nil_r.
  - destruct (f x); rewrite IH; [by rewrite <- app_assoc | done].
Qed.

Lemma existsb_allowed noCase (str : string) (values : list string) :
  existsb (fun val => String.eqb (normalize noCase str) (normalize noCase val)) values
  = true
  <-> exists val, val ∈ values /\ normalize noCase str = normalize noCase val.
Proof.
  rewrite existsb_exists. split.
  - intros (v & Hin & Heq). exists v. split; [by apply list_elem_of_In|].
    by apply String.eqb_eq.
  - intros (v & Hin & Heq). exists v. split; [by apply list_elem_of_In|].
    by apply String.eqb_eq.
Qed.

Lemma filterPairs_true noCase commit kvs include :
  filterPairs dotGetCommit noCase commit kvs include = true
  <-> Forall (fun kv => satisfies dotGetCommit noCase commit kv.1 kv.2) kvs
      /\ (kvs = [] -> include = true).
Proof.
  revert include. induction kvs as [|[key values] rest IH]; intros include; simpl.
  - split; [intros ->; by split | intros [_ H]; by apply H].
  - destruct (dotGetCommit commit key) as [[str| | |]|] eqn:Hget;
      try (split; [done | intros [H _]; inversion H as [|? ? (s & Hs & _) _];
                          simpl in Hs; congruence]).
    fold (normalize noCase str).
    destruct (existsb _ values) eqn:Hex; simpl.
    + rewrite IH. split.
      * intros [Hall _]. split; [|done]. constructor; [|done].
        exists str. split; [done|]. by apply existsb_allowed.
      * intros [Hall _]. inversion Hall; subst. by split.
    + split; [done|]. intros [Hall _]. inversion Hall as [|? ? (s & Hs & Hv) _].
      simpl in Hs. rewrite Hget in Hs. injection Hs as <-.
      apply existsb_allowed in Hv. unfold normalize in Hv, Hex.
      simpl in Hv. congruence.
Qed.

Lemma size_zero_nil (filters : gmap string (list string)) :
  map_to_list filters = [] -> Nat.eqb (size filters) 0 = true.
Proof.
  intros H. apply map_to_list_empty_iff in H. subst.
  by rewrite map_size_empty.
Qed.

Lemma included_true filters noCase commit :
  included dotGetCommit filters noCase commit = true
  <-> map_Forall (satisfies dotGetCommit noCase commit) filters.
Proof.
  unfold included. rewrite filterPairs_true, map_Forall_to_list.
  assert (Forall (fun kv => satisfies dotGetCommit noCase commit kv.1 kv.2)
            (map_to_list filters)
          <-> Forall (uncurry (satisfies dotGetCommit noCase commit))
                (map_to_list filters)) as Hiff.
  { apply Forall_proper; [|done]. by intros [k v]. }
  rewrite <- Hiff. split; [by intros [H _]|].
  intros H. split; [done | apply size_zero_nil].
Qed.

Lemma filterPairs_order filters noCase commit kvs :
  kvs ≡ₚ map_to_list filters ->
  filterPairs dotGetCommit noCase commit kvs (Nat.eqb (size filters) 0)
  = included dotGetCommit filters noCase commit.
Proof.
  intros Hperm. unfold included.
  apply eq_true_iff_eq. rewrite !filterPairs_true.
  split; intros [H1 H2]; (split; [|intros Hnil]).
  - by rewrite <- Hperm.
  - by apply size_zero_nil.
  - by rewrite Hperm.
  - subst kvs. apply Permutation_nil in Hperm. by apply size_zero_nil.
Qed.

Lemma commitFilter_Some (commits : list Commit.t)
      (filters : gmap string (list string)) (noCaseSensitive : bool) :
  commitFilter dotGetCommit (Some <$> commits) filters noCaseSensitive
  = Ok (List.filter (included dotGetCommit filters noCaseSensitive) (expand commits)).
Proof.
  unfold commitFilter. rewrite expandCommits_Some. simpl.
  by rewrite fold_left_keep.
Qed.

(** A nil entry in the input makes the filter panic. *)
Lemma commitFilter_nil_entry (pre : list Commit.t) (post : list (option Commit.t))
      (filters : gmap string (list string)) (noCaseSensitive : bool) :
  commitFilter dotGetCommit ((Some <$> pre) ++ None :: post) filters noCaseSensitive
  = Panic NilDereference.
Proof. unfold commitFilter. by rewrite expandCommits_nil_entry. Qed.

(** C3. The filter expands every commit into itself followed by its
    sub-commits, keeps an expanded commit exactly when every predicate pair
    of the map is satisfied (a string value equal, after the optional case
    normalization of both sides, to one of the allowed values), whatever
    the order in which the map is enumerated, keeps every expanded commit
    under the empty map, and preserves the relative order.  The input is
    any sequence of commits, passed by pointer ([Some]). *)
Theorem commitFilter_spec (commits : list Commit.t)
        (filters : gmap string (list string)) (noCaseSensitive : bool) :
  commitFilter dotGetCommit (Some <$> commits) filters noCaseSensitive
  = Ok (List.filter (included dotGetCommit filters noCaseSensitive) (expand commits))
  /\ (forall commit,
        included dotGetCommit filters noCaseSensitive commit = true
        <-> map_Forall (satisfies dotGetCommit noCaseSensitive commit) filters)
  /\ (forall commit kvs,
        kvs ≡ₚ map_to_list filters ->
        filterPairs dotGetCommit noCaseSensitive commit kvs (Nat.eqb (size filters) 0)
        = included dotGetCommit filters noCaseSensitive commit)
  /\ commitFilter dotGetCommit (Some <$> commits) ∅ noCaseSensitive
     = Ok (expand commits)
  /\ sublist (List.filter (included dotGetCommit filters noCaseSensitive)
                (expand commits)) (expand commits).
Proof.
  split; [apply commitFilter_Some|]. split; [apply included_true|].
  split; [intros; by apply filterPairs_order|]. split.
  - rewrite commitFilter_Some. f_equal.
    induction (expand commits) as [|c l IH]; [done|]. simpl. rewrite IH.
    by rewrite (proj2 (included_true ∅ noCaseSensitive c) (map_Forall_empty _)).
  - induction (expand commits) as [|c l IH]; simpl; [constructor|].
    destruct (included _ _ _ c); by constructor.
Qed.

End FilterProperties.

(** ** The commit extractor *)

Section ExtractorProperties.

Context {W : Type}.
Variable dotGetCommit : Commit.t -> string -> option any.
Variable dotGetGroup : CommitGroup -> string -> option any.
Variable compare : any -> string -> any -> result bool.
Variable sort_Slice : forall A : Type, (A -> A -> bool) -> list A -> list A.
Variable sort_SliceStable : forall A : Type, (A -> A -> bool) -> list A -> list A.

Lemma bucket_Some (commits mergeCommits revertCommits : list Commit.t) :
  bucket (Some <$> commits) mergeCommits revertCommits
  = Ok (mergeCommits ++ List.filter hasMerge commits,
        revertCommits
          ++ List.filter (fun c => negb (hasMerge c) && hasRevert c) commits).
Proof.
  revert mergeCommits revertCommits.
  induction commits as [|c cs IH]; intros ms rs; simpl.
  - by rewrite !app_nil_r.
  - unfold hasMerge, hasRevert.
    destruct (Commit.Merge c); simpl.
    + rewrite IH. by rewrite <- app_assoc.
    + destruct (Commit.Revert c); simpl; rewrite IH; [|done].
      by rewrite <- app_assoc.
Qed.

(** C7. Extract buckets merge and revert commits in one pass over the
    input as given (neither expanded nor filtered): the merge list is the
    sub-list of the commits that have a Merge, the revert list the
    sub-list of those that have no Merge but a Revert, both in input
    order, whatever the configured filter is. *)
Theorem Extract_buckets (e : @commitExtractor W) (commits : list Commit.t) :
  exists commitGroups noteGroups,
    Extract dotGetCommit dotGetGroup compare sort_Slice sort_SliceStable e
      (Some <$> commits)
    = Ok (commitGroups,
          List.filter hasMerge commits,
          List.filter (fun c => negb (hasMerge c) && hasRevert c) commits,
          noteGroups).
Proof.
  unfold Extract. rewrite commitFilter_Some. simpl. rewrite bucket_Some. simpl.
  destruct (fold_left _ _ _) as [gs ns]. by eexists _, _.
Qed.

(** *** The custom order of the commit groups *)

Lemma buildOrder_notin (titles : list string) (i : Z) (order : gmap string Z) t :
  t ∉ titles -> buildOrder i titles order !! t = order !! t.
Proof.
  revert i order. induction titles as [|x r IH]; intros i order Hnotin; [done|].
  simpl. apply not_elem_of_cons in Hnotin as [Hne Hr].
  rewrite IH; [|done]. by rewrite lookup_insert_ne.
Qed.

Lemma buildOrder_last (titles : list string) (i : Z) (order : gmap string Z) t n :
  titles !! n = Some t ->
  (forall m, n < m -> titles !! m ≠ Some t) ->
  buildOrder i titles order !! t = Some (i + Z.of_nat n)%Z.
Proof.
  revert i order n. induction titles as [|x r IH]; intros i order n Hn Hlast;
    [done|].
  destruct n as [|n]; simpl in *.
  - injection Hn as ->. rewrite buildOrder_notin.
    + rewrite lookup_insert_eq. f_equal. lia.
    + intros Hin. apply list_elem_of_lookup in Hin as [m Hm].
      apply (Hlast (S m)); [lia | done].
  - rewrite (IH _ _ n Hn).
    + f_equal. lia.
    + intros m Hm. apply (Hlast (S m)). lia.
Qed.

Lemma StronglySorted_sortedBy {A} (less : A -> A -> bool) (l : list A) :
  StronglySorted (fun x y => Is_true (negb (less y x))) l -> sortedBy less l.
Proof.
  induction 1 as [|x l Hs IH Hall]; intros i j a b Hij Hi Hj; [done|].
  destruct j as [|j]; [lia|]. simpl in Hj.
  destruct i as [|i]; simpl in Hi.
  - injection Hi as <-. rewrite Forall_lookup in Hall.
    specialize (Hall _ _ Hj). by destruct (less b x).
  - apply (IH i j); [lia | done | done].
Qed.

Lemma strictWeakOrder_by_key {A} (key : A -> Z) :
  strictWeakOrder (fun x y => (key x <? key y)%Z).
Proof.
  split; [|split].
  - intros a. apply Z.ltb_irrefl.
  - intros a b c Hab Hbc. apply Z.ltb_lt. apply Z.ltb_lt in Hab, Hbc. lia.
  - intros a b c Hab Hba Hbc Hcb. rewrite !Z.ltb_ge.
    apply Z.ltb_ge in Hab, Hba, Hbc, Hcb. lia.
Qed.

Section Contract.

(** What [sort.Slice] guarantees. *)
Hypothesis sort_Slice_Permutation :
  forall (A : Type) (less : A -> A -> bool) (l : list A), sort_Slice A less l ≡ₚ l.
Hypothesis sort_Slice_sorted :
  forall (A : Type) (less : A -> A -> bool) (l : list A),
    strictWeakOrder less -> sortedBy less (sort_Slice A less l).

Lemma sortCommitGroups_titles (e : @commitExtractor W) groups :
  CommitGroup_RawTitle
    <$> sortCommitGroups dotGetCommit dotGetGroup compare sort_Slice
          sort_SliceStable e groups
  = CommitGroup_RawTitle
      <$> sort_Slice _ (lessGroup dotGetGroup compare e) groups.
Proof.
  unfold sortCommitGroups. rewrite <- list_fmap_compose. by apply list_fmap_ext.
Qed.

(** C8. Under the sort mode "Custom" the commit groups come out as a
    rearrangement of the groups given, ascending by the position of their
    raw title in the title-order list, where a title absent from the list
    counts as position 0 (and a title listed twice counts at its last
    position); groups titled feat and fix under the order list fix, feat
    come out as fix, feat. *)
Theorem sortCommitGroups_custom (e : @commitExtractor W) (groups : list CommitGroup) :
  CommitGroupSortBy (opts e) = "Custom" ->
  let sorted :=
    sortCommitGroups dotGetCommit dotGetGroup compare sort_Slice sort_SliceStable
      e groups in
  let position t :=
    orderIndex (buildOrder 0 (CommitGroupTitleOrder (opts e)) ∅) t in
  CommitGroup_RawTitle <$> sorted ≡ₚ CommitGroup_RawTitle <$> groups
  /\ (forall i j gi gj,
        i < j -> sorted !! i = Some gi -> sorted !! j = Some gj ->
        (position (CommitGroup_RawTitle gi) <= position (CommitGroup_RawTitle gj))%Z)
  /\ (forall t, t ∉ CommitGroupTitleOrder (opts e) -> position t = 0%Z)
  /\ (forall t n,
        CommitGroupTitleOrder (opts e) !! n = Some t ->
        (forall m, n < m -> CommitGroupTitleOrder (opts e) !! m ≠ Some t) ->
        position t = Z.of_nat n)
  /\ (CommitGroupTitleOrder (opts e) = ["fix"; "feat"] ->
      CommitGroup_RawTitle <$> groups ≡ₚ ["feat"; "fix"] ->
      CommitGroup_RawTitle <$> sorted = ["fix"; "feat"]).
Proof.
  intros Hcustom sorted position.
  assert (forall g, orderIndex (orderOf e) g = position g) as Hpos.
  { intros g. unfold orderOf, position. by rewrite Hcustom. }
  assert (CommitGroup_RawTitle <$> sorted ≡ₚ CommitGroup_RawTitle <$> groups)
    as Hperm.
  { unfold sorted. rewrite sortCommitGroups_titles.
    by rewrite sort_Slice_Permutation. }
  assert (forall i j ti tj,
             i < j -> (CommitGroup_RawTitle <$> sorted) !! i = Some ti ->
             (CommitGroup_RawTitle <$> sorted) !! j = Some tj ->
             (position ti <= position tj)%Z) as Hsorted.
  { intros i j ti tj Hij. unfold sorted. rewrite sortCommitGroups_titles.
    rewrite !list_lookup_fmap. intros Hi Hj.
    apply fmap_Some in Hi as (gi & Hi & ->). apply fmap_Some in Hj as (gj & Hj & ->).
    assert (strictWeakOrder (lessGroup dotGetGroup compare e)) as Hswo.
    { unfold lessGroup. rewrite Hcustom. simpl.
      apply (strictWeakOrder_by_key
               (fun g => orderIndex (orderOf e) (CommitGroup_RawTitle g))). }
    pose proof (sort_Slice_sorted _ _ groups Hswo i j gi gj Hij Hi Hj) as Hle.
    unfold lessGroup in Hle. rewrite Hcustom in Hle. simpl in Hle.
    apply Z.ltb_ge in Hle. by rewrite <- !Hpos. }
  split; [exact Hperm|]. split.
  { intros i j gi gj Hij Hi Hj. apply (Hsorted i j); [done| |];
      rewrite list_lookup_fmap; [by rewrite Hi | by rewrite Hj]. }
  split.
  { intros t Hnotin. unfold position, orderIndex.
    by rewrite buildOrder_notin, lookup_empty. }
  split.
  { intros t n Hn Hlast. unfold position, orderIndex.
    rewrite (buildOrder_last _ _ _ _ n Hn Hlast). simpl. lia. }
  intros Horder Hgroups. rewrite Hgroups in Hperm.
  assert (position "feat" = 1%Z /\ position "fix" = 0%Z) as [Hfeat Hfix].
  { unfold position. rewrite Horder. split; reflexivity. }
  destruct (CommitGroup_RawTitle <$> sorted) as [|t1 [|t2 [|t3 ts]]] eqn:E;
    try (apply Permutation_length in Hperm; simpl in Hperm; lia).
  pose proof (Hsorted 0 1 t1 t2 ltac:(lia) eq_refl eq_refl) as Hle.
  assert (t1 ∈ ["feat"; "fix"]) as H1 by (rewrite <- Hperm; by left).
  assert (t2 ∈ ["feat"; "fix"]) as H2 by (rewrite <- Hperm; right; by left).
  assert (NoDup [t1; t2]) as Hnd.
  { rewrite Hperm. apply NoDup_cons. split; [|apply NoDup_singleton].
    by intros Heq%list_elem_of_singleton. }
  apply NoDup_cons in Hnd as [Hne _].
  rewrite list_elem_of_singleton in Hne.
  apply elem_of_cons in H1 as [->|H1]; apply elem_of_cons in H2 as [->|H2];
    try apply list_elem_of_singleton in H1 as ->;
    try apply list_elem_of_singleton in H2 as ->;
    try done.
  rewrite Hfeat, Hfix in Hle. lia.
Qed.

End Contract.

End ExtractorProperties.

(** The sort model meets the contract of [sort.Slice]. *)
Lemma sortModel_Permutation (A : Type) (less : A -> A -> bool) (l : list A) :
  sortModel A less l ≡ₚ l.
Proof. apply merge_sort_Permutation. Qed.

Lemma sortModel_sorted (A : Type) (less : A -> A -> bool) (l : list A) :
  strictWeakOrder less -> sortedBy less (sortModel A less l).
Proof.
  intros (Hirr & Htrans & Hinc). apply StronglySorted_sortedBy.
  assert (forall a b, less a b = true -> less b a = false) as Hasym.
  { intros a b Hab. destruct (less b a) eqn:Hba; [|done].
    by rewrite <- (Hirr a), (Htrans a b a Hab Hba). }
  apply StronglySorted_merge_sort.
  - intros a b c Hab Hbc. apply negb_prop_intro. intros Hca%Is_true_eq_true.
    apply negb_prop_elim in Hab, Hbc.
    destruct (less b a) eqn:Hba; [by apply Hab|].
    destruct (less c b) eqn:Hcb; [by apply Hbc|].
    destruct (less a b) eqn:Hab'.
    { by rewrite (Htrans c a b Hca Hab') in Hcb. }
    destruct (less b c) eqn:Hbc'.
    { by rewrite (Htrans b c a Hbc' Hca) in Hba. }
    destruct (Hinc a b c Hab' Hba Hbc' Hcb) as [_ Hca']. congruence.
  - intros a b. destruct (less b a) eqn:Hba.
    + right. rewrite (Hasym _ _ Hba). done.
    + left. done.
Qed.

(** The scenario of C8 on the sample extractor: a group of two feat commits
    and a group of one fix commit come out as fix, feat. *)
Lemma sortCommitGroups_custom_witness :
  CommitGroup_RawTitle
    <$> sortCommitGroups dotGetCommitModel dotGetGroupModel compareModel
          sortModel sortModel
          (newCommitExtractor (Sample.options false None ∅))
          [Sample.group "feat" [Sample.commitOfType "feat"; Sample.commitOfType "feat"];
           Sample.group "fix" [Sample.commitOfType "fix"]]
  = ["fix"; "feat"].
Proof.
  apply (sortCommitGroups_custom dotGetCommitModel dotGetGroupModel compareModel
           sortModel sortModel sortModel_Permutation sortModel_sorted
           (newCommitExtractor (Sample.options false None ∅))
           [Sample.group "feat" [Sample.commitOfType "feat"; Sample.commitOfType "feat"];
            Sample.group "fix" [Sample.commitOfType "fix"]]
           eq_refl);
    reflexivity.
Defined.

(** ** The commit parser *)

(** *** Submatch lists *)

Lemma matchAt_length (r : Regexp) total s s' m :
  matchAt r total s = Some (s', m) -> length m = S (NumSubexp r).
Proof.
  unfold matchAt. destruct (exec _ _ _ _ _) as [[t c]|]; [|done].
  intros [= _ <-]. simpl. by rewrite length_map, length_seq.
Qed.

Lemma allMatches_length (r : Regexp) total s skip prevEnd :
  Forall (fun m => length m = S (NumSubexp r)) (allMatches r total skip prevEnd s).
Proof.
  revert skip prevEnd. induction s as [|a s IH]; intros skip prevEnd.
  - destruct skip; simpl; [|done].
    destruct (matchAt r total "") as [[s' m]|] eqn:E; [|done].
    apply matchAt_length in E. case_bool_decide; repeat constructor; done.
  - destruct skip; simpl; [|apply IH].
    destruct (matchAt r total (String a s)) as [[s' m]|] eqn:E; [|apply IH].
    apply matchAt_length in E.
    destruct (_ - _); [case_bool_decide|]; repeat constructor;
      try done; apply IH.
Qed.

(** Every submatch list has an entry for the whole match and one for each
    group of the pattern, so [sub r i] reads inside the list for every group
    number [i]. *)
Lemma FindAllStringSubmatch_length (r : Regexp) (s : string) :
  Forall (fun m => length m = S (NumSubexp r)) (FindAllStringSubmatch r s).
Proof. apply allMatches_length. Qed.

Lemma NumSubexp_alternation fold l : NumSubexp (alternation fold l) = 0.
Proof.
  induction l as [|x [|y l] IH]; simpl in *; done.
Qed.

(** The patterns built by [newCommitParser] have the groups the parser
    reads: three for references, one for issues and mentions, two for notes
    and trailers. *)
Lemma newCommitParser_groups {W} (l : @Logger W) c j o :
  let p := newCommitParser l c j o in
  NumSubexp (reRef p) = 3 /\ NumSubexp (reIssue p) = 1
  /\ NumSubexp (reNotes p) = 2 /\ NumSubexp (reMention p) = 1
  /\ NumSubexp (reSignOff p) = 2 /\ NumSubexp (reCoAuthor p) = 2.
Proof. simpl. rewrite !NumSubexp_alternation. done. Qed.

(** *** De-duplication *)

Lemma sameRef_refl r : sameRef r r = true.
Proof. unfold sameRef. by rewrite !String.eqb_refl. Qed.

Lemma fold_left_uniq_NoDup {A} (same : A -> A -> bool) (l acc : list A) :
  (forall x, same x x = true) ->
  NoDup acc ->
  NoDup (fold_left (fun arr x =>
                      if negb (existsb (same x) arr) then arr ++ [x] else arr)
                   l acc).
Proof.
  intros Hrefl. revert acc. induction l as [|x l IH]; intros acc Hacc; [done|].
  simpl. apply IH. destruct (existsb (same x) acc) eqn:E; [done|]. simpl.
  apply NoDup_app. split; [done|]. split; [|apply NoDup_singleton].
  intros y Hy ->%list_elem_of_singleton.
  assert (existsb (same x) acc = true); [|congruence].
  apply existsb_exists. exists x. split; [by apply list_elem_of_In | apply Hrefl].
Qed.

Lemma uniqRefs_NoDup (refs : list Ref) : NoDup (uniqRefs refs).
Proof.
  apply (fold_left_uniq_NoDup sameRef); [apply sameRef_refl | constructor].
Qed.

Lemma uniqMentions_NoDup (mentions : list string) : NoDup (uniqMentions mentions).
Proof.
  apply (fold_left_uniq_NoDup String.eqb); [apply String.eqb_refl | constructor].
Qed.

Lemma issues_fold (issues : list (list string)) (refs0 : list Ref) :
  exists bares,
    fold_left (fun refs r =>
        if negb (existsb (fun ref => String.eqb (Ref_Ref ref) (sub r 1)) refs)
        then refs ++ [bareRef (sub r 1)] else refs) issues refs0
    = refs0 ++ bares
    /\ Forall (fun b => Ref_Action b = "" /\ Ref_Source b = "") bares
    /\ NoDup (Ref_Ref <$> bares)
    /\ forall b a, b ∈ bares -> a ∈ refs0 -> Ref_Ref b ≠ Ref_Ref a.
Proof.
  revert refs0. induction issues as [|r rest IH]; intros refs0; simpl.
  - exists []. rewrite app_nil_r. repeat split; try constructor.
    intros b a Hb. by apply elem_of_nil in Hb.
  - destruct (existsb _ refs0) eqn:E; simpl; [apply IH|].
    destruct (IH (refs0 ++ [bareRef (sub r 1)])) as (bares & Heq & Hbare & Hnd & Hne).
    exists (bareRef (sub r 1) :: bares). rewrite Heq, <- app_assoc.
    split; [done|]. split; [by constructor|]. split.
    + simpl. apply NoDup_cons. split; [|done].
      intros Hin. apply list_elem_of_fmap in Hin as (b & Hb & Hin).
      apply (Hne b (bareRef (sub r 1)) Hin); [|done].
      apply elem_of_app. right. by left.
    + intros b a Hb Ha. apply elem_of_cons in Hb as [->|Hb].
      * simpl. intros Heq'.
        assert (existsb (fun ref => String.eqb (Ref_Ref ref) (sub r 1)) refs0 = true);
          [|congruence].
        apply existsb_exists. exists a. split; [by apply list_elem_of_In|].
        by apply String.eqb_eq.
      * apply (Hne b a Hb). apply elem_of_app. by left.
Qed.

Section ParserProperties.

Context {W : Type}.
Implicit Types (p : @commitParser W) (w : W) (commit : Commit.t).

(** C4, in the form that holds of the code. For every commit that [parseCommit] returns, its own
    [Refs] hold no two entries with the same (Action, Source, Ref) and its
    own [Mentions] hold no string twice; and among the references read from
    one text by [parseRefs], the bare entries added for issue matches have
    no action and no source, pairwise different Ref values, and a Ref value
    different from that of every reference match of the same text. *)
Theorem refs_mentions_dedup p :
  (forall input w commit w',
      parseCommit p input w = (Ok commit, w') ->
      NoDup (Commit.Refs commit) /\ NoDup (Commit.Mentions commit))
  /\ (forall text,
        exists bares,
          parseRefs p text
          = map (fun r => {| Ref_Action := sub r 1; Ref_Source := sub r 2;
                             Ref_Ref := sub r 3 |})
                (FindAllStringSubmatch (reRef p) text) ++ bares
          /\ Forall (fun b => Ref_Action b = "" /\ Ref_Source b = "") bares
          /\ NoDup (Ref_Ref <$> bares)
          /\ forall b a,
               b ∈ bares ->
               a ∈ map (fun r => {| Ref_Action := sub r 1; Ref_Source := sub r 2;
                                    Ref_Ref := sub r 3 |})
                       (FindAllStringSubmatch (reRef p) text) ->
               Ref_Ref b ≠ Ref_Ref a).
Proof.
  split.
  - intros input w commit w'. unfold parseCommit, bind.
    destruct (parseTokens p Commit.zero _ w) as [[c1| |] w1]; try done.
    destruct c1 as [h a1 a2 a3 a4 refs a6 mentions]; simpl.
    destruct h as [h|]; [|done]. destruct (Exec _ _ _ _) as [[out|err] w2]; [|done].
    intros [= <- <-].
    destruct (Nat.ltb 0 (String.length out)); simpl;
      (split; [apply uniqRefs_NoDup | apply uniqMentions_NoDup]).
  - intros text. unfold parseRefs. apply issues_fold.
Qed.

End ParserProperties.

(** The samples of C4. The header has the action reference "Fixes #1", a
    body line the bare reference "#1": both stay in [Refs].  And with
    multiline splitting on, the sub-commit made from a body line keeps the
    references and mentions of that line as [parseRefs] and [parseMentions]
    return them, repeated ones included. *)
Lemma refs_bare_duplicate_across_lines :
  match (parseCommit (Sample.parser false None "")
           (Sample.fields "a1" "feat: new Fixes #1" "see #1") []).1 with
  | Ok commit => Commit.Refs commit
  | _ => []
  end
  = [{| Ref_Action := "Fixes"; Ref_Source := ""; Ref_Ref := "1" |};
     {| Ref_Action := ""; Ref_Source := ""; Ref_Ref := "1" |}]
  /\ match (parseCommit (Sample.parser true None "")
              (Sample.fields "a1" "feat: new" "fix: two Fixes #2 Fixes #2 @bob @bob")
              []).1 with
     | Ok commit =>
         map (fun sub => (Commit.Refs sub, Commit.Mentions sub))
             (Commit.SubCommits commit)
     | _ => []
     end
     = [([{| Ref_Action := "Fixes"; Ref_Source := ""; Ref_Ref := "2" |};
          {| Ref_Action := "Fixes"; Ref_Source := ""; Ref_Ref := "2" |}],
         ["bob"; "bob"])].
Proof. split; vm_compute; reflexivity. Qed.

(** The de-duplication on a sample record: the header repeats the issue
    "#1", the body the mention of bob. *)
Lemma refs_mentions_dedup_witness :
  exists commit w',
    parseCommit (Sample.parser false None "")
      (Sample.fields "a1" "feat: new Fixes #1 #2 #1" "for @bob and @bob") []
    = (Ok commit, w')
    /\ (NoDup (Commit.Refs commit) /\ NoDup (Commit.Mentions commit))
    /\ Commit.Refs commit
        = [{| Ref_Action := "Fixes"; Ref_Source := ""; Ref_Ref := "1" |};
           {| Ref_Action := ""; Ref_Source := ""; Ref_Ref := "2" |}]
    /\ Commit.Mentions commit = ["bob"].
Proof.
  destruct (parseCommit (Sample.parser false None "")
              (Sample.fields "a1" "feat: new Fixes #1 #2 #1" "for @bob and @bob") [])
    as [[commit| |] w'] eqn:E; try (vm_compute in E; discriminate).
  exists commit, w'. split; [reflexivity|]. split.
  - exact (proj1 (refs_mentions_dedup (Sample.parser false None "")) _ _ _ _ E).
  - vm_compute in E. injection E as <- <-. split; reflexivity.
Defined.

(** *** Body processing *)

Section BodyProperties.

Context {W : Type}.
Implicit Types (p : @commitParser W) (w : W) (commit : Commit.t).

(** The sub-commit loop changes nothing of the commit but [SubCommits]. *)
Lemma subCommitLoop_shape p (inputs : list string) commit w :
  exists subs w',
    subCommitLoop p commit inputs w = (Commit.with_SubCommits subs commit, w').
Proof.
  revert commit w. induction inputs as [|i rest IH]; intros commit w; simpl.
  - exists (Commit.SubCommits commit), w. unfold sret. by destruct commit.
  - unfold sbind. destruct (subCommitOf p commit i w) as [[sc|] w1].
    + destruct (IH (Commit.with_SubCommits (Commit.SubCommits commit ++ [sc]) commit) w1)
        as (subs & w' & ->).
      exists subs, w'. by destruct commit.
    + apply IH.
Qed.

Lemma processBodyLines_scenario (l : @Logger W) c j o commit :
  RefActions o = ["Fixes"] ->
  IssuePrefix o = ["#"] ->
  NoteKeywords o = ["BREAKING CHANGE"] ->
  exists commit',
    processBodyLines (newCommitParser l c j o) commit scenarioBody = Ok commit'
    /\ Commit.Refs commit'
       = Commit.Refs commit
           ++ [{| Ref_Action := "Fixes"; Ref_Source := ""; Ref_Ref := "42" |}]
    /\ Commit.Notes commit'
       = [{| Note_Title := "BREAKING CHANGE";
             Note_Body := "old API removed" +:+ NL +:+ "more detail" |}]
    /\ Commit.TrimmedBody commit' = "".
Proof.
  intros Hactions Hprefix Hnotes. destruct o. simpl in *. subst.
  destruct commit. eexists. split; [vm_compute; reflexivity|].
  simpl. done.
Qed.

(** C6. With the reference action Fixes, the issue prefix "#" and the note
    keyword BREAKING CHANGE, processing the body "Fixes #42 / BREAKING
    CHANGE: old API removed / more detail" (three lines) adds exactly one
    reference, of value 42, leaves exactly one note, titled BREAKING CHANGE
    with the body "old API removed / more detail" (two lines), and an empty
    trimmed body: neither the reference line nor the note lines are in it. *)
Theorem processBody_scenario (l : @Logger W) c j o commit w :
  RefActions o = ["Fixes"] ->
  IssuePrefix o = ["#"] ->
  NoteKeywords o = ["BREAKING CHANGE"] ->
  exists commit' w',
    processBody (newCommitParser l c j o) commit scenarioBody w = (Ok commit', w')
    /\ Commit.Refs commit'
       = Commit.Refs commit
           ++ [{| Ref_Action := "Fixes"; Ref_Source := ""; Ref_Ref := "42" |}]
    /\ Commit.Notes commit'
       = [{| Note_Title := "BREAKING CHANGE";
             Note_Body := "old API removed" +:+ NL +:+ "more detail" |}]
    /\ Commit.TrimmedBody commit' = "".
Proof.
  intros Hactions Hprefix Hnotes.
  unfold processBody, bind, lift, pure.
  change (convNewline scenarioBody NL) with scenarioBody.
  set (p := newCommitParser l c j o).
  assert (exists c2 w2,
             (if MultilineCommit (config p)
              then subCommitLoop p (Commit.with_Body scenarioBody commit)
                     (strings.Split (ReplaceAllString_empty (reNotes p) scenarioBody) NL)
              else sret (Commit.with_Body scenarioBody commit)) w = (c2, w2)
             /\ Commit.Refs c2 = Commit.Refs commit) as (c2 & w2 & -> & Hrefs).
  { destruct (MultilineCommit (config p)).
    - destruct (subCommitLoop_shape p
                  (strings.Split (ReplaceAllString_empty (reNotes p) scenarioBody) NL)
                  (Commit.with_Body scenarioBody commit) w) as (subs & w' & ->).
      exists (Commit.with_SubCommits subs (Commit.with_Body scenarioBody commit)), w'.
      split; [done|]. by destruct commit.
    - exists (Commit.with_Body scenarioBody commit), w. split; [done|].
      by destruct commit. }
  destruct (processBodyLines_scenario l c j o c2 Hactions Hprefix Hnotes)
    as (commit' & Heq & H1 & H2 & H3).
  exists commit', w2. fold p in Heq. rewrite Heq. rewrite Hrefs in H1. done.
Qed.

End BodyProperties.

(** The scenario on a fresh commit, with multiline splitting on. *)
Lemma processBody_scenario_witness :
  exists commit' w',
    processBody
      (newCommitParser Sample.logSink (Sample.gitClient "") Sample.jiraDown
         {| Paths := []; Processor_ := None;
            HeaderPattern := Sample.headerPattern; HeaderPatternMaps := ["Type"; "Subject"];
            MergePattern := Sample.mergePattern; MergePatternMaps := ["Source"];
            RevertPattern := Sample.revertPattern; RevertPatternMaps := ["Header"];
            RefActions := ["Fixes"]; IssuePrefix := ["#"];
            NoteKeywords := ["BREAKING CHANGE"];
            MultilineCommit := true; JiraTypeMaps := ∅;
            JiraIssueDescriptionPattern := None; CommitFilters := ∅;
            NoCaseSensitive := false; CommitGroupBy := "Type";
            CommitGroupSortBy := "Title"; CommitGroupTitleOrder := [];
            CommitGroupTitleMaps := ∅; CommitSortBy := "Scope" |})
      Commit.zero scenarioBody []
    = (Ok commit', w')
    /\ Commit.Refs commit'
       = [] ++ [{| Ref_Action := "Fixes"; Ref_Source := ""; Ref_Ref := "42" |}]
    /\ Commit.Notes commit'
       = [{| Note_Title := "BREAKING CHANGE";
             Note_Body := "old API removed" +:+ NL +:+ "more detail" |}]
    /\ Commit.TrimmedBody commit' = "".
Proof.
  apply (processBody_scenario Sample.logSink (Sample.gitClient "") Sample.jiraDown
           _ Commit.zero []); reflexivity.
Defined.

(** *** The fence detector *)

Lemma Index_zero (s sub : string) :
  (strings.Index s sub =? 0)%Z = strings.HasPrefix s sub.
Proof.
  destruct s as [|a s]; cbn [strings.Index];
    [destruct (strings.HasPrefix "" sub) | destruct (strings.HasPrefix (String a s) sub)];
    try done.
  destruct (strings.Index s sub <? 0)%Z eqn:E; [done|].
  apply Z.ltb_ge in E. apply Z.eqb_neq. lia.
Qed.

(** Inside a fence, [Update] closes it exactly on a line that begins with
    the marker that opened it, and otherwise leaves it as it is. *)
Lemma Update_inside (d : mdFenceDetector) (marker line : string) :
  (0 <= fence d)%Z ->
  fenceTypes !! Z.to_nat (fence d) = Some marker ->
  Update d line
  = if strings.HasPrefix line marker then {| fence := -1 |} else d.
Proof.
  destruct d as [f]. simpl. intros Hf Hmarker.
  assert (f = 0 \/ f = 1 \/ f = 2 \/ f = 3)%Z as Hcases.
  { apply lookup_lt_Some in Hmarker. simpl in Hmarker. lia. }
  unfold Update, fenceTypes in *.
  destruct Hcases as [ -> | [ -> | [ -> | -> ] ] ]; simpl in Hmarker; injection Hmarker as <-;
    simpl; rewrite !Index_zero; simpl; rewrite ?andb_false_r, ?andb_true_r;
    by destruct (strings.HasPrefix line _).
Qed.

(** Outside a fence, [Update] opens one on a line that begins with a
    marker, of the type of the first such marker. *)
Lemma Update_outside (line : string) :
  Update newMdFenceDetector line
  = if strings.HasPrefix line "```" then {| fence := 0 |}
    else if strings.HasPrefix line "~~~" then {| fence := 1 |}
    else if strings.HasPrefix line "    " then {| fence := 2 |}
    else if strings.HasPrefix line TAB then {| fence := 3 |}
    else newMdFenceDetector.
Proof.
  unfold Update, fenceTypes, newMdFenceDetector. simpl. rewrite !Index_zero.
  repeat (destruct (strings.HasPrefix line _); [done|]). done.
Qed.

Section FenceProperties.

Context {W : Type}.
Implicit Types (p : @commitParser W) (st : bodyState) (commit : Commit.t).

Lemma bodyLine_in_codeblock p st line :
  InCodeblock (Update (bs_fenceDetector st) line) = true ->
  noteOpenOk st ->
  exists st',
    bodyLine p st line = Ok st'
    /\ bs_fenceDetector st' = Update (bs_fenceDetector st) line
    /\ metadataOf (bs_commit st') = metadataOf (bs_commit st)
    /\ noteOpenOk st'
    /\ (bs_inNote st = false ->
        FindAllStringSubmatch (reNotes p) line = [] ->
        bs_inNote st' = false
        /\ bs_trimmedBody st' = bs_trimmedBody st ++ [line]).
Proof.
  intros Hin Hok. unfold bodyLine. rewrite Hin. simpl.
  destruct (FindAllStringSubmatch (reNotes p) line) as [|r res] eqn:Hnotes; simpl.
  - destruct (bs_inNote st) eqn:HinNote; simpl.
    + unfold appendToLastNote.
      destruct (last (Commit.Notes (bs_commit st))) as [n|] eqn:Hlast.
      * simpl. eexists. split; [done|]. simpl. split; [done|].
        split; [by destruct (bs_commit st)|]. split; [|done].
        intros _. simpl. destruct (bs_commit st). simpl in *.
        intros Hnil. apply (f_equal length) in Hnil.
        rewrite length_insert in Hnil. destruct Notes; [done | simpl in Hnil; lia].
      * exfalso. apply (Hok HinNote). by apply last_None.
    + eexists. split; [done|]. simpl. repeat split; try done.
  - eexists. split; [done|]. simpl. split; [done|].
    split; [by destruct (bs_commit st)|]. split; [|done].
    intros _. simpl. destruct (bs_commit st). simpl.
    intros Hnil. apply (f_equal length) in Hnil.
    rewrite length_app in Hnil. simpl in Hnil. lia.
Qed.

(** C5, in the form that holds of the code. While a fence is open, a line that does not begin
    with the marker that opened the fence leaves it open, and nothing of
    such a line is extracted into the commit's references, mentions,
    co-authors or signers; the lines are kept for the trimmed body when no
    note is open at the first of them and none matches the note pattern.
    A fence is closed exactly by a line beginning with the marker that
    opened it, and a line beginning with triple backticks opens a fence of
    the first type. *)
Theorem fenced_lines p st (marker : string) (inside : list string) :
  (0 <= fence (bs_fenceDetector st))%Z ->
  fenceTypes !! Z.to_nat (fence (bs_fenceDetector st)) = Some marker ->
  Forall (fun line => strings.HasPrefix line marker = false) inside ->
  noteOpenOk st ->
  (exists st',
      bodyLines p st inside = Ok st'
      /\ bs_fenceDetector st' = bs_fenceDetector st
      /\ metadataOf (bs_commit st') = metadataOf (bs_commit st)
      /\ (bs_inNote st = false ->
          Forall (fun line => FindAllStringSubmatch (reNotes p) line = []) inside ->
          bs_trimmedBody st' = bs_trimmedBody st ++ inside))
  /\ (forall line,
        Update (bs_fenceDetector st) line
        = if strings.HasPrefix line marker then newMdFenceDetector
          else bs_fenceDetector st)
  /\ (forall line,
        strings.HasPrefix line "```" = true ->
        Update newMdFenceDetector line = {| fence := 0 |}).
Proof.
  intros Hfence Hmarker Hinside Hok. split; [|split].
  - revert st Hfence Hmarker Hok.
    induction Hinside as [|line rest Hline Hrest IH]; intros st Hfence Hmarker Hok.
    + exists st. simpl. repeat split; try done. intros _ _. by rewrite app_nil_r.
    + pose proof (Update_inside _ _ line Hfence Hmarker) as Hupd.
      rewrite Hline in Hupd.
      destruct (bodyLine_in_codeblock p st line) as (st1 & Hstep & Hf1 & Hm1 & Hok1 & Hkeep);
        [rewrite Hupd; unfold InCodeblock; by apply Z.ltb_lt; lia | done |].
      rewrite Hupd in Hf1.
      destruct (IH st1) as (st' & Hrun & Hf' & Hm' & Hkeep');
        [by rewrite Hf1 | by rewrite Hf1 | done |].
      exists st'. simpl. rewrite Hstep. simpl. split; [done|].
      split; [congruence|]. split; [congruence|].
      intros HinNote Hnotes. inversion Hnotes as [|? ? Hn Hns]; subst.
      destruct (Hkeep HinNote Hn) as [HinNote1 Htrim1].
      rewrite (Hkeep' HinNote1 Hns), Htrim1. by rewrite <- app_assoc.
  - intros line. by apply Update_inside.
  - intros line Hline. by rewrite Update_outside, Hline.
Qed.

End FenceProperties.

(** The samples of C5: a reference line inside an open fence that follows
    an open note goes to the note and is not in the trimmed body; a line
    inside an open fence that matches the note pattern becomes a note and
    is not in the trimmed body either; and with multiline splitting on, a
    line inside an open fence that matches the header pattern becomes a
    sub-commit with the reference of that line. *)
Lemma fenced_line_not_in_trimmed_body :
  match processBodyLines (Sample.parser false None "") Commit.zero
          ("BREAKING CHANGE: x" +:+ NL +:+ "```" +:+ NL +:+ "Fixes #42" +:+ NL +:+ "```")
  with
  | Ok commit => Some (Commit.Refs commit, Commit.Notes commit, Commit.TrimmedBody commit)
  | _ => None
  end
  = Some ([],
          [{| Note_Title := "BREAKING CHANGE";
              Note_Body := "x" +:+ NL +:+ "```" +:+ NL +:+ "Fixes #42" +:+ NL +:+ "```" |}],
          "")
  /\ match processBodyLines (Sample.parser false None "") Commit.zero
             ("```" +:+ NL +:+ "BREAKING CHANGE: see #42" +:+ NL +:+ "```")
     with
     | Ok commit => Some (Commit.Refs commit, Commit.Notes commit, Commit.TrimmedBody commit)
     | _ => None
     end
     = Some ([],
             [{| Note_Title := "BREAKING CHANGE";
                 Note_Body := "see #42" +:+ NL +:+ "```" |}],
             "```")
  /\ match (processBody (Sample.parser true None "") Commit.zero
              ("```" +:+ NL +:+ "fix: two #42" +:+ NL +:+ "```") []).1
     with
     | Ok commit =>
         Some (Commit.Refs commit, map Commit.Refs (Commit.SubCommits commit),
               Commit.TrimmedBody commit)
     | _ => None
     end
     = Some ([],
             [[{| Ref_Action := ""; Ref_Source := ""; Ref_Ref := "42" |}]],
             "```" +:+ NL +:+ "fix: two #42" +:+ NL +:+ "```").
Proof. repeat split; vm_compute; reflexivity. Qed.

(** Three lines inside a fence of triple backticks, one of them a line
    of tildes: all are kept, nothing is extracted, the fence stays open. *)
Lemma fenced_lines_witness :
  exists st',
    bodyLines (Sample.parser false None "")
      {| bs_commit := Commit.zero; bs_inNote := false; bs_trim := false;
         bs_fenceDetector := {| fence := 0 |}; bs_trimmedBody := ["```"] |}
      ["Fixes #42"; "~~~"; "thanks @bob"]
    = Ok st'
    /\ bs_fenceDetector st' = {| fence := 0 |}
    /\ metadataOf (bs_commit st') = metadataOf Commit.zero
    /\ (false = false ->
        Forall (fun line =>
                  FindAllStringSubmatch (reNotes (Sample.parser false None "")) line = [])
               ["Fixes #42"; "~~~"; "thanks @bob"] ->
        bs_trimmedBody st' = ["```"] ++ ["Fixes #42"; "~~~"; "thanks @bob"]).
Proof.
  apply (fenced_lines (Sample.parser false None "")
           {| bs_commit := Commit.zero; bs_inNote := false; bs_trim := false;
              bs_fenceDetector := {| fence := 0 |}; bs_trimmedBody := ["```"] |}
           "```" ["Fixes #42"; "~~~"; "thanks @bob"]).
  - simpl. lia.
  - reflexivity.
  - repeat constructor.
  - intros H. discriminate H.
Defined.

(** *** Records: bounds *)

Lemma parseHash_cases (input : string) :
  (Nat.leb 2 (length (strings.Split input TAB)) = true
   /\ exists h, parseHash input = Ok h)
  \/ (Nat.leb 2 (length (strings.Split input TAB)) = false
      /\ parseHash input = Panic IndexOutOfRange).
Proof.
  unfold parseHash. destruct (strings.Split input TAB) as [|a [|b l]]; simpl.
  - right. done.
  - right. done.
  - left. split; [done|]. by eexists.
Qed.

Lemma parseAuthor_cases (input : string) :
  (Nat.leb 3 (length (strings.Split input TAB)) = true
   /\ exists a, parseAuthor input = Ok a)
  \/ (Nat.leb 3 (length (strings.Split input TAB)) = false
      /\ parseAuthor input = Panic IndexOutOfRange).
Proof.
  unfold parseAuthor. destruct (strings.Split input TAB) as [|a [|b [|c l]]]; simpl.
  - right. done.
  - right. done.
  - right. done.
  - left. split; [done|]. by eexists.
Qed.

Section BoundsProperties.

Context {W : Type}.
Implicit Types (p : @commitParser W) (w : W) (commit : Commit.t) (st : bodyState).

Lemma extractLineMetadata_Notes p commit line :
  Commit.Notes (extractLineMetadata p commit line).2 = Commit.Notes commit.
Proof.
  unfold extractLineMetadata.
  destruct (Nat.ltb 0 (length (parseRefs p line)));
    destruct (Nat.ltb 0 (length (parseMentions p line)));
    destruct (Nat.ltb 0 (length (parseCoAuthors p line)));
    destruct (Nat.ltb 0 (length (parseSigners p line)));
    by destruct commit.
Qed.

(** A round of the line loop never reads past the notes: an open note has a
    note to continue, before and after. *)
Lemma bodyLine_total p st line :
  noteOpenOk st ->
  exists st', bodyLine p st line = Ok st' /\ noteOpenOk st'.
Proof.
  intros Hok. unfold bodyLine.
  pose proof (extractLineMetadata_Notes p (bs_commit st) line) as Hnotes.
  destruct (extractLineMetadata p (bs_commit st) line) as [meta c1].
  simpl in Hnotes.
  assert (forall c trim inNote,
             (inNote = true -> Commit.Notes c ≠ []) ->
             exists st',
               obind
                 (if Nat.ltb 0 (length (FindAllStringSubmatch (reNotes p) line)) then
                    Ok (Commit.with_Notes
                          (Commit.Notes c ++
                             map (fun r => {| Note_Title := sub r 1; Note_Body := sub r 2 |})
                               (FindAllStringSubmatch (reNotes p) line))
                          c, true, true)
                  else if inNote then
                    obind (appendToLastNote (Commit.Notes c) line) (fun notes =>
                      Ok (Commit.with_Notes notes c, trim, inNote))
                  else Ok (c, trim, inNote))
                 (fun '(commit, trim, inNote) =>
                    Ok {| bs_commit := commit;
                          bs_inNote := inNote;
                          bs_trim := trim;
                          bs_fenceDetector := Update (bs_fenceDetector st) line;
                          bs_trimmedBody :=
                            if negb trim then bs_trimmedBody st ++ [line]
                            else bs_trimmedBody st |})
               = Ok st' /\ noteOpenOk st') as Hrest.
  { intros c trim inNote Hc.
    destruct (FindAllStringSubmatch (reNotes p) line) as [|r res]; simpl.
    - destruct inNote.
      + unfold appendToLastNote.
        destruct (last (Commit.Notes c)) as [n|] eqn:Hlast.
        * simpl. eexists. split; [done|]. intros _. simpl. destruct c. simpl in *.
          intros Hnil. apply (f_equal length) in Hnil.
          rewrite length_insert in Hnil. destruct Notes; [done | simpl in Hnil; lia].
        * exfalso. apply (Hc eq_refl). by apply last_None.
      + simpl. eexists. split; [done|]. intros H. discriminate H.
    - eexists. split; [done|]. intros _. simpl. destruct c. simpl.
      intros Hnil. apply (f_equal length) in Hnil.
      rewrite length_app in Hnil. simpl in Hnil. lia. }
  destruct (negb (InCodeblock (Update (bs_fenceDetector st) line))).
  - destruct meta.
    + apply (Hrest c1 true false). intros H. discriminate H.
    + apply (Hrest c1 (if negb (bs_inNote st) then false else bs_trim st)
               (bs_inNote st)).
      rewrite Hnotes. apply Hok.
  - apply (Hrest (bs_commit st) (if negb (bs_inNote st) then false else bs_trim st)
             (bs_inNote st)).
    apply Hok.
Qed.

Lemma bodyLines_total p st (lines : list string) :
  noteOpenOk st -> exists st', bodyLines p st lines = Ok st'.
Proof.
  revert st. induction lines as [|line rest IH]; intros st Hok; simpl.
  - by exists st.
  - destruct (bodyLine_total p st line Hok) as (st1 & -> & Hok1). simpl.
    by apply IH.
Qed.

Lemma processBody_total p commit input w :
  exists commit' w', processBody p commit input w = (Ok commit', w').
Proof.
  assert (forall c2, exists commit',
             processBodyLines p c2 (convNewline input NL) = Ok commit') as Hlines.
  { intros c2. unfold processBodyLines.
    destruct (bodyLines_total p
                {| bs_commit := Commit.with_Notes [] c2; bs_inNote := false;
                   bs_trim := false; bs_fenceDetector := newMdFenceDetector;
                   bs_trimmedBody := [] |}
                (strings.Split (convNewline input NL) NL)) as (st' & ->).
    - intros H. discriminate H.
    - simpl. by eexists. }
  unfold processBody, bind, lift, pure.
  destruct (MultilineCommit (config p)).
  - destruct (subCommitLoop p _ _ w) as [c2 w2].
    destruct (Hlines c2) as (commit' & ->). by eexists _, _.
  - unfold sret. destruct (Hlines (Commit.with_Body (convNewline input NL) commit))
      as (commit' & ->). by eexists _, _.
Qed.

(** A round of the token loop completes on a well-formed field block and
    panics, out of range, on any other. *)
Lemma parseToken_cases p commit token w :
  (tokenWellFormed token = true
   /\ exists commit' w', parseToken p commit token w = (Ok commit', w'))
  \/ (tokenWellFormed token = false
      /\ parseToken p commit token w = (Panic IndexOutOfRange, w)).
Proof.
  unfold tokenWellFormed, parseToken, pure.
  destruct (strings.Index token ":" <? 0)%Z eqn:Hsep.
  { right. split; [|done]. apply Z.ltb_lt in Hsep.
    apply andb_false_iff. left. apply Z.leb_gt. lia. }
  apply Z.ltb_ge in Hsep. rewrite (proj2 (Z.leb_le _ _) Hsep). cbn [andb].
  set (field := strings.take _ token). set (value := strings.TrimSpace _).
  destruct (String.eqb field hashField).
  { destruct (parseHash_cases value) as [[-> [h ->]]|[-> ->]].
    - left. split; [done|]. by eexists _, _.
    - right. done. }
  destruct (String.eqb field authorField).
  { cbn [orb]. destruct (parseAuthor_cases value) as [[-> [a ->]]|[-> ->]].
    - left. split; [done|]. by eexists _, _.
    - right. done. }
  destruct (String.eqb field committerField).
  { cbn [orb]. unfold parseCommitter.
    destruct (parseAuthor_cases value) as [[-> [a ->]]|[-> ->]].
    - left. split; [done|]. by eexists _, _.
    - right. done. }
  cbn [orb]. left. split; [done|].
  destruct (String.eqb field subjectField).
  { unfold lift. destruct (processHeader p commit value w). by eexists _, _. }
  destruct (String.eqb field bodyField).
  { apply processBody_total. }
  unfold ret. by eexists _, _.
Qed.

Lemma parseTokens_cases p commit (tokens : list string) w :
  (forallb tokenWellFormed tokens = true
   /\ exists commit' w', parseTokens p commit tokens w = (Ok commit', w'))
  \/ (forallb tokenWellFormed tokens = false
      /\ exists w', parseTokens p commit tokens w = (Panic IndexOutOfRange, w')).
Proof.
  revert commit w. induction tokens as [|token rest IH]; intros commit w; simpl.
  - left. split; [done|]. unfold ret. by eexists _, _.
  - unfold bind.
    destruct (parseToken_cases p commit token w) as [[-> (c1 & w1 & ->)]|[-> ->]];
      simpl.
    + apply IH.
    + right. split; [done|]. by eexists.
Qed.


End BoundsProperties.



(** *** Records: errors *)

Section ErrorProperties.

Context {W : Type}.
Implicit Types (p : @commitParser W) (w : W) (commit : Commit.t) (e : error).

Lemma parseCommit_Err p (input : string) w e w' :
  parseCommit p input w = (Err e, w')
  <-> exists commit w1 hash,
        parseTokens p Commit.zero (strings.Split input delimiter) w = (Ok commit, w1)
        /\ Commit.Hash commit = Some hash
        /\ Exec (client p) "diff-tree" (diffTreeArgs hash) w1 = (inr e, w').
Proof.
  unfold parseCommit, bind.
  destruct (parseTokens_cases p Commit.zero (strings.Split input delimiter) w)
    as [[_ (c1 & w1 & ->)]|[_ (w1 & ->)]].
  - assert (Commit.Hash
              (Commit.with_Mentions (uniqMentions (Commit.Mentions
                 (Commit.with_Refs (uniqRefs (Commit.Refs c1)) c1)))
                 (Commit.with_Refs (uniqRefs (Commit.Refs c1)) c1))
            = Commit.Hash c1) as -> by (by destruct c1).
    unfold diffTreeArgs. destruct (Commit.Hash c1) as [h|] eqn:Hh.
    + destruct (Exec (client p) "diff-tree" _ w1) as [[out|err] w2] eqn:Hexec.
      * split; [done|]. intros (c & w3 & h' & [= <- <-] & Hh' & Hexec').
        rewrite Hh in Hh'. injection Hh' as <-. rewrite Hexec in Hexec'. done.
      * split.
        -- intros [= <- <-]. by exists c1, w1, h.
        -- intros (c & w3 & h' & [= <- <-] & Hh' & Hexec').
           rewrite Hh in Hh'. injection Hh' as <-. rewrite Hexec in Hexec'.
           by injection Hexec' as <- <-.
    + split; [done|]. intros (c & w3 & h' & [= <- <-] & Hh' & _). congruence.
  - split; [done|]. intros (c & w3 & h' & [=] & _).
Qed.

(** After a record is parsed, the loop goes on with the rest from some
    slice and some state that do not depend on the rest. *)
Lemma parseLoop_cons p i (line : string) (rest : list string) commits w :
  match parseCommit p line w with
  | (Ok commit, w0) =>
      exists commits1 w1,
        forall rest, parseLoop p i (line :: rest) commits w
                     = parseLoop p (S i) rest commits1 w1
  | (Err e, w0) => forall rest, parseLoop p i (line :: rest) commits w = (Err e, w0)
  | (Panic x, w0) => forall rest, parseLoop p i (line :: rest) commits w = (Panic x, w0)
  end.
Proof.
  destruct (parseCommit p line w) as [[commit|e|x] w0] eqn:E.
  - destruct (Processor_ (config p)) as [processor|] eqn:Hp.
    + destruct (ProcessCommit processor commit w0) as [[c|] w1] eqn:Hc.
      * exists (<[i := Some c]> commits), w1. intros rest'. simpl.
        unfold bind, lift. by rewrite E, Hp, Hc.
      * exists commits, w1. intros rest'. simpl.
        unfold bind, lift. by rewrite E, Hp, Hc.
    + exists (<[i := Some commit]> commits), w0. intros rest'. simpl.
      unfold bind. by rewrite E, Hp.
  - intros rest'. simpl. unfold bind. by rewrite E.
  - intros rest'. simpl. unfold bind. by rewrite E.
Qed.

Lemma parseLoop_Err p (lines : list string) i commits w e w' :
  parseLoop p i lines commits w = (Err e, w')
  <-> exists pre line post commits1 w1,
        lines = pre ++ line :: post
        /\ parseLoop p i pre commits w = (Ok commits1, w1)
        /\ parseCommit p line w1 = (Err e, w').
Proof.
  revert i commits w. induction lines as [|line0 rest IH]; intros i commits w.
  - simpl. split; [done|]. intros (pre & line & post & c1 & w1 & Heq & _).
    by destruct pre.
  - pose proof (parseLoop_cons p i line0 rest commits w) as Hcons.
    destruct (parseCommit p line0 w) as [[commit|e0|x] w0] eqn:E.
    + destruct Hcons as (commits1 & w1 & Hcons). rewrite Hcons, IH. split.
      * intros (pre & line & post & c2 & w2 & -> & Hpre & Hline).
        exists (line0 :: pre), line, post, c2, w2. by rewrite Hcons.
      * intros (pre & line & post & c2 & w2 & Heq & Hpre & Hline).
        destruct pre as [|l0 pre]; simpl in Heq; injection Heq as <- ->.
        -- simpl in Hpre. injection Hpre as <- <-. congruence.
        -- rewrite Hcons in Hpre. by exists pre, line, post, c2, w2.
    + rewrite Hcons. split.
      * intros [= <- <-]. by exists [], line0, rest, commits, w.
      * intros (pre & line & post & c2 & w2 & Heq & Hpre & Hline).
        destruct pre as [|l0 pre]; simpl in Heq; injection Heq as <- ->.
        -- simpl in Hpre. injection Hpre as <- <-. congruence.
        -- rewrite Hcons in Hpre. done.
    + rewrite Hcons. split; [done|].
      intros (pre & line & post & c2 & w2 & Heq & Hpre & Hline).
      destruct pre as [|l0 pre]; simpl in Heq; injection Heq as <- ->.
      * simpl in Hpre. injection Hpre as <- <-. congruence.
      * rewrite Hcons in Hpre. done.
Qed.

(** C9. [Parse] returns an error exactly when the log query fails, or
    when, the earlier records having been parsed and kept or dropped, the
    changed-files query made for a record fails; the error returned is the
    one of the failed query.  A failed issue-tracker lookup is no error of
    the parser: [processJiraIssue] logs it and returns the commit as it
    was. *)
Theorem Parse_error p (rev : string) w e w' :
  (Parse p rev w = (Err e, w')
   <-> Exec (client p) "log" (logArgs p rev) w = (inr e, w')
       \/ exists out w0 skipped pre line post commits1 w1 commit w2 hash,
            Exec (client p) "log" (logArgs p rev) w = (inl out, w0)
            /\ strings.Split out separator = skipped :: pre ++ line :: post
            /\ parseLoop p 0 pre (replicate (length (pre ++ line :: post)) None) w0
               = (Ok commits1, w1)
            /\ parseTokens p Commit.zero (strings.Split line delimiter) w1
               = (Ok commit, w2)
            /\ Commit.Hash commit = Some hash
            /\ Exec (client p) "diff-tree" (diffTreeArgs hash) w2 = (inr e, w'))
  /\ (forall commit issueID w1 err w2,
        GetJiraIssue (jiraClient p) (Commit.JiraIssueID commit) w1 = (inr err, w2) ->
        processJiraIssue p commit issueID w1
        = (commit,
           Logger_Error (logger p)
             ("Failed to parse Jira story " +:+ issueID +:+ ": " +:+ err +:+ NL) w2)).
Proof.
  split.
  - unfold Parse.
    destruct (Exec (client p) "log" (logArgs p rev) w) as [[out|err] w0] eqn:Hlog.
    + destruct (strings.Split out separator) as [|skipped lines] eqn:Hsplit.
      * split; [intros [=]|].
        intros [[=]|(out' & w0' & sk & pre & line & post & c1 & w1 & commit & w2
                       & hash & [= <- <-] & Heq & _)].
        rewrite Hsplit in Heq. discriminate Heq.
      * rewrite parseLoop_Err. split.
        -- intros (pre & line & post & c1 & w1 & -> & Hpre & Hline).
           apply parseCommit_Err in Hline as (commit & w2 & hash & Htok & Hh & Hexec).
           right. by exists out, w0, skipped, pre, line, post, c1, w1, commit, w2, hash.
        -- intros [[=]|(out' & w0' & sk & pre & line & post & c1 & w1 & commit & w2
                          & hash & [= <- <-] & Heq & Hpre & Htok & Hh & Hexec)].
           rewrite Hsplit in Heq. injection Heq as <- ->.
           exists pre, line, post, c1, w1. split; [done|]. split; [done|].
           apply parseCommit_Err. by exists commit, w2, hash.
    + split.
      * intros [= <- <-]. by left.
      * intros [[= <- <-]|(out' & w0' & sk & pre & line & post & c1 & w1 & commit & w2
                             & hash & [=] & _)]. done.
  - intros commit issueID w1 err w2 Hget. unfold processJiraIssue. by rewrite Hget.
Qed.

End ErrorProperties.

(** *** Sub-commits *)

Section SubCommitProperties.

Context {W : Type}.
Implicit Types (p : @commitParser W) (w : W) (commit : Commit.t) (st : bodyState).

Lemma assignDynamicValues_frame commit (attrs values : list string) :
  frame (assignDynamicValues commit attrs values) = frame commit.
Proof.
  revert commit values. induction attrs as [|field attrs IH]; intros commit values;
    [done|].
  destruct values as [|v values]; [done|]. simpl. rewrite IH.
  unfold SetString, Commit_Dynamic.
  repeat (destruct (String.eqb field _); [by destruct commit|]). done.
Qed.

Lemma enrich_frame p commit w : frame (enrich p commit w).1 = frame commit.
Proof.
  unfold enrich. destruct (String.eqb _ ""); [done|]. unfold processJiraIssue.
  destruct (GetJiraIssue _ _ _) as [[issue|err] w1]; [|done]. by destruct commit.
Qed.

Lemma processHeader_frame p commit (input : string) w :
  frame (processHeader p commit input w).1 = frame commit.
Proof.
  unfold processHeader. rewrite enrich_frame.
  destruct (FindAllStringSubmatch (reRevert p) input);
    destruct (FindAllStringSubmatch (reMerge p) input);
    destruct (FindAllStringSubmatch (reHeader p) input);
    unfold frame; simpl;
    try match goal with
        | |- context [assignDynamicValues (Commit.with_Header input commit) ?a ?v] =>
            pose proof (assignDynamicValues_frame (Commit.with_Header input commit) a v)
              as Hdyn;
            unfold frame in Hdyn;
            destruct (assignDynamicValues (Commit.with_Header input commit) a v);
            simpl in Hdyn |- *; rewrite Hdyn
        end;
    by destruct commit.
Qed.

Lemma extractLineMetadata_frame p commit line :
  frame (extractLineMetadata p commit line).2 = frame commit.
Proof.
  unfold extractLineMetadata.
  destruct (Nat.ltb 0 (length (parseRefs p line)));
    destruct (Nat.ltb 0 (length (parseMentions p line)));
    destruct (Nat.ltb 0 (length (parseCoAuthors p line)));
    destruct (Nat.ltb 0 (length (parseSigners p line)));
    by destruct commit.
Qed.

Lemma bodyLine_frame p st line st' :
  bodyLine p st line = Ok st' -> frame (bs_commit st') = frame (bs_commit st).
Proof.
  unfold bodyLine.
  pose proof (extractLineMetadata_frame p (bs_commit st) line) as Hmeta.
  destruct (extractLineMetadata p (bs_commit st) line) as [meta c1]. simpl in Hmeta.
  assert (forall c (trim inNote : bool),
             frame c = frame (bs_commit st) ->
             obind
               (if Nat.ltb 0 (length (FindAllStringSubmatch (reNotes p) line)) then
                  Ok (Commit.with_Notes
                        (Commit.Notes c ++
                           map (fun r => {| Note_Title := sub r 1; Note_Body := sub r 2 |})
                             (FindAllStringSubmatch (reNotes p) line))
                        c, true, true)
                else if inNote then
                  obind (appendToLastNote (Commit.Notes c) line) (fun notes =>
                    Ok (Commit.with_Notes notes c, trim, inNote))
                else Ok (c, trim, inNote))
               (fun '(commit, trim, inNote) =>
                  Ok {| bs_commit := commit;
                        bs_inNote := inNote;
                        bs_trim := trim;
                        bs_fenceDetector := Update (bs_fenceDetector st) line;
                        bs_trimmedBody :=
                          if negb trim then bs_trimmedBody st ++ [line]
                          else bs_trimmedBody st |})
             = Ok st' ->
             frame (bs_commit st') = frame (bs_commit st)) as Hrest.
  { intros c trim inNote Hc.
    destruct (Nat.ltb 0 _); simpl.
    - intros [= <-]. simpl. rewrite <- Hc. by destruct c.
    - destruct inNote; simpl.
      + destruct (appendToLastNote (Commit.Notes c) line); simpl; try done.
        intros [= <-]. simpl. rewrite <- Hc. by destruct c.
      + intros [= <-]. done. }
  destruct (negb (InCodeblock (Update (bs_fenceDetector st) line))).
  - destruct meta.
    + apply (Hrest c1 true false Hmeta).
    + apply (Hrest c1 (if negb (bs_inNote st) then false else bs_trim st)
               (bs_inNote st) Hmeta).
  - apply (Hrest (bs_commit st) (if negb (bs_inNote st) then false else bs_trim st)
             (bs_inNote st) eq_refl).
Qed.

Lemma bodyLines_frame p (lines : list string) st st' :
  bodyLines p st lines = Ok st' -> frame (bs_commit st') = frame (bs_commit st).
Proof.
  revert st. induction lines as [|line rest IH]; intros st; simpl.
  - by intros [= <-].
  - destruct (bodyLine p st line) as [st1| |] eqn:E; simpl; try done.
    intros Hrest. rewrite (IH _ Hrest). by apply (bodyLine_frame p st line).
Qed.

Lemma processBodyLines_frame p commit (input : string) commit' :
  processBodyLines p commit input = Ok commit' -> frame commit' = frame commit.
Proof.
  unfold processBodyLines.
  destruct (bodyLines p _ _) as [st'| |] eqn:E; simpl; try done.
  intros [= <-]. apply bodyLines_frame in E. simpl in E.
  transitivity (frame (bs_commit st')); [by destruct (bs_commit st')|].
  rewrite E. by destruct commit.
Qed.

Lemma assignDynamicValues_carried commit (attrs values : list string) :
  carried (assignDynamicValues commit attrs values) = carried commit.
Proof.
  revert commit values. induction attrs as [|field attrs IH]; intros commit values;
    [done|].
  destruct values as [|v values]; [done|]. simpl. rewrite IH.
  unfold SetString, Commit_Dynamic.
  repeat (destruct (String.eqb field _); [by destruct commit|]). done.
Qed.

Lemma enrich_carried p commit w : carried (enrich p commit w).1 = carried commit.
Proof.
  unfold enrich. destruct (String.eqb _ ""); [done|]. unfold processJiraIssue.
  destruct (GetJiraIssue _ _ _) as [[issue|err] w1]; [|done]. by destruct commit.
Qed.

(** What holds of C1 in [processBody]: a sub-commit has the hash, author,
    committer and changed files its parent has when the body is processed,
    and the references and mentions of its own line. *)
Lemma subCommitOf_inherits p commit (i : string) w subCommit w' :
  subCommitOf p commit i w = (Some subCommit, w') ->
  carried subCommit
  = (Commit.Hash commit, Commit.Author commit, Commit.Committer commit,
     Commit.ChangedFiles commit, parseRefs p i, parseMentions p i).
Proof.
  unfold subCommitOf. destruct (FindAllStringSubmatch (reHeader p) i) as [|res0 res];
    [done|].
  unfold sbind, sret.
  match goal with
  | |- context [enrich p ?c w] =>
      pose proof (enrich_carried p c w) as Henrich;
      destruct (enrich p c w) as [sc w1]; cbn [fst] in Henrich;
      assert (carried c
              = (Commit.Hash commit, Commit.Author commit, Commit.Committer commit,
                 Commit.ChangedFiles commit, parseRefs p i, parseMentions p i)) as Hc
  end.
  { match goal with
    | |- context [assignDynamicValues ?c0 ?a ?v] =>
        pose proof (assignDynamicValues_carried c0 a v) as Hdyn;
        destruct (assignDynamicValues c0 a v) as []; unfold carried in Hdyn;
        simpl in Hdyn; injection Hdyn as -> -> -> -> -> ->
    end.
    destruct (parseRefs p i) as [|r rs]; destruct (parseMentions p i) as [|m ms];
      done. }
  intros [= <- <-]. by rewrite Henrich.
Qed.

Lemma noChangedFiles_frame commit commit' :
  frame commit' = frame commit -> noChangedFiles commit -> noChangedFiles commit'.
Proof. unfold frame, noChangedFiles. intros [= -> ->]. done. Qed.

Lemma subCommitLoop_noChangedFiles p (inputs : list string) commit w :
  noChangedFiles commit -> noChangedFiles (subCommitLoop p commit inputs w).1.
Proof.
  revert commit w. induction inputs as [|i rest IH]; intros commit w Hinv; [done|].
  simpl. unfold sbind.
  destruct (subCommitOf p commit i w) as [[sc|] w1] eqn:E; [|by apply IH].
  apply IH. apply subCommitOf_inherits in E. unfold carried in E.
  injection E as _ _ _ E _ _. destruct Hinv as [Hc Hsubs].
  split; [by destruct commit|].
  assert (Commit.SubCommits
            (Commit.with_SubCommits (Commit.SubCommits commit ++ [sc]) commit)
          = Commit.SubCommits commit ++ [sc]) as -> by (by destruct commit).
  apply Forall_app. split; [done|]. constructor; [congruence | constructor].
Qed.

Lemma parseToken_noChangedFiles p commit (token : string) w commit' w' :
  parseToken p commit token w = (Ok commit', w') ->
  noChangedFiles commit -> noChangedFiles commit'.
Proof.
  unfold parseToken, pure, lift, ret.
  destruct (_ <? 0)%Z; [done|].
  set (field := strings.take _ token). set (value := strings.TrimSpace _).
  destruct (String.eqb field hashField).
  { destruct (parseHash value); simpl; try done.
    intros [= <- <-]. apply noChangedFiles_frame. by destruct commit. }
  destruct (String.eqb field authorField).
  { destruct (parseAuthor value); simpl; try done.
    intros [= <- <-]. apply noChangedFiles_frame. by destruct commit. }
  destruct (String.eqb field committerField).
  { unfold parseCommitter. destruct (parseAuthor value); simpl; try done.
    intros [= <- <-]. apply noChangedFiles_frame. by destruct commit. }
  destruct (String.eqb field subjectField).
  { pose proof (processHeader_frame p commit value w) as Hframe.
    destruct (processHeader p commit value w) as [c1 w1].
    intros [= <- <-]. by apply noChangedFiles_frame. }
  destruct (String.eqb field bodyField).
  { unfold processBody, bind, lift, pure. intros Hbody Hinv.
    assert (forall c2, noChangedFiles c2 ->
               forall commit'',
                 processBodyLines p c2 (convNewline value NL) = Ok commit'' ->
                 noChangedFiles commit'') as Hlines.
    { intros c2 Hc2 c3 Hc3. apply processBodyLines_frame in Hc3.
      by apply (noChangedFiles_frame c2). }
    assert (noChangedFiles (Commit.with_Body (convNewline value NL) commit)) as Hb.
    { apply (noChangedFiles_frame commit); [by destruct commit | done]. }
    destruct (MultilineCommit (config p)).
    - pose proof (subCommitLoop_noChangedFiles p
                    (strings.Split
                       (ReplaceAllString_empty (reNotes p) (convNewline value NL)) NL)
                    _ w Hb) as Hloop.
      destruct (subCommitLoop p _ _ w) as [c2 w2]. simpl in Hloop.
      destruct (processBodyLines p c2 (convNewline value NL)) as [c3| |] eqn:E;
        try done.
      injection Hbody as <- <-. by apply (Hlines c2).
    - unfold sret in Hbody.
      destruct (processBodyLines p _ (convNewline value NL)) as [c3| |] eqn:E;
        try done.
      injection Hbody as <- <-. by apply (Hlines _ Hb). }
  by intros [= <- <-].
Qed.

Lemma parseTokens_noChangedFiles p (tokens : list string) commit w commit' w' :
  parseTokens p commit tokens w = (Ok commit', w') ->
  noChangedFiles commit -> noChangedFiles commit'.
Proof.
  revert commit w. induction tokens as [|token rest IH]; intros commit w; simpl.
  - by intros [= <- <-].
  - unfold bind. destruct (parseToken p commit token w) as [[c1| |] w1] eqn:E;
      try done.
    intros Hrest Hinv. apply (IH _ _ Hrest).
    by apply (parseToken_noChangedFiles p commit token w c1 w1).
Qed.

(** Whatever the record and the answers of the collaborators, no sub-commit
    of a commit that [parseCommit] returns has changed files: the copy in
    [processBody] runs before [parseCommit] fetches them for the parent. *)
Lemma parseCommit_subCommits_ChangedFiles p (input : string) w commit w' :
  parseCommit p input w = (Ok commit, w') ->
  Forall (fun sub => Commit.ChangedFiles sub = []) (Commit.SubCommits commit).
Proof.
  unfold parseCommit, bind.
  destruct (parseTokens p Commit.zero _ w) as [[c1| |] w1] eqn:E; try done.
  apply parseTokens_noChangedFiles in E as [_ Hsubs]; [|by split].
  destruct (Commit.Hash _); [|done]. destruct (Exec _ _ _ _) as [[out|err] w2]; [|done].
  intros [= <- <-]. destruct (Nat.ltb 0 _); by destruct c1.
Qed.

End SubCommitProperties.

(** *** Samples of the parser *)

(** C1 on a sample. With multiline splitting on, the body line
    "fix: two #2 @bob" of the record becomes a sub-commit with the parent's
    hash, its own header, references and mentions, but with no changed
    files, while the parent has the two files of the changed-files query:
    [processBody] copies [ChangedFiles] before [parseCommit] has fetched
    them. *)
Lemma subCommit_ChangedFiles_not_inherited :
  match (Parse (Sample.parser true None
                  (Sample.record "a1" "feat: one" "fix: two #2 @bob"))
               "HEAD" []).1 with
  | Ok [Some commit] =>
      Some (Commit.ChangedFiles commit,
            map (fun sub =>
                   (Commit.Header sub, Commit.Hash sub, Commit.Refs sub,
                    Commit.Mentions sub, Commit.ChangedFiles sub))
                (Commit.SubCommits commit))
  | _ => None
  end
  = Some (["a.go"; "b.go"],
          [("fix: two #2 @bob",
            Some {| Hash_Long := "a1a1"; Hash_Short := "a1" |},
            [{| Ref_Action := ""; Ref_Source := ""; Ref_Ref := "2" |}],
            ["bob"],
            [])]).
Proof. vm_compute. reflexivity. Qed.

(** C2 on a sample. With a post-processor that drops the commits of type
    chore, the log of a chore commit followed by a feat commit parses to a
    sequence of two entries, the first of them nil; the filter, and with it
    the extractor, panics on that sequence. *)
Lemma Parse_leaves_nil_entry :
  match (Parse (Sample.parser false (Some Sample.dropChores)
                  (Sample.record "a1" "chore: tidy" "" +:+
                   Sample.record "b2" "feat: new" ""))
               "HEAD" []).1 with
  | Ok commits =>
      Some (map (fun entry => Commit.Header <$> entry) commits,
            commitFilter dotGetCommitModel commits ∅ false)
  | _ => None
  end
  = Some ([None; Some "feat: new"], Panic NilDereference).
Proof. vm_compute. reflexivity. Qed.

(** C9 on samples: a failing changed-files query for the second record
    makes [Parse] return that error; the issue tracker being down does
    not, the failed lookup is logged and the commit left as it was. *)
Lemma Parse_error_witness :
  Parse (newCommitParser Sample.logSink
           (Sample.failingDiffClient
              (Sample.record "a1" "feat: one" "" +:+ Sample.record "b2" "fix: two" "")
              "b2")
           Sample.jiraDown (Sample.options false None ∅))
        "HEAD" []
  = (Err "diff-tree failed", [])
  /\ processJiraIssue (Sample.parser false None "")
       (Commit.with_JiraIssueID "J-1" Commit.zero) "J-1" []
     = (Commit.with_JiraIssueID "J-1" Commit.zero,
        ["Failed to parse Jira story J-1: jira unreachable" +:+ NL]).
Proof.
  split.
  - apply (proj1 (Parse_error _ "HEAD" [] "diff-tree failed" [])).
    right.
    exists (Sample.record "a1" "feat: one" "" +:+ Sample.record "b2" "fix: two" ""),
      [], "", [Sample.fields "a1" "feat: one" ""], (Sample.fields "b2" "fix: two" ""),
      [].
    eexists _, [], _, [], {| Hash_Long := "b2b2"; Hash_Short := "b2" |}.
    split; [reflexivity|]. split; [vm_compute; reflexivity|].
    split; [vm_compute; reflexivity|]. split; [vm_compute; reflexivity|].
    split; reflexivity.
  - exact (proj2 (Parse_error (Sample.parser false None "") "HEAD" [] "" [])
             (Commit.with_JiraIssueID "J-1" Commit.zero) "J-1" []
             "jira unreachable" [] eq_refl).
Defined.

(** The scenario of the specification through [Extract]: two feat commits
    and one fix commit, grouped by type under the custom order fix, feat,
    give the groups fix (one commit) and feat (two commits). *)
Lemma Extract_scenario :
  match Extract dotGetCommitModel dotGetGroupModel compareModel sortModel sortModel
          (newCommitExtractor (Sample.options false None ∅))
          [Some (Sample.commitOfType "feat"); Some (Sample.commitOfType "feat");
           Some (Sample.commitOfType "fix")]
  with
  | Ok (commitGroups, _, _, _) =>
      map (fun g => (CommitGroup_RawTitle g, CommitGroup_Title g,
                     length (CommitGroup_Commits g))) commitGroups
  | _ => []
  end
  = [("fix", "Fix", 1); ("feat", "Feat", 2)].
Proof. vm_compute. reflexivity. Qed.

(** ** Further properties of the parser *)

(** *** [strings.Split] and [strings.Index] *)

Lemma Index_ge (s sub : string) : (-1 <= strings.Index s sub)%Z.
Proof.
  induction s as [|a s IH]; cbn [strings.Index].
  - destruct (strings.HasPrefix "" sub); lia.
  - destruct (strings.HasPrefix (String a s) sub); [lia|].
    destruct (strings.Index s sub <? 0)%Z eqn:E; [lia|]. apply Z.ltb_ge in E. lia.
Qed.

Lemma HasPrefix_length (s prefix : string) :
  strings.HasPrefix s prefix = true -> String.length prefix <= String.length s.
Proof.
  revert s. induction prefix as [|a p IH]; intros s.
  - intros _. simpl. lia.
  - destruct s as [|b s]; simpl; [done|]. destruct (Ascii.eqb a b); [|done].
    intros H%IH. lia.
Qed.

Lemma split_go_skip (sep : string) (k : nat) (cur : list ascii) (s : string) :
  k <= String.length s ->
  strings.split_go sep k cur s = strings.split_go sep 0 cur (strings.drop k s).
Proof.
  revert s. induction k as [|k IH]; intros s Hk.
  - by destruct s.
  - destruct s as [|a s]; simpl in Hk; [lia|]. simpl. apply IH. lia.
Qed.

Lemma split_go_Index (c0 : ascii) (sep' : string) (s : string) (cur : list ascii) :
  let sep := String c0 sep' in
  strings.split_go sep 0 cur s
  = if (strings.Index s sep <? 0)%Z then [strings.rev_to_string cur s]
    else strings.rev_to_string cur (strings.take (Z.to_nat (strings.Index s sep)) s)
         :: strings.split_go sep 0 []
              (strings.drop (Z.to_nat (strings.Index s sep) + String.length sep) s).
Proof.
  intros sep. revert cur. induction s as [|a s IH]; intros cur.
  - reflexivity.
  - cbn [strings.split_go strings.Index].
    destruct (strings.HasPrefix (String a s) sep) eqn:Hp.
    + cbn [Z.ltb Z.compare Z.to_nat strings.take Nat.add].
      rewrite split_go_skip.
      * f_equal. subst sep. simpl. by rewrite Nat.sub_0_r.
      * apply HasPrefix_length in Hp. subst sep. simpl in *. lia.
    + rewrite IH. pose proof (Index_ge s sep) as Hge.
      destruct (strings.Index s sep <? 0)%Z eqn:E.
      * reflexivity.
      * apply Z.ltb_ge in E.
        assert ((strings.Index s sep + 1 <? 0)%Z = false) as -> by (apply Z.ltb_ge; lia).
        replace (Z.to_nat (strings.Index s sep + 1))
          with (S (Z.to_nat (strings.Index s sep))) by lia.
        reflexivity.
Qed.

(** [Split] proceeds as Go's [genSplit]: up to the first occurrence of the
    separator, then on what follows it. *)
Lemma Split_Index (c0 : ascii) (sep' : string) (s : string) :
  let sep := String c0 sep' in
  strings.Split s sep
  = if (strings.Index s sep <? 0)%Z then [s]
    else strings.take (Z.to_nat (strings.Index s sep)) s
         :: strings.Split
              (strings.drop (Z.to_nat (strings.Index s sep) + String.length sep) s) sep.
Proof. intros sep. unfold strings.Split. subst sep. apply split_go_Index. Qed.

Lemma take_append (a b : string) : strings.take (String.length a) (a +:+ b) = a.
Proof. induction a as [|x a IH]; simpl; [by destruct b | by rewrite IH]. Qed.

Lemma drop_append_byte (a : string) (c : ascii) (rest : string) :
  strings.drop (String.length a + 1) (a +:+ String c rest) = rest.
Proof. induction a as [|x a IH]; simpl; [by destruct rest | done]. Qed.

Lemma HasPrefix_byte (c x : ascii) (s : string) :
  strings.HasPrefix (String x s) (String c "") = Ascii.eqb c x.
Proof. simpl. destruct (Ascii.eqb c x); [by destruct s | done]. Qed.

(** The first occurrence of a one-byte separator after a text that has
    none. *)
Lemma Index_append_byte (c : ascii) (a rest : string) :
  (strings.Index a (String c "") < 0)%Z ->
  strings.Index (a +:+ String c rest) (String c "") = Z.of_nat (String.length a).
Proof.
  induction a as [|x a IH].
  - intros _. change ("" +:+ String c rest) with (String c rest).
    cbn [strings.Index]. by rewrite HasPrefix_byte, Ascii.eqb_refl.
  - change (String x a +:+ String c rest) with (String x (a +:+ String c rest)).
    cbn [strings.Index]. rewrite !HasPrefix_byte.
    destruct (Ascii.eqb c x); [lia|].
    pose proof (Index_ge a (String c "")) as Hge.
    destruct (strings.Index a (String c "") <? 0)%Z eqn:E.
    + intros _. apply Z.ltb_lt in E. rewrite (IH E).
      assert ((Z.of_nat (String.length a) <? 0)%Z = false) as ->
          by (apply Z.ltb_ge; lia).
      simpl String.length. lia.
    + apply Z.ltb_ge in E. lia.
Qed.

Lemma Split_cons (a rest : string) :
  (strings.Index a TAB < 0)%Z ->
  strings.Split (a +:+ TAB +:+ rest) TAB = a :: strings.Split rest TAB.
Proof.
  intros Ha. unfold TAB in *.
  change (a +:+ String "009" "" +:+ rest) with (a +:+ String "009" rest).
  rewrite Split_Index. cbn zeta. rewrite (Index_append_byte _ a rest Ha).
  assert ((Z.of_nat (String.length a) <? 0)%Z = false) as -> by (apply Z.ltb_ge; lia).
  rewrite Nat2Z.id, take_append. f_equal.
  change (String.length (String "009" "")) with 1. by rewrite drop_append_byte.
Qed.

Lemma Split_none (a : string) :
  (strings.Index a TAB < 0)%Z -> strings.Split a TAB = [a].
Proof.
  intros Ha. unfold TAB in *. rewrite Split_Index. cbn zeta.
  apply Z.ltb_lt in Ha. by rewrite Ha.
Qed.

(** *** [uniqRefs] and [uniqMentions] *)

Section Uniq.

Context {A : Type} (same : A -> A -> bool).
Hypothesis same_eq : forall x y, same x y = true <-> x = y.

Lemma existsb_same (x : A) (arr : list A) : existsb (same x) arr = true <-> x ∈ arr.
Proof.
  rewrite existsb_exists. split.
  - intros (y & Hin & ->%same_eq). by apply list_elem_of_In.
  - intros Hin. exists x. split; [by apply list_elem_of_In | by apply same_eq].
Qed.

Lemma uniqFrom_elem (l acc : list A) (x : A) :
  x ∈ uniqLoop same acc l <-> x ∈ acc \/ x ∈ l.
Proof.
  unfold uniqLoop. revert acc. induction l as [|y l IH]; intros acc; simpl.
  - rewrite elem_of_nil. tauto.
  - rewrite IH, elem_of_cons. destruct (existsb (same y) acc) eqn:E; simpl.
    + apply existsb_same in E. split; [tauto|]. intros [H|[->|H]]; tauto.
    + rewrite elem_of_app, list_elem_of_singleton. tauto.
Qed.

Lemma uniqFrom_prefix (l acc : list A) : acc `prefix_of` uniqLoop same acc l.
Proof.
  unfold uniqLoop. revert acc. induction l as [|y l IH]; intros acc; simpl; [done|].
  destruct (existsb (same y) acc); simpl; [apply IH|].
  etrans; [|apply IH]. by apply prefix_app_r.
Qed.

Lemma uniqFrom_sublist (l acc : list A) : sublist (uniqLoop same acc l) (acc ++ l).
Proof.
  unfold uniqLoop. revert acc. induction l as [|y l IH]; intros acc; simpl.
  - by rewrite app_nil_r.
  - destruct (existsb (same y) acc); simpl.
    + etrans; [apply IH|]. apply sublist_app; [done|]. by apply sublist_cons.
    + etrans; [apply IH|]. by rewrite <- app_assoc.
Qed.

Lemma uniqFrom_NoDup_id (l acc : list A) :
  NoDup (acc ++ l) -> uniqLoop same acc l = acc ++ l.
Proof.
  unfold uniqLoop. revert acc. induction l as [|y l IH]; intros acc Hnd; simpl.
  - by rewrite app_nil_r.
  - destruct (existsb (same y) acc) eqn:E; simpl.
    + apply existsb_same in E. apply NoDup_app in Hnd as (_ & Hdisj & _).
      exfalso. apply (Hdisj y E). by left.
    + rewrite IH; rewrite <- app_assoc; done.
Qed.

(** What both de-duplication loops do: no entry twice, the same entries,
    in the order of their first occurrence, and nothing to do on a list
    without repetition. *)
Lemma uniq_spec (l : list A) :
  NoDup (uniqLoop same [] l)
  /\ (forall x, x ∈ uniqLoop same [] l <-> x ∈ l)
  /\ sublist (uniqLoop same [] l) l
  /\ (forall l1 l2, l = l1 ++ l2 -> uniqLoop same [] l1 `prefix_of` uniqLoop same [] l)
  /\ (NoDup l -> uniqLoop same [] l = l)
  /\ uniqLoop same [] (uniqLoop same [] l) = uniqLoop same [] l.
Proof.
  assert (NoDup (uniqLoop same [] l)) as Hnd.
  { apply fold_left_uniq_NoDup; [intros x; by apply same_eq | constructor]. }
  split; [done|]. split.
  { intros x. rewrite uniqFrom_elem, elem_of_nil. tauto. }
  split; [apply (uniqFrom_sublist l [])|]. split.
  { intros l1 l2 ->. unfold uniqLoop at 2. rewrite fold_left_app.
    apply uniqFrom_prefix. }
  split; [intros H; by apply (uniqFrom_NoDup_id l [])|].
  by apply (uniqFrom_NoDup_id _ []).
Qed.

End Uniq.

Lemma sameRef_eq (ref r : Ref) : sameRef ref r = true <-> ref = r.
Proof.
  destruct ref, r. unfold sameRef. simpl.
  rewrite !andb_true_iff, !String.eqb_eq. split; [intros [[-> ->] ->] | intros [=]]; done.
Qed.

(** [uniqRefs] returns the references without repetition, each at the place
    of its first occurrence: the result has no (Action, Source, Ref) twice,
    the same entries as the input, is a sub-list of it, extends the result
    for every beginning of the input, and is the input itself when that has
    no repetition; so applying it twice changes nothing. *)
Theorem uniqRefs_spec (refs : list Ref) :
  NoDup (uniqRefs refs)
  /\ (forall ref, ref ∈ uniqRefs refs <-> ref ∈ refs)
  /\ sublist (uniqRefs refs) refs
  /\ (forall l1 l2, refs = l1 ++ l2 -> uniqRefs l1 `prefix_of` uniqRefs refs)
  /\ (NoDup refs -> uniqRefs refs = refs)
  /\ uniqRefs (uniqRefs refs) = uniqRefs refs.
Proof. apply (uniq_spec sameRef sameRef_eq). Qed.

(** [uniqMentions] returns the mentions without repetition, each at the
    place of its first occurrence, with the same laws as [uniqRefs]. *)
Theorem uniqMentions_spec (mentions : list string) :
  NoDup (uniqMentions mentions)
  /\ (forall m, m ∈ uniqMentions mentions <-> m ∈ mentions)
  /\ sublist (uniqMentions mentions) mentions
  /\ (forall l1 l2,
        mentions = l1 ++ l2 -> uniqMentions l1 `prefix_of` uniqMentions mentions)
  /\ (NoDup mentions -> uniqMentions mentions = mentions)
  /\ uniqMentions (uniqMentions mentions) = uniqMentions mentions.
Proof. apply (uniq_spec String.eqb String.eqb_eq). Qed.

(** *** The fence detector as a state machine *)

Lemma HasPrefix_first (line : string) (c1 c2 : ascii) (r1 r2 : string) :
  c1 ≠ c2 ->
  strings.HasPrefix line (String c1 r1) = true ->
  strings.HasPrefix line (String c2 r2) = false.
Proof.
  intros Hne. destruct line as [|a line]; simpl; [done|].
  destruct (Ascii.eqb_spec c1 a) as [->|]; [|done].
  destruct (Ascii.eqb_spec c2 a) as [->|]; done.
Qed.

Lemma Update_toggle (d : mdFenceDetector) (line : string) :
  (-1 <= fence d <= 3)%Z ->
  (-1 <= fence (Update d line) <= 3)%Z /\ Update (Update d line) line = d.
Proof.
  destruct d as [f]. simpl. intros Hf.
  assert (f = -1 \/ f = 0 \/ f = 1 \/ f = 2 \/ f = 3)%Z
    as [ -> | [ -> | [ -> | [ -> | -> ] ] ] ] by lia.
  - change {| fence := -1 |} with newMdFenceDetector. rewrite Update_outside.
    destruct (strings.HasPrefix line "```") eqn:H0.
    { split; [simpl; lia|]. rewrite (Update_inside _ "```"); [|simpl; lia|done].
      by rewrite H0. }
    destruct (strings.HasPrefix line "~~~") eqn:H1.
    { split; [simpl; lia|]. rewrite (Update_inside _ "~~~"); [|simpl; lia|done].
      by rewrite H1. }
    destruct (strings.HasPrefix line "    ") eqn:H2.
    { split; [simpl; lia|]. rewrite (Update_inside _ "    "); [|simpl; lia|done].
      by rewrite H2. }
    destruct (strings.HasPrefix line TAB) eqn:H3.
    { split; [simpl; lia|]. rewrite (Update_inside _ TAB); [|simpl; lia|done].
      by rewrite H3. }
    split; [simpl; lia|]. rewrite Update_outside.
    unfold TAB in *. by rewrite H0, H1, H2, H3.
  - rewrite (Update_inside _ "```"); [|simpl; lia|done].
    destruct (strings.HasPrefix line "```") eqn:H0.
    + split; [simpl; lia|]. change {| fence := -1 |} with newMdFenceDetector.
      by rewrite Update_outside, H0.
    + split; [simpl; lia|]. rewrite (Update_inside _ "```"); [|simpl; lia|done].
      by rewrite H0.
  - rewrite (Update_inside _ "~~~"); [|simpl; lia|done].
    destruct (strings.HasPrefix line "~~~") eqn:H1.
    + split; [simpl; lia|]. change {| fence := -1 |} with newMdFenceDetector.
      rewrite Update_outside, H1.
      by rewrite (HasPrefix_first line "~" "`" "~~" "``" ltac:(done) H1).
    + split; [simpl; lia|]. rewrite (Update_inside _ "~~~"); [|simpl; lia|done].
      by rewrite H1.
  - rewrite (Update_inside _ "    "); [|simpl; lia|done].
    destruct (strings.HasPrefix line "    ") eqn:H2.
    + split; [simpl; lia|]. change {| fence := -1 |} with newMdFenceDetector.
      rewrite Update_outside, H2.
      rewrite (HasPrefix_first line " " "`" "   " "``" ltac:(done) H2).
      by rewrite (HasPrefix_first line " " "~" "   " "~~" ltac:(done) H2).
    + split; [simpl; lia|]. rewrite (Update_inside _ "    "); [|simpl; lia|done].
      by rewrite H2.
  - rewrite (Update_inside _ TAB); [|simpl; lia|done].
    destruct (strings.HasPrefix line TAB) eqn:H3.
    + split; [simpl; lia|]. change {| fence := -1 |} with newMdFenceDetector.
      rewrite Update_outside, H3. unfold TAB in H3.
      rewrite (HasPrefix_first line "009" "`" "" "``" ltac:(done) H3).
      rewrite (HasPrefix_first line "009" "~" "" "~~" ltac:(done) H3).
      by rewrite (HasPrefix_first line "009" " " "" "   " ltac:(done) H3).
    + split; [simpl; lia|]. rewrite (Update_inside _ TAB); [|simpl; lia|done].
      by rewrite H3.
Qed.

(** Whatever lines the detector has seen, its state is "no fence" (-1) or
    the number of one of the four marker types; feeding it the same line
    twice restores the state (the line opens and closes, or closes and
    reopens, or does nothing); and a line that begins with none of the
    markers never changes the state. *)
Theorem fenceDetector_states (lines : list string) (line : string) :
  let d := fold_left Update lines newMdFenceDetector in
  (-1 <= fence d <= 3)%Z
  /\ Update (Update d line) line = d
  /\ (Forall (fun marker => strings.HasPrefix line marker = false) fenceTypes ->
      Update d line = d).
Proof.
  cbn zeta.
  assert (-1 <= fence (fold_left Update lines newMdFenceDetector) <= 3)%Z as Hrange.
  { induction lines as [|l lines IH] using rev_ind; [simpl; lia|].
    rewrite fold_left_app. simpl. by apply Update_toggle. }
  split; [done|]. split; [by apply Update_toggle|].
  intros Hnone. unfold fenceTypes in Hnone.
  inversion Hnone as [|? ? H0 Hn1]; subst. inversion Hn1 as [|? ? H1 Hn2]; subst.
  inversion Hn2 as [|? ? H2 Hn3]; subst. inversion Hn3 as [|? ? H3 _]; subst.
  destruct (fold_left Update lines newMdFenceDetector) as [f]. simpl in Hrange.
  assert (f = -1 \/ f = 0 \/ f = 1 \/ f = 2 \/ f = 3)%Z
    as [ -> | [ -> | [ -> | [ -> | -> ] ] ] ] by lia.
  - change {| fence := -1 |} with newMdFenceDetector.
    by rewrite Update_outside, H0, H1, H2, H3.
  - rewrite (Update_inside _ "```"); [by rewrite H0 | simpl; lia | done].
  - rewrite (Update_inside _ "~~~"); [by rewrite H1 | simpl; lia | done].
  - rewrite (Update_inside _ "    "); [by rewrite H2 | simpl; lia | done].
  - rewrite (Update_inside _ TAB); [by rewrite H3 | simpl; lia | done].
Qed.

(** *** Hash, author and committer blocks *)

(** A hash block of a long and a short hash, neither with a tab in it, is
    parsed back to exactly these two; further tab-separated components are
    ignored; and a value without a tab has no second component to read. *)
Theorem parseHash_roundtrip (long short : string) :
  (strings.Index long TAB < 0)%Z ->
  (strings.Index short TAB < 0)%Z ->
  parseHash (long +:+ TAB +:+ short)
  = Ok {| Hash_Long := long; Hash_Short := short |}
  /\ (forall more,
        parseHash (long +:+ TAB +:+ short +:+ TAB +:+ more)
        = Ok {| Hash_Long := long; Hash_Short := short |})
  /\ parseHash long = Panic IndexOutOfRange.
Proof.
  intros Hlong Hshort. unfold parseHash. split; [|split].
  - by rewrite Split_cons, Split_none.
  - intros more. by rewrite !Split_cons.
  - by rewrite Split_none.
Qed.

Lemma parseHash_roundtrip_witness :
  parseHash ("0123456789abcdef" +:+ TAB +:+ "0123456")
  = Ok {| Hash_Long := "0123456789abcdef"; Hash_Short := "0123456" |}.
Proof.
  apply (parseHash_roundtrip "0123456789abcdef" "0123456"); vm_compute; reflexivity.
Defined.

Lemma Atoi_range (s : string) (z : Z) :
  strconv.Atoi s = Some z -> (- 2 ^ 63 <= z <= 2 ^ 63 - 1)%Z.
Proof.
  assert (forall (neg : bool) (body : string),
             match body with
             | EmptyString => None
             | _ =>
                 match strconv.digits 0 body with
                 | Some n => let z := if neg then (- n)%Z else n in
                             if strconv.inInt z then Some z else None
                 | None => None
                 end
             end = Some z -> (- 2 ^ 63 <= z <= 2 ^ 63 - 1)%Z) as Hsigned.
  { intros neg body. destruct body as [|c body]; [done|].
    destruct (strconv.digits 0 (String c body)) as [n|]; [|done]. cbn zeta.
    destruct (strconv.inInt _) eqn:E; [|done]. intros [= <-].
    unfold strconv.inInt in E. apply andb_true_iff in E as [E1 E2].
    apply Z.leb_le in E1, E2. lia. }
  unfold strconv.Atoi. destruct s as [|c s]; [done|].
  pose proof (Hsigned false (String c s)) as Hplain.
  pose proof (Hsigned false s) as Hplus. pose proof (Hsigned true s) as Hminus.
  destruct c as [[] [] [] [] [] [] [] []];
    first [exact Hplain | exact Hplus | exact Hminus].
Qed.

(** An author block of a name, an e-mail address and a time stamp, none
    with a tab in it, is parsed back to the name and the address, with the
    time stamp read as a decimal number, or 0 when it is not one; the
    committer block is read the same way; and whatever the block, a parsed
    date is within the range of a 64-bit integer. *)
Theorem parseAuthor_roundtrip (name email ts : string) :
  (strings.Index name TAB < 0)%Z ->
  (strings.Index email TAB < 0)%Z ->
  (strings.Index ts TAB < 0)%Z ->
  parseAuthor (name +:+ TAB +:+ email +:+ TAB +:+ ts)
  = Ok {| Author_Name := name; Author_Email := email;
          Author_Date := default 0%Z (strconv.Atoi ts) |}
  /\ parseCommitter (name +:+ TAB +:+ email +:+ TAB +:+ ts)
     = Ok {| Committer_Name := name; Committer_Email := email;
             Committer_Date := default 0%Z (strconv.Atoi ts) |}
  /\ (forall input author,
        parseAuthor input = Ok author ->
        (- 2 ^ 63 <= Author_Date author <= 2 ^ 63 - 1)%Z).
Proof.
  intros Hname Hemail Hts.
  assert (parseAuthor (name +:+ TAB +:+ email +:+ TAB +:+ ts)
          = Ok {| Author_Name := name; Author_Email := email;
                  Author_Date := default 0%Z (strconv.Atoi ts) |}) as Hauthor.
  { unfold parseAuthor. rewrite !Split_cons, Split_none by done. simpl.
    by destruct (strconv.Atoi ts). }
  split; [done|]. split; [unfold parseCommitter; by rewrite Hauthor|].
  intros input author. unfold parseAuthor.
  destruct (strings.Split input TAB !! 2) as [at_|]; [|done].
  destruct (_ !! 0); [|done]. destruct (_ !! 1); [|done]. intros [= <-]. simpl.
  destruct (strconv.Atoi at_) as [n|] eqn:E; [by apply (Atoi_range at_) | lia].
Qed.

Lemma parseAuthor_roundtrip_witness :
  parseAuthor ("Ada Lovelace" +:+ TAB +:+ "ada@example.com" +:+ TAB +:+ "1700000000")
  = Ok {| Author_Name := "Ada Lovelace"; Author_Email := "ada@example.com";
          Author_Date := default 0%Z (strconv.Atoi "1700000000") |}.
Proof.
  apply (parseAuthor_roundtrip "Ada Lovelace" "ada@example.com" "1700000000");
    vm_compute; reflexivity.
Defined.

(** ** Further properties of the filter and of the extractor *)

(** A sequence of pointers has no nil, or a first one. *)
Lemma first_nil {A} (l : list (option A)) :
  (exists l', l = Some <$> l')
  \/ (exists pre post, l = (Some <$> pre) ++ None :: post).
Proof.
  induction l as [|[x|] l IH].
  - left. by exists [].
  - destruct IH as [[l' ->]|(pre & post & ->)].
    + left. by exists (x :: l').
    + right. by exists (x :: pre), post.
  - right. by exists [], l.
Qed.

Lemma filter_sublist_impl {A} (f g : A -> bool) (l : list A) :
  (forall x, g x = true -> f x = true) ->
  sublist (List.filter g l) (List.filter f l).
Proof.
  intros Himpl. induction l as [|x l IH]; simpl; [constructor|].
  destruct (g x) eqn:Hg.
  - rewrite (Himpl x Hg). by constructor.
  - destruct (f x); [by constructor | done].
Qed.

Section MoreFilterProperties.

Variable dotGetCommit : Commit.t -> string -> option any.

(** The filter decides commit by commit: filtering a sequence made of two
    parts gives the commits kept of the first part followed by those kept
    of the second, and panics when one of the parts makes it panic. *)
Theorem commitFilter_app (xs ys : list (option Commit.t))
        (filters : gmap string (list string)) (noCaseSensitive : bool) :
  commitFilter dotGetCommit (xs ++ ys) filters noCaseSensitive
  = obind (commitFilter dotGetCommit xs filters noCaseSensitive) (fun kept1 =>
      obind (commitFilter dotGetCommit ys filters noCaseSensitive) (fun kept2 =>
        Ok (kept1 ++ kept2))).
Proof.
  destruct (first_nil xs) as [[a ->]|(pre & post & ->)].
  - destruct (first_nil ys) as [[b ->]|(pre & post & ->)].
    + rewrite <- fmap_app, !commitFilter_Some. simpl. f_equal.
      unfold expand. by rewrite flat_map_app, List.filter_app.
    + rewrite app_assoc, <- fmap_app, commitFilter_Some.
      by rewrite !commitFilter_nil_entry.
  - rewrite <- app_assoc. simpl. by rewrite !commitFilter_nil_entry.
Qed.

(** Predicates only narrow, and case folding only widens: with more predicate
    pairs in the map the filter keeps a sub-list of what it kept, and without
    case sensitivity it keeps at least what it keeps with it. *)
Theorem commitFilter_monotone (commits : list Commit.t)
        (filters filters' : gmap string (list string)) (noCaseSensitive : bool) :
  filters ⊆ filters' ->
  (exists wide narrow,
      commitFilter dotGetCommit (Some <$> commits) filters noCaseSensitive = Ok wide
      /\ commitFilter dotGetCommit (Some <$> commits) filters' noCaseSensitive
         = Ok narrow
      /\ sublist narrow wide)
  /\ (exists exact folded,
        commitFilter dotGetCommit (Some <$> commits) filters false = Ok exact
        /\ commitFilter dotGetCommit (Some <$> commits) filters true = Ok folded
        /\ sublist exact folded).
Proof.
  intros Hsub. split.
  - eexists _, _. split; [apply commitFilter_Some|].
    split; [apply commitFilter_Some|].
    apply filter_sublist_impl. intros c. rewrite !included_true.
    intros Hall key values Hlookup. apply (Hall key values).
    by apply (lookup_weaken filters).
  - eexists _, _. split; [apply commitFilter_Some|].
    split; [apply commitFilter_Some|].
    apply filter_sublist_impl. intros c. rewrite !included_true.
    intros Hall key values Hlookup.
    destruct (Hall key values Hlookup) as (str & Hget & val & Hin & Heq).
    exists str. split; [done|]. exists val. split; [done|].
    simpl in Heq. simpl. by rewrite Heq.
Qed.

End MoreFilterProperties.

Lemma typeFilter_subseteq : Sample.typeFilter ⊆ Sample.typeSubjectFilter.
Proof. apply insert_subseteq. vm_compute. reflexivity. Qed.

(** The filter on a type and a subject predicate keeps a sub-list of what
    it keeps on the type predicate alone. *)
Lemma commitFilter_monotone_witness :
  exists wide narrow,
    commitFilter dotGetCommitModel
      (Some <$> [Sample.commitOfType "feat"; Sample.commitOfType "fix"])
      Sample.typeFilter false = Ok wide
    /\ commitFilter dotGetCommitModel
         (Some <$> [Sample.commitOfType "feat"; Sample.commitOfType "fix"])
         Sample.typeSubjectFilter false = Ok narrow
    /\ sublist narrow wide.
Proof.
  exact (proj1 (commitFilter_monotone dotGetCommitModel
                  [Sample.commitOfType "feat"; Sample.commitOfType "fix"]
                  Sample.typeFilter Sample.typeSubjectFilter false
                  typeFilter_subseteq)).
Defined.

Section MoreExtractorProperties.

Context {W : Type}.
Variable dotGetCommit : Commit.t -> string -> option any.
Variable dotGetGroup : CommitGroup -> string -> option any.
Variable compare : any -> string -> any -> result bool.
Variable sort_Slice : forall A : Type, (A -> A -> bool) -> list A -> list A.
Variable sort_SliceStable : forall A : Type, (A -> A -> bool) -> list A -> list A.

(** [Extract] returns its four results exactly when no entry of the input
    is nil, and panics on a nil dereference exactly when one is; it has no
    other outcome. *)
Theorem Extract_nil (e : @commitExtractor W) (commits : list (option Commit.t)) :
  let outcome :=
    Extract dotGetCommit dotGetGroup compare sort_Slice sort_SliceStable e commits in
  ((exists results, outcome = Ok results) <-> None ∉ commits)
  /\ (outcome = Panic NilDereference <-> None ∈ commits).
Proof.
  cbn zeta. destruct (first_nil commits) as [[l ->]|(pre & post & ->)].
  - assert (None ∉ Some <$> l) as Hnotin.
    { intros (x & Hx & _)%list_elem_of_fmap. done. }
    unfold Extract. rewrite commitFilter_Some. simpl. rewrite bucket_Some. simpl.
    destruct (fold_left _ _ _) as [gs ns].
    split; split; try done. intros _. by eexists.
  - assert (None ∈ (Some <$> pre) ++ None :: post) as Hin.
    { apply elem_of_app. right. by left. }
    unfold Extract. rewrite commitFilter_nil_entry. simpl.
    split; split; try done. intros [r [=]].
Qed.

End MoreExtractorProperties.

(** *** The commit groups *)

Lemma ToLower_empty (s : string) : strings.ToLower s = "" -> s = "".
Proof. by destruct s. Qed.

Lemma normalize_empty (noCase : bool) (s : string) :
  normalize noCase s = normalize noCase "" -> s = "".
Proof. destruct noCase; simpl; [apply ToLower_empty | done]. Qed.

Lemma fmap_alter_id {A B} (k : A -> B) (f : A -> A) (i : nat) (l : list A) :
  (forall x, k (f x) = k x) -> k <$> alter f i l = k <$> l.
Proof.
  intros Hk. revert i. induction l as [|x l IH]; intros [|i]; simpl; try done.
  - by rewrite Hk.
  - f_equal. apply IH.
Qed.

Section GroupingProperties.

Context {W : Type}.
Variable dotGetCommit : Commit.t -> string -> option any.
Variable e : @commitExtractor W.

Lemma findGroup_nomatch (raw : string) (groups : list CommitGroup) (i : nat)
      (group : option nat) :
  Forall (fun g => titleKey e g ≠ normalize (NoCaseSensitive (opts e)) raw) groups ->
  findGroup (NoCaseSensitive (opts e)) raw groups i group = group.
Proof.
  revert i group. induction groups as [|g gs IH]; intros i group Hall; [done|].
  apply Forall_cons in Hall as [Hg Hgs]. simpl.
  rewrite IH; [|done].
  destruct (String.eqb_spec
              (if NoCaseSensitive (opts e)
               then strings.ToLower (CommitGroup_RawTitle g)
               else CommitGroup_RawTitle g)
              (if NoCaseSensitive (opts e) then strings.ToLower raw else raw))
    as [Heq|]; [|done].
  by destruct Hg.
Qed.

Lemma findGroup_Some (raw : string) (groups : list CommitGroup) (i j : nat)
      (group : option nat) :
  findGroup (NoCaseSensitive (opts e)) raw groups i group = Some j ->
  group = Some j
  \/ (exists g, groups !! (j - i) = Some g /\ i <= j
               /\ titleKey e g = normalize (NoCaseSensitive (opts e)) raw).
Proof.
  revert i group. induction groups as [|g gs IH]; intros i group; simpl.
  - by left.
  - intros [Hacc|(g' & Hg' & Hle & Hkey)]%IH.
    + destruct (String.eqb_spec
              (if NoCaseSensitive (opts e)
               then strings.ToLower (CommitGroup_RawTitle g)
               else CommitGroup_RawTitle g)
              (if NoCaseSensitive (opts e) then strings.ToLower raw else raw))
        as [Heq|]; [|by left].
      injection Hacc as <-. right. exists g. rewrite Nat.sub_diag. done.
    + right. exists g'. replace (j - i) with (S (j - S i)) by lia. split; [done|].
      split; [lia | done].
Qed.

Lemma findGroup_None (raw : string) (groups : list CommitGroup) (i : nat)
      (group : option nat) :
  findGroup (NoCaseSensitive (opts e)) raw groups i group = None ->
  group = None
  /\ Forall (fun g => titleKey e g ≠ normalize (NoCaseSensitive (opts e)) raw) groups.
Proof.
  revert i group. induction groups as [|g gs IH]; intros i group; simpl.
  - by intros ->.
  - intros [Hacc Hall]%IH.
    destruct (String.eqb_spec
              (if NoCaseSensitive (opts e)
               then strings.ToLower (CommitGroup_RawTitle g)
               else CommitGroup_RawTitle g)
              (if NoCaseSensitive (opts e) then strings.ToLower raw else raw))
        as [Heq|Hne]; [done|].
    split; [done|]. by apply Forall_cons.
Qed.

Lemma membersOf_snoc (raw : string) (commits : list Commit.t) (c : Commit.t) :
  membersOf dotGetCommit e raw (commits ++ [c])
  = membersOf dotGetCommit e raw commits
    ++ (if grouped dotGetCommit e c
           && String.eqb (groupKey dotGetCommit e c)
                         (normalize (NoCaseSensitive (opts e)) raw)
        then [c] else []).
Proof. unfold membersOf. by rewrite List.filter_app. Qed.

Lemma groupsInv_skip (commits : list Commit.t) (groups : list CommitGroup)
      (c : Commit.t) :
  grouped dotGetCommit e c = false ->
  groupsInv dotGetCommit e commits groups ->
  groupsInv dotGetCommit e (commits ++ [c]) groups.
Proof.
  intros Hc (Hnd & Hgs & Hcs). split; [done|]. split.
  - eapply Forall_impl; [exact Hgs|]. intros g (Hraw & Hmem & Hfirst).
    split; [done|]. split; [|done].
    rewrite membersOf_snoc, Hc. simpl. by rewrite app_nil_r.
  - apply Forall_app. split; [done|]. apply Forall_singleton. by rewrite Hc.
Qed.

Lemma filter_none {A} (f : A -> bool) (l : list A) :
  Forall (fun x => f x = false) l -> List.filter f l = [].
Proof.
  induction 1 as [|x l Hx _ IH]; [done|]. simpl. by rewrite Hx.
Qed.

Lemma groupsInv_step (commits : list Commit.t) (groups : list CommitGroup)
      (notes : list NoteGroup) (c : Commit.t) :
  groupsInv dotGetCommit e commits groups ->
  groupsInv dotGetCommit e (commits ++ [c])
    (groupStep dotGetCommit e (groups, notes) c).1.
Proof.
  intros Hinv. pose proof Hinv as (Hnd & Hgs & Hcs).
  unfold groupStep. cbn [fst].
  destruct (Commit.Merge c) eqn:Em.
  { apply groupsInv_skip; [|done]. unfold grouped, hasMerge. by rewrite Em. }
  destruct (Commit.Revert c) eqn:Er.
  { apply groupsInv_skip; [|done]. unfold grouped, hasMerge, hasRevert.
    by rewrite Em, Er. }
  unfold processCommitGroups.
  destruct (commitGroupTitle dotGetCommit e c) as [raw ttl] eqn:Et.
  assert (groupKey dotGetCommit e c = normalize (NoCaseSensitive (opts e)) raw)
    as Hkey.
  { unfold groupKey. by rewrite Et. }
  destruct (String.eqb_spec raw "") as [->|Hraw].
  - rewrite findGroup_nomatch.
    + simpl. apply groupsInv_skip; [|done]. unfold grouped. rewrite Et. simpl.
      apply andb_false_r.
    + eapply Forall_impl; [exact Hgs|]. intros g (Hr & _) Heq. apply Hr.
      by apply normalize_empty in Heq.
  - assert (grouped dotGetCommit e c = true) as Hc.
    { unfold grouped, hasMerge, hasRevert. rewrite Em, Er, Et. simpl.
      by apply negb_true_iff, String.eqb_neq. }
    destruct (findGroup _ _ _ _ _) as [j|] eqn:Ef.
    + apply findGroup_Some in Ef as [?|(g & Hj & _ & Hg)]; [done|].
      rewrite Nat.sub_0_r in Hj.
      split; [by rewrite fmap_alter_id|]. split.
      * apply Forall_lookup. intros idx g' Hidx.
        rewrite Forall_lookup in Hgs.
        destruct (decide (idx = j)) as [->|Hne].
        -- rewrite list_lookup_alter_eq, Hj in Hidx. simpl in Hidx.
           injection Hidx as <-. simpl.
           destruct (Hgs _ _ Hj) as (Hr & Hmem & first & rest & Hfst & Httl).
           split; [done|]. split.
           ++ rewrite membersOf_snoc, Hc, Hkey, <- Hg. unfold titleKey.
              rewrite String.eqb_refl. simpl. by rewrite Hmem.
           ++ exists first, (rest ++ [c]). by rewrite Hfst.
        -- rewrite list_lookup_alter_ne in Hidx by done.
           destruct (Hgs _ _ Hidx) as (Hr & Hmem & Hfirst).
           split; [done|]. split; [|done].
           rewrite membersOf_snoc, Hc, Hkey.
           destruct (String.eqb_spec
                       (normalize (NoCaseSensitive (opts e)) raw)
                       (normalize (NoCaseSensitive (opts e)) (CommitGroup_RawTitle g')))
             as [Heq|]; simpl; [|by rewrite app_nil_r].
           exfalso. apply Hne.
           eapply (NoDup_lookup _ _ _ _ Hnd);
             rewrite list_lookup_fmap; [by rewrite Hidx|].
           rewrite Hj. simpl. unfold titleKey in *. congruence.
      * rewrite fmap_alter_id by done. apply Forall_app. split; [done|].
        apply Forall_singleton. intros _. rewrite Hkey, <- Hg.
        apply (list_elem_of_lookup_2 _ j). by rewrite list_lookup_fmap, Hj.
    + apply findGroup_None in Ef as [_ Hno].
      cbn [negb].
      rewrite Forall_forall in Hno.
      split; [|split].
      * rewrite fmap_app. apply NoDup_app. split; [done|].
        split; [|apply NoDup_singleton].
        intros k Hk ->%list_elem_of_singleton.
        apply list_elem_of_fmap in Hk as (g & Hg & Hin). by apply (Hno g Hin).
      * apply Forall_app. split.
        -- apply Forall_forall. intros g Hin. rewrite Forall_forall in Hgs.
           destruct (Hgs g Hin) as (Hr & Hmem & Hfirst).
           split; [done|]. split; [|done].
           rewrite membersOf_snoc, Hc, Hkey.
           destruct (String.eqb_spec
                       (normalize (NoCaseSensitive (opts e)) raw)
                       (normalize (NoCaseSensitive (opts e)) (CommitGroup_RawTitle g)))
             as [Heq|]; simpl; [|by rewrite app_nil_r].
           by destruct (Hno g Hin).
        -- apply Forall_singleton. simpl. split; [done|]. split.
           ++ rewrite membersOf_snoc, Hc, Hkey, String.eqb_refl. simpl.
              unfold membersOf. rewrite filter_none; [done|].
              eapply Forall_impl; [exact Hcs|]. intros c' Hc'. simpl in Hc'.
              destruct (grouped dotGetCommit e c'); [|done]. simpl.
              apply String.eqb_neq. intros Heq.
              specialize (Hc' eq_refl). rewrite Heq in Hc'.
              apply list_elem_of_fmap in Hc' as (g & Hg & Hin).
              by apply (Hno g Hin).
           ++ by exists c, [].
      * apply Forall_app. split.
        -- eapply Forall_impl; [exact Hcs|]. intros c' Hc' Hg. simpl in *.
           rewrite fmap_app, elem_of_app. left. by apply Hc'.
        -- apply Forall_singleton. intros _. rewrite fmap_app, elem_of_app.
           right. simpl. rewrite Hkey. by left.
Qed.

Lemma groupsInv_fold (commits done : list Commit.t)
      (acc : list CommitGroup * list NoteGroup) :
  groupsInv dotGetCommit e done acc.1 ->
  groupsInv dotGetCommit e (done ++ commits)
    (fold_left (groupStep dotGetCommit e) commits acc).1.
Proof.
  revert done acc. induction commits as [|c cs IH]; intros done acc Hinv; simpl.
  - by rewrite app_nil_r.
  - replace (done ++ c :: cs) with ((done ++ [c]) ++ cs) by by rewrite <- app_assoc.
    apply IH. destruct acc as [gs ns]. by apply groupsInv_step.
Qed.

End GroupingProperties.

(** *** The note groups *)

Lemma appendNote_titles (groups : list NoteGroup) (note : Note) :
  NoteGroup_Title <$> appendNoteToNoteGroups groups note
  = (NoteGroup_Title <$> groups)
    ++ (if existsb (fun g => String.eqb (NoteGroup_Title g) (Note_Title note)) groups
        then [] else [Note_Title note]).
Proof.
  unfold appendNoteToNoteGroups.
  assert (NoteGroup_Title
            <$> map (fun g =>
                  if String.eqb (NoteGroup_Title g) (Note_Title note)
                  then {| NoteGroup_Title := NoteGroup_Title g;
                          NoteGroup_Notes := NoteGroup_Notes g ++ [note] |}
                  else g) groups
          = NoteGroup_Title <$> groups) as Hmap.
  { induction groups as [|g gs IH]; [done|]. cbn [map fmap list_fmap] in *.
    f_equal; [by destruct (String.eqb _ _) | exact IH]. }
  destruct (existsb _ groups); simpl.
  - by rewrite Hmap, app_nil_r.
  - by rewrite fmap_app, Hmap.
Qed.

Lemma existsb_title (groups : list NoteGroup) (title : string) :
  existsb (fun g => String.eqb (NoteGroup_Title g) title) groups = true
  <-> title ∈ NoteGroup_Title <$> groups.
Proof.
  rewrite existsb_exists, list_elem_of_fmap. split.
  - intros (g & Hin & Heq%String.eqb_eq). exists g. by rewrite list_elem_of_In.
  - intros (g & -> & Hin). exists g. rewrite <- list_elem_of_In.
    by rewrite String.eqb_refl.
Qed.

Lemma notesInv_step (notes : list Note) (groups : list NoteGroup) (note : Note) :
  notesInv notes groups ->
  notesInv (notes ++ [note]) (appendNoteToNoteGroups groups note).
Proof.
  intros (Hnd & Hgs & Hns).
  assert (Forall (fun g => NoteGroup_Notes g
                           = notesOf (NoteGroup_Title g) (notes ++ [note])
                           /\ NoteGroup_Notes g ≠ [])
            (map (fun g =>
                  if String.eqb (NoteGroup_Title g) (Note_Title note)
                  then {| NoteGroup_Title := NoteGroup_Title g;
                          NoteGroup_Notes := NoteGroup_Notes g ++ [note] |}
                  else g) groups)) as Hmapped.
  { apply Forall_fmap. eapply Forall_impl; [exact Hgs|].
    intros g [Heq Hne]. unfold compose. cbn beta.
    destruct (String.eqb (NoteGroup_Title g) (Note_Title note)) eqn:E;
      unfold notesOf; rewrite List.filter_app; simpl;
      rewrite (String.eqb_sym (Note_Title note)), E.
    - split; [by rewrite Heq|]. by destruct (NoteGroup_Notes g).
    - by rewrite app_nil_r. }
  split; [|split].
  - rewrite appendNote_titles.
    destruct (existsb _ groups) eqn:E; [by rewrite app_nil_r|].
    apply NoDup_app. split; [done|]. split; [|apply NoDup_singleton].
    intros t Ht ->%list_elem_of_singleton.
    apply existsb_title in Ht. congruence.
  - unfold appendNoteToNoteGroups.
    destruct (existsb _ groups) eqn:E; simpl; [done|].
    apply Forall_app. split; [done|]. apply Forall_singleton. simpl.
    split; [|done]. unfold notesOf. rewrite List.filter_app. simpl.
    rewrite String.eqb_refl. rewrite filter_none; [done|].
    eapply Forall_impl; [exact Hns|]. intros n Hn. simpl in *.
    apply String.eqb_neq. intros Heq. rewrite Heq in Hn.
    apply existsb_title in Hn. congruence.
  - rewrite appendNote_titles. apply Forall_app. split.
    + eapply Forall_impl; [exact Hns|]. intros n Hn. simpl in *.
      apply elem_of_app. by left.
    + apply Forall_singleton. apply elem_of_app.
      destruct (existsb _ groups) eqn:E.
      * left. by apply existsb_title.
      * right. by left.
Qed.

Lemma notesInv_fold (notes done : list Note) (groups : list NoteGroup) :
  notesInv done groups ->
  notesInv (done ++ notes) (fold_left appendNoteToNoteGroups notes groups).
Proof.
  revert done groups. induction notes as [|n ns IH]; intros done groups Hinv; simpl.
  - by rewrite app_nil_r.
  - replace (done ++ n :: ns) with ((done ++ [n]) ++ ns) by by rewrite <- app_assoc.
    apply IH. by apply notesInv_step.
Qed.

Lemma groupStep_notes {W} (dotGetCommit : Commit.t -> string -> option any)
      (e : @commitExtractor W) (commits : list Commit.t)
      (acc : list CommitGroup * list NoteGroup) :
  (fold_left (groupStep dotGetCommit e) commits acc).2
  = fold_left appendNoteToNoteGroups (flat_map Commit.Notes commits) acc.2.
Proof.
  revert acc. induction commits as [|c cs IH]; intros [gs ns]; [done|].
  cbn [fold_left flat_map]. rewrite IH, fold_left_app. done.
Qed.

(** *** The order of strings *)

Lemma strictWeakOrder_by_string {A} (key : A -> string) :
  strictWeakOrder (fun x y => String.ltb (key x) (key y)).
Proof.
  assert (forall a b, String.ltb a b = false -> String.ltb b a = false -> a = b)
    as Heq.
  { intros a b. unfold String.ltb. rewrite (String.compare_antisym b a).
    destruct (String.compare a b) eqn:E; try done.
    intros _ _. by apply String.compare_eq_iff. }
  assert (forall s, String.compare s s = Eq) as Hrefl.
  { intros s. by apply (String_as_OT.cmp_eq s s). }
  split; [|split].
  - intros a. unfold String.ltb.
    by rewrite Hrefl.
  - intros a b c. unfold String.ltb.
    destruct (String.compare (key a) (key b)) eqn:Eab; try done.
    destruct (String.compare (key b) (key c)) eqn:Ebc; try done.
    intros _ _. apply String_as_OT.cmp_lt in Eab, Ebc.
    pose proof (String_as_OT.lt_trans _ _ _ Eab Ebc) as Hac.
    apply String_as_OT.cmp_lt in Hac. unfold String_as_OT.cmp in Hac.
    by rewrite Hac.
  - intros a b c Hab Hba Hbc Hcb.
    rewrite (Heq _ _ Hab Hba), (Heq _ _ Hbc Hcb).
    unfold String.ltb.
    by rewrite Hrefl.
Qed.

(** *** The groups that [Extract] returns *)

Section ExtractGroups.

Context {W : Type}.
Variable dotGetCommit : Commit.t -> string -> option any.
Variable dotGetGroup : CommitGroup -> string -> option any.
Variable compare : any -> string -> any -> result bool.
Variable sort_Slice : forall A : Type, (A -> A -> bool) -> list A -> list A.
Variable sort_SliceStable : forall A : Type, (A -> A -> bool) -> list A -> list A.

(** Both sorts rearrange the slice they are given. *)
Hypothesis sort_Slice_Permutation :
  forall (A : Type) (less : A -> A -> bool) (l : list A), sort_Slice A less l ≡ₚ l.
Hypothesis sort_SliceStable_Permutation :
  forall (A : Type) (less : A -> A -> bool) (l : list A),
    sort_SliceStable A less l ≡ₚ l.

Lemma sortCommitGroups_elem (e : @commitExtractor W) (groups : list CommitGroup)
      (g' : CommitGroup) :
  g' ∈ sortCommitGroups dotGetCommit dotGetGroup compare sort_Slice
         sort_SliceStable e groups
  <-> exists g, g ∈ groups
        /\ g' = {| CommitGroup_RawTitle := CommitGroup_RawTitle g;
                   CommitGroup_Title := CommitGroup_Title g;
                   CommitGroup_Commits :=
                     sort_SliceStable _
                       (lessBy compare dotGetCommit (CommitSortBy (opts e)))
                       (CommitGroup_Commits g) |}.
Proof.
  unfold sortCommitGroups. cbn zeta.
  change (map ?f ?l) with (f <$> l).
  rewrite list_elem_of_fmap.
  split.
  - intros (g & Hg & Hin). exists g. split; [|done].
    by rewrite <- (sort_Slice_Permutation _ (lessGroup dotGetGroup compare e)).
  - intros (g & Hin & Hg). exists g. split; [done|].
    by rewrite (sort_Slice_Permutation _ (lessGroup dotGetGroup compare e)).
Qed.

Lemma sortCommitGroups_keys (e : @commitExtractor W) (groups : list CommitGroup) :
  titleKey e <$> sortCommitGroups dotGetCommit dotGetGroup compare sort_Slice
                   sort_SliceStable e groups
  ≡ₚ titleKey e <$> groups.
Proof.
  unfold sortCommitGroups. cbn zeta. change (map ?f ?l) with (f <$> l).
  rewrite <- list_fmap_compose.
  rewrite <- (sort_Slice_Permutation _ (lessGroup dotGetGroup compare e) groups)
    at 2.
  by rewrite (list_fmap_ext _ (titleKey e) (sort_Slice _ _ groups)).
Qed.

(** The commit groups of [Extract] partition the filtered commits that
    have no merge, no revert and a non-empty raw group title: the groups
    have pairwise distinct raw titles (compared as the group search compares
    them), each group holds exactly the commits of its title, none is
    empty, title and raw title are those of its first member in input
    order, and every such commit is in a group. *)
Theorem Extract_commitGroups (e : @commitExtractor W) (commits : list Commit.t) :
  exists commitGroups mergeCommits revertCommits noteGroups,
    Extract dotGetCommit dotGetGroup compare sort_Slice sort_SliceStable e
      (Some <$> commits)
    = Ok (commitGroups, mergeCommits, revertCommits, noteGroups)
    /\ let filteredCommits :=
         List.filter (included dotGetCommit (CommitFilters (opts e))
                        (NoCaseSensitive (opts e))) (expand commits) in
       NoDup (titleKey e <$> commitGroups)
       /\ (forall g, g ∈ commitGroups ->
             CommitGroup_RawTitle g ≠ ""
             /\ CommitGroup_Commits g
                ≡ₚ membersOf dotGetCommit e (CommitGroup_RawTitle g) filteredCommits
             /\ exists first rest,
                  membersOf dotGetCommit e (CommitGroup_RawTitle g) filteredCommits
                  = first :: rest
                  /\ commitGroupTitle dotGetCommit e first
                     = (CommitGroup_RawTitle g, CommitGroup_Title g))
       /\ (forall c, c ∈ filteredCommits -> grouped dotGetCommit e c = true ->
             exists g, g ∈ commitGroups /\ c ∈ CommitGroup_Commits g).
Proof.
  unfold Extract. rewrite commitFilter_Some. simpl. rewrite bucket_Some. simpl.
  set (filteredCommits := List.filter _ (expand commits)).
  assert (groupsInv dotGetCommit e ([] ++ filteredCommits)
            (fold_left (groupStep dotGetCommit e) filteredCommits ([], [])).1)
    as (Hnd & Hgs & Hcs).
  { apply groupsInv_fold. split; [constructor|]. split; constructor. }
  destruct (fold_left _ _ _) as [gs ns]. simpl in Hnd, Hgs, Hcs.
  rewrite Forall_forall in Hgs. rewrite Forall_forall in Hcs.
  eexists _, _, _, _. split; [reflexivity|].
  split; [by rewrite sortCommitGroups_keys|]. split.
  - intros g' (g & Hin & ->)%sortCommitGroups_elem. simpl.
    destruct (Hgs g Hin) as (Hraw & Hmem & first & rest & Hfirst & Httl).
    split; [done|]. split.
    + by rewrite sort_SliceStable_Permutation, Hmem.
    + exists first, rest. by rewrite <- Hmem.
  - intros c Hc Hgrouped.
    destruct (proj1 (list_elem_of_fmap _ _ _) (Hcs c Hc Hgrouped))
      as (g & Hkey & Hin).
    eexists. split.
    + apply sortCommitGroups_elem. by exists g.
    + simpl. rewrite sort_SliceStable_Permutation.
      destruct (Hgs g Hin) as (_ & -> & _). unfold membersOf.
      apply list_elem_of_In, filter_In. split; [by apply list_elem_of_In|].
      rewrite Hgrouped, Hkey. unfold titleKey. by rewrite String.eqb_refl.
Qed.

Lemma sortNoteGroups_elem (groups : list NoteGroup) (g' : NoteGroup) :
  g' ∈ sortNoteGroups sort_Slice groups
  <-> exists g, g ∈ groups
        /\ g' = {| NoteGroup_Title := NoteGroup_Title g;
                   NoteGroup_Notes :=
                     sort_Slice _ (fun ni nj =>
                         String.ltb (strings.ToLower (Note_Title ni))
                                    (strings.ToLower (Note_Title nj)))
                       (NoteGroup_Notes g) |}.
Proof.
  unfold sortNoteGroups. cbn zeta.
  change (map ?f ?l) with (f <$> l).
  rewrite list_elem_of_fmap.
  split.
  - intros (g & Hg & Hin). exists g. split; [|done].
    by rewrite <- (sort_Slice_Permutation _
                     (fun gi gj =>
                        String.ltb (strings.ToLower (NoteGroup_Title gi))
                                   (strings.ToLower (NoteGroup_Title gj)))).
  - intros (g & Hin & Hg). exists g. split; [done|].
    by rewrite (sort_Slice_Permutation _
                  (fun gi gj =>
                     String.ltb (strings.ToLower (NoteGroup_Title gi))
                                (strings.ToLower (NoteGroup_Title gj)))).
Qed.

Lemma sortNoteGroups_titles (groups : list NoteGroup) :
  NoteGroup_Title <$> sortNoteGroups sort_Slice groups
  = NoteGroup_Title
      <$> sort_Slice _ (fun gi gj =>
              String.ltb (strings.ToLower (NoteGroup_Title gi))
                         (strings.ToLower (NoteGroup_Title gj))) groups.
Proof.
  unfold sortNoteGroups. cbn zeta. change (map ?f ?l) with (f <$> l).
  rewrite <- list_fmap_compose. by apply list_fmap_ext.
Qed.

(** For a strict weak ordering, [sort.Slice] leaves no later element less
    than an earlier one. *)
Hypothesis sort_Slice_sorted :
  forall (A : Type) (less : A -> A -> bool) (l : list A),
    strictWeakOrder less -> sortedBy less (sort_Slice A less l).

(** The note groups of [Extract] partition the notes of all the filtered
    commits, those of merge and revert commits included, by their exact
    title: the titles of the groups are pairwise distinct, each group
    holds exactly the notes of its title, none is empty, and every note is
    in a group; the groups come out ascending by lower-cased title. *)
Theorem Extract_noteGroups (e : @commitExtractor W) (commits : list Commit.t) :
  exists commitGroups mergeCommits revertCommits noteGroups,
    Extract dotGetCommit dotGetGroup compare sort_Slice sort_SliceStable e
      (Some <$> commits)
    = Ok (commitGroups, mergeCommits, revertCommits, noteGroups)
    /\ let notes :=
         flat_map Commit.Notes
           (List.filter (included dotGetCommit (CommitFilters (opts e))
                           (NoCaseSensitive (opts e))) (expand commits)) in
       NoDup (NoteGroup_Title <$> noteGroups)
       /\ (forall g, g ∈ noteGroups ->
             NoteGroup_Notes g ≠ []
             /\ NoteGroup_Notes g ≡ₚ notesOf (NoteGroup_Title g) notes)
       /\ (forall n, n ∈ notes ->
             exists g, g ∈ noteGroups /\ n ∈ NoteGroup_Notes g)
       /\ sortedBy (fun gi gj =>
                      lowerTitleLess (NoteGroup_Title gi) (NoteGroup_Title gj))
                   noteGroups.
Proof.
  unfold Extract. rewrite commitFilter_Some. simpl. rewrite bucket_Some. simpl.
  set (filteredCommits := List.filter _ (expand commits)).
  assert (notesInv ([] ++ flat_map Commit.Notes filteredCommits)
            (fold_left (groupStep dotGetCommit e) filteredCommits ([], [])).2)
    as (Hnd & Hgs & Hns).
  { rewrite groupStep_notes. apply notesInv_fold.
    split; [constructor|]. split; constructor. }
  destruct (fold_left _ _ _) as [gs ns]. simpl in Hnd, Hgs, Hns.
  rewrite Forall_forall in Hgs. rewrite Forall_forall in Hns.
  eexists _, _, _, _. split; [reflexivity|].
  split; [|split; [|split]].
  - by rewrite sortNoteGroups_titles, sort_Slice_Permutation.
  - intros g' (g & Hin & ->)%sortNoteGroups_elem. simpl.
    destruct (Hgs g Hin) as (Hmem & Hne).
    rewrite <- Hmem. split; [|apply sort_Slice_Permutation].
    intros Hnil. pose proof (sort_Slice_Permutation Note
      (fun ni nj => String.ltb (strings.ToLower (Note_Title ni))
                               (strings.ToLower (Note_Title nj)))
      (NoteGroup_Notes g)) as Hperm.
    rewrite Hnil in Hperm. by apply Permutation_nil in Hperm.
  - intros n Hn.
    destruct (proj1 (list_elem_of_fmap _ _ _) (Hns n Hn)) as (g & Htitle & Hin).
    eexists. split.
    + apply sortNoteGroups_elem. by exists g.
    + simpl. rewrite sort_Slice_Permutation.
      destruct (Hgs g Hin) as (-> & _). unfold notesOf.
      apply list_elem_of_In, filter_In. split; [by apply list_elem_of_In|].
      by apply String.eqb_eq.
  - intros i j a b Hij Hi Hj. unfold sortNoteGroups in Hi, Hj. cbn zeta in Hi, Hj.
    change (map ?f ?l) with (f <$> l) in Hi, Hj.
    rewrite list_lookup_fmap in Hi, Hj.
    apply fmap_Some in Hi as (gi & Hi & ->). apply fmap_Some in Hj as (gj & Hj & ->).
    simpl. unfold lowerTitleLess.
    apply (sort_Slice_sorted _ _ ns
             (strictWeakOrder_by_string
                (fun g => strings.ToLower (NoteGroup_Title g))) i j gi gj Hij Hi Hj).
Qed.

End ExtractGroups.

(** The sample history through [Extract] with the merge sort: the raw
    titles of its commit groups are pairwise distinct. *)
Lemma Extract_commitGroups_witness :
  exists commitGroups mergeCommits revertCommits noteGroups,
    Extract dotGetCommitModel dotGetGroupModel compareModel sortModel sortModel
      Sample.extractor (Some <$> Sample.history)
    = Ok (commitGroups, mergeCommits, revertCommits, noteGroups)
    /\ NoDup (titleKey Sample.extractor <$> commitGroups).
Proof.
  destruct (Extract_commitGroups dotGetCommitModel dotGetGroupModel compareModel
              sortModel sortModel sortModel_Permutation sortModel_Permutation
              Sample.extractor Sample.history)
    as (cgs & ms & rs & ngs & HE & Hnd & _).
  by exists cgs, ms, rs, ngs.
Defined.

(** The sample history through [Extract] with the merge sort: the titles
    of its note groups are pairwise distinct. *)
Lemma Extract_noteGroups_witness :
  exists commitGroups mergeCommits revertCommits noteGroups,
    Extract dotGetCommitModel dotGetGroupModel compareModel sortModel sortModel
      Sample.extractor (Some <$> Sample.history)
    = Ok (commitGroups, mergeCommits, revertCommits, noteGroups)
    /\ NoDup (NoteGroup_Title <$> noteGroups).
Proof.
  destruct (Extract_noteGroups dotGetCommitModel dotGetGroupModel compareModel
              sortModel sortModel sortModel_Permutation sortModel_sorted
              Sample.extractor Sample.history)
    as (cgs & ms & rs & ngs & HE & Hnd & _).
  by exists cgs, ms, rs, ngs.
Defined.

(** ** Further properties of the body, the records and the log *)

Lemma grows_refl (c : Commit.t) : grows c c.
Proof. unfold grows. by repeat split. Qed.

Lemma grows_trans (c1 c2 c3 : Commit.t) : grows c1 c2 -> grows c2 c3 -> grows c1 c3.
Proof.
  intros (H1 & H2 & H3 & H4 & H5 & H6 & H7) (G1 & G2 & G3 & G4 & G5 & G6 & G7).
  unfold grows. rewrite G1, G2, G3. repeat split; try done; by etrans.
Qed.

Lemma grows_with_Notes (notes : list Note) (c : Commit.t) :
  grows c (Commit.with_Notes notes c).
Proof. destruct c. unfold grows. simpl. by repeat split. Qed.

Lemma grows_with_TrimmedBody (body : string) (c : Commit.t) :
  grows c (Commit.with_TrimmedBody body c).
Proof. destruct c. unfold grows. simpl. by repeat split. Qed.

Section BodyFrame.

Context {W : Type}.
Implicit Types (p : @commitParser W) (w : W) (commit : Commit.t) (st : bodyState).

Lemma extractLineMetadata_grows p commit line :
  grows commit (extractLineMetadata p commit line).2.
Proof.
  unfold extractLineMetadata.
  destruct (Nat.ltb 0 (length (parseRefs p line)));
    destruct (Nat.ltb 0 (length (parseMentions p line)));
    destruct (Nat.ltb 0 (length (parseCoAuthors p line)));
    destruct (Nat.ltb 0 (length (parseSigners p line)));
    destruct commit; unfold grows; simpl;
    repeat split; try done; by apply prefix_app_r.
Qed.

Lemma bodyLine_grows p st line st' :
  bodyLine p st line = Ok st' ->
  grows (bs_commit st) (bs_commit st')
  /\ exists kept, sublist kept [line]
       /\ bs_trimmedBody st' = bs_trimmedBody st ++ kept.
Proof.
  unfold bodyLine.
  pose proof (extractLineMetadata_grows p (bs_commit st) line) as Hmeta.
  destruct (extractLineMetadata p (bs_commit st) line) as [meta c1]. simpl in Hmeta.
  assert (forall c (trim inNote : bool),
             grows (bs_commit st) c ->
             obind
               (if Nat.ltb 0 (length (FindAllStringSubmatch (reNotes p) line)) then
                  Ok (Commit.with_Notes
                        (Commit.Notes c ++
                           map (fun r => {| Note_Title := sub r 1; Note_Body := sub r 2 |})
                             (FindAllStringSubmatch (reNotes p) line))
                        c, true, true)
                else if inNote then
                  obind (appendToLastNote (Commit.Notes c) line) (fun notes =>
                    Ok (Commit.with_Notes notes c, trim, inNote))
                else Ok (c, trim, inNote))
               (fun '(commit, trim, inNote) =>
                  Ok {| bs_commit := commit;
                        bs_inNote := inNote;
                        bs_trim := trim;
                        bs_fenceDetector := Update (bs_fenceDetector st) line;
                        bs_trimmedBody :=
                          if negb trim then bs_trimmedBody st ++ [line]
                          else bs_trimmedBody st |})
             = Ok st' ->
             grows (bs_commit st) (bs_commit st')
             /\ exists kept, sublist kept [line]
                  /\ bs_trimmedBody st' = bs_trimmedBody st ++ kept) as Hrest.
  { intros c trim inNote Hc.
    assert (forall t : bool, exists kept, sublist kept [line]
              /\ (if negb t then bs_trimmedBody st ++ [line] else bs_trimmedBody st)
                 = bs_trimmedBody st ++ kept) as Hkept.
    { intros [|]; simpl.
      - exists []. split; [apply sublist_nil_l | by rewrite app_nil_r].
      - by exists [line]. }
    destruct (Nat.ltb 0 _); simpl.
    - intros [= <-]. simpl. split; [|apply (Hkept true)].
      eapply grows_trans; [exact Hc | apply grows_with_Notes].
    - destruct inNote; simpl.
      + destruct (appendToLastNote (Commit.Notes c) line); simpl; try done.
        intros [= <-]. simpl. split; [|apply Hkept].
        eapply grows_trans; [exact Hc | apply grows_with_Notes].
      + intros [= <-]. simpl. split; [done | apply Hkept]. }
  destruct (negb (InCodeblock (Update (bs_fenceDetector st) line))).
  - destruct meta.
    + apply (Hrest c1 true false Hmeta).
    + apply (Hrest c1 (if negb (bs_inNote st) then false else bs_trim st)
               (bs_inNote st) Hmeta).
  - apply (Hrest (bs_commit st) (if negb (bs_inNote st) then false else bs_trim st)
             (bs_inNote st) (grows_refl _)).
Qed.

Lemma bodyLines_grows p (lines : list string) st st' :
  bodyLines p st lines = Ok st' ->
  grows (bs_commit st) (bs_commit st')
  /\ exists kept, sublist kept lines
       /\ bs_trimmedBody st' = bs_trimmedBody st ++ kept.
Proof.
  revert st. induction lines as [|line rest IH]; intros st; simpl.
  - intros [= <-]. split; [apply grows_refl|]. exists []. by rewrite app_nil_r.
  - destruct (bodyLine p st line) as [st1| |] eqn:E; simpl; try done.
    intros Hrest. apply bodyLine_grows in E as (Hg1 & k1 & Hk1 & Ht1).
    apply IH in Hrest as (Hg2 & k2 & Hk2 & Ht2).
    split; [by eapply grows_trans|].
    exists (k1 ++ k2). split.
    + by apply (sublist_app k1 [line] k2 rest).
    + by rewrite Ht2, Ht1, <- app_assoc.
Qed.

Lemma processBodyLines_grows p commit (input : string) commit' :
  processBodyLines p commit input = Ok commit' ->
  grows commit commit'
  /\ exists kept, sublist kept (strings.Split input NL)
       /\ Commit.TrimmedBody commit' = strings.TrimSpace (strings.Join kept NL)
  .
Proof.
  unfold processBodyLines.
  destruct (bodyLines p _ _) as [st'| |] eqn:E; simpl; try done.
  intros [= <-]. apply bodyLines_grows in E as (Hg & kept & Hk & Ht).
  simpl in Hg, Ht. split.
  - eapply grows_trans; [apply grows_with_Notes|].
    eapply grows_trans; [exact Hg|].
    eapply grows_trans; [apply grows_with_TrimmedBody|].
    unfold trimSpaceInNotes. apply grows_with_Notes.
  - exists kept. split; [done|]. rewrite Ht. by destruct (bs_commit st').
Qed.

Lemma assignDynamicValues_shape commit (attrs values : list string) :
  shape (assignDynamicValues commit attrs values) = shape commit.
Proof.
  revert commit values. induction attrs as [|field attrs IH]; intros commit values;
    [done|].
  destruct values as [|v values]; [done|]. simpl. rewrite IH.
  unfold SetString, Commit_Dynamic.
  repeat (destruct (String.eqb field _); [by destruct commit|]). done.
Qed.

Lemma enrich_shape p commit w : shape (enrich p commit w).1 = shape commit.
Proof.
  unfold enrich. destruct (String.eqb _ ""); [done|]. unfold processJiraIssue.
  destruct (GetJiraIssue _ _ _) as [[issue|err] w1]; [|done]. by destruct commit.
Qed.

Lemma subCommitOf_flat p commit (i : string) w subCommit w' :
  subCommitOf p commit i w = (Some subCommit, w') -> flat subCommit.
Proof.
  unfold subCommitOf. destruct (FindAllStringSubmatch (reHeader p) i) as [|res0 res];
    [done|].
  unfold sbind, sret.
  match goal with
  | |- context [enrich p ?c w] =>
      pose proof (enrich_shape p c w) as Henrich;
      destruct (enrich p c w) as [sc w1]; cbn [fst] in Henrich;
      assert (shape c = ([], [], None, None, [], [])) as Hc
  end.
  { match goal with
    | |- context [assignDynamicValues ?c0 ?a ?v] =>
        pose proof (assignDynamicValues_shape c0 a v) as Hdyn;
        destruct (assignDynamicValues c0 a v) as []; unfold shape in Hdyn;
        simpl in Hdyn; injection Hdyn as -> -> -> -> -> ->
    end.
    destruct (parseRefs p i) as [|r rs]; destruct (parseMentions p i) as [|m ms];
      done. }
  intros [= <- <-]. rewrite Hc in Henrich. unfold shape in Henrich.
  injection Henrich as H1 H2 H3 H4 H5 H6. by repeat split.
Qed.

Lemma subCommitLoop_appends p (inputs : list string) commit w :
  exists more w',
    subCommitLoop p commit inputs w
    = (Commit.with_SubCommits (Commit.SubCommits commit ++ more) commit, w')
    /\ Forall flat more.
Proof.
  revert commit w. induction inputs as [|i rest IH]; intros commit w; simpl.
  - exists [], w. unfold sret. rewrite app_nil_r. split; [by destruct commit|].
    constructor.
  - unfold sbind. destruct (subCommitOf p commit i w) as [[sc|] w1] eqn:E.
    + destruct (IH (Commit.with_SubCommits (Commit.SubCommits commit ++ [sc]) commit) w1)
        as (more & w' & -> & Hflat).
      exists (sc :: more), w'. split.
      * destruct commit. simpl. by rewrite <- app_assoc.
      * constructor; [by apply subCommitOf_flat in E | done].
    + apply IH.
Qed.

Lemma processBody_cases p commit (input : string) w commit' w' :
  processBody p commit input w = (Ok commit', w') ->
  exists more,
    processBodyLines p
      (Commit.with_SubCommits (Commit.SubCommits commit ++ more)
         (Commit.with_Body (convNewline input NL) commit))
      (convNewline input NL) = Ok commit'
    /\ (MultilineCommit (config p) = false -> more = [] /\ w' = w)
    /\ Forall flat more.
Proof.
  unfold processBody, bind, lift, pure.
  destruct (MultilineCommit (config p)).
  - destruct (subCommitLoop_appends p
                (strings.Split
                   (ReplaceAllString_empty (reNotes p) (convNewline input NL)) NL)
                (Commit.with_Body (convNewline input NL) commit) w)
      as (more & w1 & -> & Hflat).
    destruct (processBodyLines p _ _) as [c2| |] eqn:E; try done.
    intros [= <- <-]. exists more. split; [|done].
    rewrite <- E. by destruct commit.
  - unfold sret. destruct (processBodyLines p _ _) as [c2| |] eqn:E; try done.
    intros [= <- <-]. exists []. split; [|split; [done | constructor]].
    rewrite <- E. destruct commit. simpl. by rewrite app_nil_r.
Qed.

(** [processBody] always completes.  It writes the body with its line
    ends normalized; it leaves hash, author, committer, merge, revert,
    header fields, issue and changed files as they are; references,
    mentions, co-authors, signers and sub-commits only grow at the end; the
    trimmed body is made of lines of the body, in their order; and without
    multiline splitting there is no new sub-commit and nothing outside the
    parser is touched. *)
Theorem processBody_frame p commit (input : string) w :
  exists commit' w' kept,
    processBody p commit input w = (Ok commit', w')
    /\ outsideBody commit' = outsideBody commit
    /\ Commit.Body commit' = convNewline input NL
    /\ sublist kept (strings.Split (convNewline input NL) NL)
    /\ Commit.TrimmedBody commit' = strings.TrimSpace (strings.Join kept NL)
    /\ Commit.Refs commit `prefix_of` Commit.Refs commit'
    /\ Commit.Mentions commit `prefix_of` Commit.Mentions commit'
    /\ Commit.CoAuthors commit `prefix_of` Commit.CoAuthors commit'
    /\ Commit.Signers commit `prefix_of` Commit.Signers commit'
    /\ Commit.SubCommits commit `prefix_of` Commit.SubCommits commit'
    /\ (MultilineCommit (config p) = false ->
        Commit.SubCommits commit' = Commit.SubCommits commit /\ w' = w).
Proof.
  destruct (processBody_total p commit input w) as (commit' & w' & Hrun).
  exists commit', w'.
  destruct (processBody_cases _ _ _ _ _ _ Hrun) as (more & E & Hsingle & _).
  apply processBodyLines_grows in E
    as ((H1 & H2 & H3 & H4 & H5 & H6 & H7) & kept & Hk & Ht).
  exists kept. split; [done|]. destruct commit. simpl in *.
  rewrite H1, H2, H3. repeat split; try done.
  - by apply prefix_app_r.
  - destruct (Hsingle H) as [-> _]. by rewrite app_nil_r.
  - by destruct (Hsingle H).
Qed.

Lemma appendToLastNote_titles (notes notes' : list Note) (line : string) :
  appendToLastNote notes line = Ok notes' ->
  Note_Title <$> notes' = Note_Title <$> notes.
Proof.
  unfold appendToLastNote. destruct (last notes) as [l|] eqn:Hlast; [|done].
  intros [= <-]. rewrite list_fmap_insert. simpl. apply list_insert_id.
  rewrite list_lookup_fmap. rewrite last_lookup in Hlast.
  replace (length notes - 1) with (pred (length notes)) by lia.
  by rewrite Hlast.
Qed.

Lemma bodyLine_titles p st line st' :
  bodyLine p st line = Ok st' ->
  Note_Title <$> Commit.Notes (bs_commit st')
  = (Note_Title <$> Commit.Notes (bs_commit st)) ++ noteTitles p [line].
Proof.
  unfold bodyLine, noteTitles. simpl. rewrite app_nil_r.
  pose proof (extractLineMetadata_Notes p (bs_commit st) line) as Hmeta.
  destruct (extractLineMetadata p (bs_commit st) line) as [meta c1]. simpl in Hmeta.
  assert (forall c (trim inNote : bool),
             Commit.Notes c = Commit.Notes (bs_commit st) ->
             obind
               (if Nat.ltb 0 (length (FindAllStringSubmatch (reNotes p) line)) then
                  Ok (Commit.with_Notes
                        (Commit.Notes c ++
                           map (fun r => {| Note_Title := sub r 1; Note_Body := sub r 2 |})
                             (FindAllStringSubmatch (reNotes p) line))
                        c, true, true)
                else if inNote then
                  obind (appendToLastNote (Commit.Notes c) line) (fun notes =>
                    Ok (Commit.with_Notes notes c, trim, inNote))
                else Ok (c, trim, inNote))
               (fun '(commit, trim, inNote) =>
                  Ok {| bs_commit := commit;
                        bs_inNote := inNote;
                        bs_trim := trim;
                        bs_fenceDetector := Update (bs_fenceDetector st) line;
                        bs_trimmedBody :=
                          if negb trim then bs_trimmedBody st ++ [line]
                          else bs_trimmedBody st |})
             = Ok st' ->
             Note_Title <$> Commit.Notes (bs_commit st')
             = (Note_Title <$> Commit.Notes (bs_commit st))
               ++ ((fun r => sub r 1) <$> FindAllStringSubmatch (reNotes p) line))
    as Hrest.
  { intros c trim inNote Hc.
    destruct (FindAllStringSubmatch (reNotes p) line) as [|r res] eqn:Hres; simpl.
    - rewrite app_nil_r. destruct inNote; simpl.
      + destruct (appendToLastNote (Commit.Notes c) line) as [notes'| |] eqn:Ha;
          simpl; try done.
        intros [= <-]. simpl. apply appendToLastNote_titles in Ha.
        rewrite <- Hc, <- Ha. by destruct c.
      + intros [= <-]. simpl. by rewrite Hc.
    - intros [= <-]. simpl. rewrite <- Hc. destruct c. simpl.
      rewrite fmap_app. f_equal. simpl. f_equal.
      change (map ?f ?l) with (f <$> l). rewrite <- list_fmap_compose.
      by apply list_fmap_ext. }
  destruct (negb (InCodeblock (Update (bs_fenceDetector st) line))).
  - destruct meta.
    + apply (Hrest c1 true false Hmeta).
    + apply (Hrest c1 (if negb (bs_inNote st) then false else bs_trim st)
               (bs_inNote st) Hmeta).
  - apply (Hrest (bs_commit st) (if negb (bs_inNote st) then false else bs_trim st)
             (bs_inNote st) eq_refl).
Qed.

Lemma noteTitles_cons p (line : string) (rest : list string) :
  noteTitles p (line :: rest) = noteTitles p [line] ++ noteTitles p rest.
Proof. unfold noteTitles. simpl. by rewrite app_nil_r. Qed.

Lemma bodyLines_titles p (lines : list string) st st' :
  bodyLines p st lines = Ok st' ->
  Note_Title <$> Commit.Notes (bs_commit st')
  = (Note_Title <$> Commit.Notes (bs_commit st)) ++ noteTitles p lines.
Proof.
  revert st. induction lines as [|line rest IH]; intros st; cbn [bodyLines].
  - intros [= <-]. unfold noteTitles. simpl. by rewrite app_nil_r.
  - destruct (bodyLine p st line) as [st1| |] eqn:E; unfold obind; try done.
    intros Hrest. rewrite (IH _ Hrest), (bodyLine_titles _ _ _ _ E).
    by rewrite (noteTitles_cons p line rest), app_assoc.
Qed.

Lemma processBodyLines_titles p commit (input : string) commit' :
  processBodyLines p commit input = Ok commit' ->
  Note_Title <$> Commit.Notes commit' = noteTitles p (strings.Split input NL).
Proof.
  unfold processBodyLines.
  destruct (bodyLines p _ _) as [st'| |] eqn:E; simpl; try done.
  intros [= <-]. apply bodyLines_titles in E. simpl in E.
  assert (Commit.Notes (Commit.with_Notes [] commit) = []) as Hnil
      by (by destruct commit).
  rewrite Hnil in E. simpl in E. rewrite <- E.
  unfold trimSpaceInNotes. destruct (bs_commit st'). simpl.
  change (map ?f ?l) with (f <$> l). rewrite <- list_fmap_compose.
  by apply list_fmap_ext.
Qed.

(** The notes of a processed body are those its lines open, in order:
    their titles are the note keywords matched line by line, continuation
    lines and the notes the commit had before adding none. *)
Theorem processBody_note_titles p commit (input : string) w :
  exists commit' w',
    processBody p commit input w = (Ok commit', w')
    /\ Note_Title <$> Commit.Notes commit'
       = noteTitles p (strings.Split (convNewline input NL) NL).
Proof.
  destruct (processBody_total p commit input w) as (commit' & w' & Hrun).
  exists commit', w'. split; [done|].
  destruct (processBody_cases _ _ _ _ _ _ Hrun) as (more & E & _ & _).
  by apply processBodyLines_titles in E.
Qed.

End BodyFrame.

Lemma outsideBody_Hash (c c' : Commit.t) :
  outsideBody c' = outsideBody c -> Commit.Hash c' = Commit.Hash c.
Proof. unfold outsideBody. by intros [=]. Qed.

Section HashProperties.

Context {W : Type}.
Implicit Types (p : @commitParser W) (w : W) (commit : Commit.t).

Lemma processHeader_Hash p commit (input : string) w :
  Commit.Hash (processHeader p commit input w).1 = Commit.Hash commit.
Proof.
  unfold processHeader.
  match goal with
  | |- Commit.Hash (enrich p ?c w).1 = _ =>
      pose proof (enrich_carried p c w) as He; unfold carried in He;
      transitivity (Commit.Hash c); [congruence|]
  end.
  destruct (FindAllStringSubmatch (reRevert p) input);
    destruct (FindAllStringSubmatch (reMerge p) input);
    destruct (FindAllStringSubmatch (reHeader p) input);
    simpl;
    try match goal with
        | |- context [assignDynamicValues (Commit.with_Header input commit) ?a ?v] =>
            pose proof (assignDynamicValues_carried (Commit.with_Header input commit) a v)
              as Hdyn;
            unfold carried in Hdyn;
            destruct (assignDynamicValues (Commit.with_Header input commit) a v);
            destruct commit; simpl in Hdyn |- *; congruence
        end;
    by destruct commit.
Qed.

Lemma parseToken_Hash p commit (token : string) w commit' w' :
  parseToken p commit token w = (Ok commit', w') ->
  hasHash commit' = isHashBlock token || hasHash commit.
Proof.
  unfold parseToken, isHashBlock, pure.
  destruct (strings.Index token ":" <? 0)%Z; [done|].
  set (field := strings.take _ token). set (value := strings.TrimSpace _).
  destruct (String.eqb field hashField) eqn:Eh.
  { destruct (parseHash value); simpl; try done.
    intros [= <- <-]. by destruct commit. }
  simpl. destruct (String.eqb field authorField).
  { destruct (parseAuthor value); simpl; try done.
    intros [= <- <-]. by destruct commit. }
  destruct (String.eqb field committerField).
  { unfold parseCommitter. destruct (parseAuthor value); simpl; try done.
    intros [= <- <-]. by destruct commit. }
  destruct (String.eqb field subjectField).
  { unfold lift. pose proof (processHeader_Hash p commit value w) as Hh.
    destruct (processHeader p commit value w) as [c1 w1]. simpl in Hh.
    intros [= <- <-]. unfold hasHash. by rewrite Hh. }
  destruct (String.eqb field bodyField).
  { intros Hrun. destruct (processBody_cases _ _ _ _ _ _ Hrun) as (more & E & _ & _).
    apply processBodyLines_grows in E as ((H1 & _) & _).
    apply outsideBody_Hash in H1. unfold hasHash. rewrite H1. by destruct commit. }
  unfold ret. by intros [= <- <-].
Qed.

Lemma parseTokens_Hash p (tokens : list string) commit w commit' w' :
  parseTokens p commit tokens w = (Ok commit', w') ->
  hasHash commit' = existsb isHashBlock tokens || hasHash commit.
Proof.
  revert commit w. induction tokens as [|token rest IH]; intros commit w; simpl.
  - unfold ret. by intros [= <- <-].
  - unfold bind. destruct (parseToken p commit token w) as [[c1| |] w1] eqn:E;
      try done.
    intros Hrest. rewrite (IH _ _ Hrest), (parseToken_Hash _ _ _ _ _ _ E).
    destruct (isHashBlock token), (existsb isHashBlock rest); done.
Qed.

(** [parseCommit] dereferences a nil hash exactly on a well-formed record
    without a HASH block, and a commit it returns has a hash. *)
Theorem parseCommit_nil_hash p (input : string) w :
  ((parseCommit p input w).1 = Panic NilDereference
   <-> recordWellFormed input = true
       /\ existsb isHashBlock (strings.Split input delimiter) = false)
  /\ (forall commit w', parseCommit p input w = (Ok commit, w') ->
        hasHash commit = true
        /\ existsb isHashBlock (strings.Split input delimiter) = true).
Proof.
  unfold recordWellFormed, parseCommit, bind.
  destruct (parseTokens_cases p Commit.zero (strings.Split input delimiter) w)
    as [[-> (c1 & w1 & Htok)]|[-> (w1 & ->)]].
  - rewrite Htok. apply parseTokens_Hash in Htok. rewrite orb_false_r in Htok.
    rewrite <- Htok. unfold hasHash.
    assert (Commit.Hash
              (Commit.with_Mentions (uniqMentions (Commit.Mentions
                 (Commit.with_Refs (uniqRefs (Commit.Refs c1)) c1)))
                 (Commit.with_Refs (uniqRefs (Commit.Refs c1)) c1))
            = Commit.Hash c1) as -> by (by destruct c1).
    destruct (Commit.Hash c1) as [h|] eqn:Hh.
    + destruct (Exec _ _ _ _) as [[out|err] w2]; simpl.
      * split; [split; [done | by intros [_ ?]]|].
        intros commit w' [= <- <-].
        destruct (Nat.ltb 0 (String.length out)); destruct c1; simpl in *;
          by rewrite Hh.
      * split; [split; [done | by intros [_ ?]]|]. done.
    + simpl. split; [done|]. done.
  - simpl. split; [|done]. split; [done | by intros [? _]].
Qed.

End HashProperties.

Lemma expand_singleton (c : Commit.t) : expand [c] = c :: Commit.SubCommits c.
Proof. unfold expand. simpl. by rewrite app_nil_r. Qed.

Lemma expand_singleton_flat (c : Commit.t) :
  Forall flat (Commit.SubCommits c) ->
  flat_map Commit.SubCommits (c :: Commit.SubCommits c) = Commit.SubCommits c.
Proof.
  intros Hflat. cbn [flat_map].
  assert (flat_map Commit.SubCommits (Commit.SubCommits c) = []) as ->;
    [|by rewrite app_nil_r].
  induction Hflat as [|sub subs (Hs & _) _ IH]; [done|].
  simpl. by rewrite Hs, IH.
Qed.

Lemma flat_tree (c : Commit.t) (more : list Commit.t) (single : Prop) :
  Commit.SubCommits c = more -> Forall flat more -> (single -> more = []) ->
  Forall flat (Commit.SubCommits c)
  /\ flat_map Commit.SubCommits (expand [c]) = Commit.SubCommits c
  /\ (single -> Commit.SubCommits c = []).
Proof.
  intros <- Hflat Hsingle. split; [done|]. split; [|done].
  rewrite expand_singleton. by apply expand_singleton_flat.
Qed.

Section SubCommitShape.

Context {W : Type}.
Implicit Types (p : @commitParser W) (w : W) (commit : Commit.t).

Lemma parseToken_subCommits p commit (token : string) w commit' w' :
  parseToken p commit token w = (Ok commit', w') ->
  exists more,
    Commit.SubCommits commit' = Commit.SubCommits commit ++ more
    /\ Forall flat more
    /\ (MultilineCommit (config p) = false -> more = []).
Proof.
  assert (forall c, frame c = frame commit ->
            exists more,
              Commit.SubCommits c = Commit.SubCommits commit ++ more
              /\ Forall flat more
              /\ (MultilineCommit (config p) = false -> more = [])) as Hsame.
  { intros c [= _ Hc]. exists []. rewrite app_nil_r. by repeat split. }
  unfold parseToken, pure, lift, ret.
  destruct (_ <? 0)%Z; [done|].
  set (field := strings.take _ token). set (value := strings.TrimSpace _).
  destruct (String.eqb field hashField).
  { destruct (parseHash value); simpl; try done.
    intros [= <- <-]. apply Hsame. by destruct commit. }
  destruct (String.eqb field authorField).
  { destruct (parseAuthor value); simpl; try done.
    intros [= <- <-]. apply Hsame. by destruct commit. }
  destruct (String.eqb field committerField).
  { unfold parseCommitter. destruct (parseAuthor value); simpl; try done.
    intros [= <- <-]. apply Hsame. by destruct commit. }
  destruct (String.eqb field subjectField).
  { pose proof (processHeader_frame p commit value w) as Hframe.
    destruct (processHeader p commit value w) as [c1 w1].
    intros [= <- <-]. by apply Hsame. }
  destruct (String.eqb field bodyField).
  { intros Hrun.
    destruct (processBody_cases _ _ _ _ _ _ Hrun) as (more & E & Hsingle & Hflat).
    apply processBodyLines_frame in E. injection E as _ E.
    exists more. rewrite E. split; [by destruct commit|]. split; [done|].
    intros Hm. by destruct (Hsingle Hm). }
  intros [= <- <-]. by apply Hsame.
Qed.

Lemma parseTokens_subCommits p (tokens : list string) commit w commit' w' :
  parseTokens p commit tokens w = (Ok commit', w') ->
  exists more,
    Commit.SubCommits commit' = Commit.SubCommits commit ++ more
    /\ Forall flat more
    /\ (MultilineCommit (config p) = false -> more = []).
Proof.
  revert commit w. induction tokens as [|token rest IH]; intros commit w; simpl.
  - unfold ret. intros [= <- <-]. exists []. rewrite app_nil_r.
    by repeat split.
  - unfold bind. destruct (parseToken p commit token w) as [[c1| |] w1] eqn:E;
      try done.
    intros (m2 & H2 & F2 & S2)%IH.
    apply parseToken_subCommits in E as (m1 & H1 & F1 & S1).
    exists (m1 ++ m2). rewrite H2, H1, <- app_assoc. split; [done|].
    split; [by apply Forall_app|].
    intros Hm. by rewrite (S1 Hm), (S2 Hm).
Qed.

(** The commits [parseCommit] returns are trees of depth one at most: a
    sub-commit has no sub-commits of its own (nor notes, merge, revert,
    co-authors or signers), so that the one-level expansion of the filter
    reaches every commit; and without multiline splitting there is no
    sub-commit at all. *)
Theorem parseCommit_subCommits_flat p (input : string) w commit w' :
  parseCommit p input w = (Ok commit, w') ->
  Forall flat (Commit.SubCommits commit)
  /\ flat_map Commit.SubCommits (expand [commit]) = Commit.SubCommits commit
  /\ (MultilineCommit (config p) = false -> Commit.SubCommits commit = []).
Proof.
  unfold parseCommit, bind.
  destruct (parseTokens p Commit.zero _ w) as [[c1| |] w1] eqn:Htok; try done.
  apply parseTokens_subCommits in Htok as (more & Hsubs & Hflat & Hsingle).
  simpl in Hsubs.
  assert (Commit.Hash
            (Commit.with_Mentions (uniqMentions (Commit.Mentions
               (Commit.with_Refs (uniqRefs (Commit.Refs c1)) c1)))
               (Commit.with_Refs (uniqRefs (Commit.Refs c1)) c1))
          = Commit.Hash c1) as -> by (by destruct c1).
  destruct (Commit.Hash c1) as [h|]; [|done].
  destruct (Exec _ _ _ _) as [[out|err] w2]; [|done].
  intros [= <- <-].
  apply (flat_tree _ more); [|done|done].
  rewrite <- Hsubs. destruct (Nat.ltb 0 (String.length out)); by destruct c1.
Qed.

End SubCommitShape.

(** A record with a sub-commit line in its body, parsed with multiline
    splitting on. *)
Lemma parseCommit_subCommits_flat_witness :
  exists commit w',
    parseCommit (Sample.parser true None "")
      (Sample.fields "a1" "feat: one" "fix: two #2 @bob") [] = (Ok commit, w')
    /\ Forall flat (Commit.SubCommits commit).
Proof.
  destruct (parseCommit (Sample.parser true None "")
              (Sample.fields "a1" "feat: one" "fix: two #2 @bob") [])
    as [[commit| |] w'] eqn:E.
  - exists commit, w'. split; [done|].
    by destruct (parseCommit_subCommits_flat _ _ _ _ _ E) as [H _].
  - vm_compute in E. discriminate E.
  - vm_compute in E. discriminate E.
Defined.

Section ParseShape.

Context {W : Type}.
Implicit Types (p : @commitParser W) (w : W) (commit : Commit.t).

Lemma parseLoop_entries p (lines : list string) (done : list (option Commit.t))
      w commits w' :
  parseLoop p (length done) lines (done ++ replicate (length lines) None) w
  = (Ok commits, w') ->
  exists entries, commits = done ++ entries /\ Forall2 (entryOf p) lines entries.
Proof.
  revert done w. induction lines as [|line rest IH]; intros done w; simpl.
  - unfold ret. intros [= <- <-]. exists []. split; [done | constructor].
  - unfold bind. destruct (parseCommit p line w) as [[commit| |] w1] eqn:E; try done.
    assert (forall (entry : option Commit.t) w2,
               entryOf p line entry ->
               parseLoop p (S (length done)) rest
                 ((done ++ [entry]) ++ replicate (length rest) None) w2
               = (Ok commits, w') ->
               exists entries,
                 commits = done ++ entries
                 /\ Forall2 (entryOf p) (line :: rest) entries) as Hnext.
    { intros entry w2 Hentry Hrun.
      replace (S (length done)) with (length (done ++ [entry])) in Hrun
        by (rewrite length_app; simpl; lia).
      apply IH in Hrun as (entries & -> & HF).
      exists (entry :: entries). rewrite <- app_assoc. split; [done|].
      by constructor. }
    assert (forall c : Commit.t,
               <[length done := Some c]> (done ++ None :: replicate (length rest) None)
               = (done ++ [Some c]) ++ replicate (length rest) None) as Hins.
    { intros c. rewrite insert_app_r_alt by lia. rewrite Nat.sub_diag. simpl.
      by rewrite <- app_assoc. }
    destruct (Processor_ (config p)) as [processor|] eqn:Hp.
    + unfold lift.
      destruct (ProcessCommit processor commit w1) as [[c|] w2] eqn:Hc.
      * rewrite Hins. apply Hnext. exists commit, w, w1. split; [done|].
        rewrite Hp. by exists w2.
      * replace (done ++ None :: replicate (length rest) None)
          with ((done ++ [None]) ++ replicate (length rest) None)
          by (by rewrite <- app_assoc).
        apply Hnext. exists commit, w, w1. split; [done|].
        rewrite Hp. by exists w2.
    + rewrite Hins. apply Hnext. exists commit, w, w1. split; [done|].
      by rewrite Hp.
Qed.

(** The slice [Parse] returns has one entry per record of the log output
    (the text before the first separator apart), in the order of the
    records: the commit parsed from the record, or what the post-processor
    made of it; without a post-processor no entry is nil. *)
Theorem Parse_entries p (rev : string) w commits w' :
  Parse p rev w = (Ok commits, w') ->
  exists out w0,
    Exec (client p) "log" (logArgs p rev) w = (inl out, w0)
    /\ Forall2 (entryOf p) (tail (strings.Split out separator)) commits
    /\ (Processor_ (config p) = None -> Forall is_Some commits).
Proof.
  unfold Parse.
  destruct (Exec (client p) "log" (logArgs p rev) w) as [[out|err] w0]; [|done].
  destruct (strings.Split out separator) as [|skipped lines] eqn:Hsplit; [done|].
  intros Hrun. apply (parseLoop_entries p lines []) in Hrun as (entries & -> & HF).
  exists out, w0. split; [done|]. rewrite Hsplit. split; [exact HF|].
  intros Hp. simpl. clear -HF Hp.
  induction HF as [|line entry lines entries (c & w1 & w2 & _ & He) _ IH];
    constructor; [|done].
  rewrite Hp in He. by rewrite He.
Qed.

End ParseShape.

(** A log of two records parses to two entries, none of them nil. *)
Lemma Parse_entries_witness :
  exists commits w',
    Parse (Sample.parser false None
             (Sample.record "a1" "feat: one" "" +:+ Sample.record "b2" "fix: two" ""))
          "HEAD" [] = (Ok commits, w')
    /\ length commits = 2
    /\ Forall is_Some commits.
Proof.
  destruct (Parse (Sample.parser false None
             (Sample.record "a1" "feat: one" "" +:+ Sample.record "b2" "fix: two" ""))
          "HEAD" []) as [[commits| |] w'] eqn:E.
  - exists commits, w'. split; [done|].
    destruct (Parse_entries _ _ _ _ _ E) as (out & w0 & Hexec & HF & Hsome).
    split; [|by apply Hsome].
    injection Hexec as <- <-. apply Forall2_length in HF. rewrite <- HF.
    vm_compute. reflexivity.
  - vm_compute in E. discriminate E.
  - vm_compute in E. discriminate E.
Defined.

(** *** The header *)

Section HeaderProperties.

Context {W : Type}.
Implicit Types (p : @commitParser W) (w : W) (commit : Commit.t).

Lemma assignDynamicValues_nonStrings commit (attrs values : list string) :
  nonStrings (assignDynamicValues commit attrs values) = nonStrings commit.
Proof.
  revert commit values. induction attrs as [|field attrs IH]; intros commit values;
    [done|].
  destruct values as [|v values]; [done|]. simpl. rewrite IH.
  unfold SetString, Commit_Dynamic.
  repeat (destruct (String.eqb field _); [by destruct commit|]). done.
Qed.

Lemma enrich_cases p commit w :
  (Commit.JiraIssueID commit = "" /\ enrich p commit w = (commit, w))
  \/ (Commit.JiraIssueID commit ≠ ""
      /\ exists type issue,
           (enrich p commit w).1
           = Commit.with_JiraIssue issue (Commit.with_Type type commit)).
Proof.
  unfold enrich. destruct (String.eqb_spec (Commit.JiraIssueID commit) "") as [He|Hne].
  - by left.
  - right. split; [done|]. unfold processJiraIssue.
    destruct (GetJiraIssue _ _ _) as [[issue|err] w1]; simpl.
    + by eexists _, _.
    + exists (Commit.Type_ commit), (Commit.JiraIssue commit). by destruct commit.
Qed.

(** [processHeader] leaves hash, author, committer, notes, co-authors,
    signers, changed files and sub-commits as they are; it replaces the
    references and mentions of the commit by those of the header; it sets
    the merge (the revert) when the merge (revert) pattern matches and
    leaves it alone otherwise; and when the commit ends up without an issue
    id, no lookup is made and the issue is left as it was. *)
Theorem processHeader_spec p commit (input : string) w :
  let result := processHeader p commit input w in
  outsideHeader result.1 = outsideHeader commit
  /\ Commit.Refs result.1 = parseRefs p input
  /\ Commit.Mentions result.1 = parseMentions p input
  /\ match FindAllStringSubmatch (reMerge p) input with
     | [] => Commit.Merge result.1 = Commit.Merge commit
     | _ :: _ => is_Some (Commit.Merge result.1)
     end
  /\ match FindAllStringSubmatch (reRevert p) input with
     | [] => Commit.Revert result.1 = Commit.Revert commit
     | _ :: _ => is_Some (Commit.Revert result.1)
     end
  /\ (Commit.JiraIssueID result.1 = "" ->
      result.2 = w /\ Commit.JiraIssue result.1 = Commit.JiraIssue commit).
Proof.
  cbn zeta. unfold processHeader.
  set (c1 := match FindAllStringSubmatch (reHeader p) input with
             | res0 :: _ =>
                 assignDynamicValues (Commit.with_Header input commit)
                   (HeaderPatternMaps (config p)) (tail res0)
             | [] => Commit.with_Header input commit
             end).
  assert (nonStrings c1 = nonStrings commit) as H1.
  { unfold c1. destruct (FindAllStringSubmatch (reHeader p) input).
    - by destruct commit.
    - rewrite assignDynamicValues_nonStrings. by destruct commit. }
  unfold nonStrings in H1.
  injection H1 as E1 E2 E3 E4 E5 E6 E7 E8 E9 E10 E11 E12 E13.
  match goal with
  | |- context [enrich p ?c w] =>
      destruct (enrich_cases p c w) as [[Hid He]|[Hid (type & issue & He)]];
      rewrite He; clear He
  end.
  - destruct (FindAllStringSubmatch (reMerge p) input) as [|m ms];
      destruct (FindAllStringSubmatch (reRevert p) input) as [|r rs];
      destruct c1; destruct commit; simpl in *; subst;
      repeat split; done.
  - assert (forall c : Commit.t,
              Commit.JiraIssueID (Commit.with_JiraIssue issue (Commit.with_Type type c))
              = Commit.JiraIssueID c) as Hsame by (by intros []).
    rewrite Hsame.
    destruct (FindAllStringSubmatch (reMerge p) input) as [|m ms];
      destruct (FindAllStringSubmatch (reRevert p) input) as [|r rs];
      destruct c1; destruct commit; simpl in *; subst;
      repeat split; done.
Qed.

End HeaderProperties.
